(** * gordpool: the battery schedule planner ([pkg/planner])

    A shallow embedding of the scheduling core of [pkg/planner]:
    [inferResolutionMinutes], [slotsForHours], [groupConsecutiveSlots] and
    [BuildBatterySchedule], together with the parts of the Go runtime and
    standard library they rest on ([time.Time], [time.Duration], [math.Round],
    [math.Ceil], float-to-int conversion, [sort.Float64s] and [sort.Slice]).

    Conventions of the embedding.
    - A [time.Time] is the instant it denotes, in nanoseconds since the Unix
      epoch; a [time.Duration] is a signed 64-bit count of nanoseconds, with
      the saturation of [Time.Sub] and the wrap-around of [int64]
      multiplication written out.
    - A finite [float64] is the rational number it denotes and arithmetic on
      it is exact; the one place where the code can leave the finite values
      (the division by the resolution in [slotsForHours]) uses the extended
      type [float64], with the infinities and NaN.
    - A Go slice that is observable from outside keeps the distinction between
      [nil] and an empty slice ([slice]); slices that only live inside one
      function are lists.
    - A runtime panic is the outcome [Panicked]. *)

From Stdlib Require Import ZArith QArith Qminmax Qround Qabs Lia Lqa String Ascii.
From stdpp Require Import base list sorting.

Local Open Scope Z_scope.

(** ** Go runtime: integers, slices, panics *)

Definition minInt64 : Z := - 2 ^ 63.
Definition maxInt64 : Z := 2 ^ 63 - 1.

(** Wrap-around of a mathematical integer into [int64]. *)
Definition wrap_int64 (z : Z) : Z := (z + 2 ^ 63) mod 2 ^ 64 - 2 ^ 63.

Definition in_int64 (z : Z) : bool := (minInt64 <=? z) && (z <=? maxInt64).

(** A slice as seen by a consumer: [SNil] is the [nil] slice (rendered as
    [null] by [encoding/json]), [SOf l] a non-nil slice with elements [l]. *)
Inductive slice (A : Type) : Type :=
  | SNil
  | SOf (elems : list A).
Arguments SNil {A}.
Arguments SOf {A} elems.

Definition elems_of {A} (s : slice A) : list A :=
  match s with SNil => [] | SOf l => l end.

Definition is_nil {A} (s : slice A) : bool :=
  match s with SNil => true | SOf _ => false end.

(** Result of running a function that may panic. *)
Inductive outcome (A : Type) : Type :=
  | Returned (a : A)
  | Panicked.
Arguments Returned {A} a.
Arguments Panicked {A}.

(** What a function is applied to the result, if there is one. *)
Definition map_outcome {A B} (f : A -> B) (o : outcome A) : outcome B :=
  match o with
  | Returned a => Returned (f a)
  | Panicked => Panicked
  end.

(** ** Package [time] *)

Definition Time := Z.
Definition Duration := Z.

Definition minDuration : Duration := minInt64.
Definition maxDuration : Duration := maxInt64.

Definition Nanosecond : Duration := 1.
Definition Second : Duration := 1000000000.
Definition Minute : Duration := 60 * Second.

(** [t.Before(u)] *)
Definition Before (t u : Time) : bool := t <? u.

(** [t.Sub(u)]: the difference, or the minimum / maximum duration when the
    difference does not fit. *)
Definition Sub (t u : Time) : Duration :=
  let d := t - u in
  if d <? minDuration then minDuration
  else if maxDuration <? d then maxDuration
  else d.

(** [t.Add(d)] *)
Definition Add (t : Time) (d : Duration) : Time := t + d.

(** [d.Minutes()]: [float64(d / Minute) + float64(d % Minute) / (60 * 1e9)];
    [/] and [%] on integers truncate towards zero. *)
Definition Minutes (d : Duration) : Q :=
  (inject_Z (Z.quot d Minute) + inject_Z (Z.rem d Minute) / inject_Z 60000000000)%Q.

(** ** Package [math] and float conversion *)

(** What a [float64] expression can evaluate to. *)
Inductive float64 : Type :=
  | Finite (q : Q)
  | PosInf
  | NegInf
  | NaN.

(** [x / y] on [float64], for finite operands. *)
Definition fdiv (x y : Q) : float64 :=
  if Qeq_bool y 0 then
    match (x ?= 0)%Q with
    | Gt => PosInf
    | Lt => NegInf
    | Eq => NaN
    end
  else Finite (x / y)%Q.

(** [math.Ceil] *)
Definition Ceil (f : float64) : float64 :=
  match f with
  | Finite q => Finite (inject_Z (Qceiling q))
  | other => other
  end.

(** [math.Round]: nearest integer, halves away from zero. *)
Definition Round (q : Q) : Q :=
  if Qle_bool 0 q then inject_Z (Qfloor (q + (1 # 2)))
  else inject_Z (Qceiling (q - (1 # 2))).

(** Truncation of a rational towards zero. *)
Definition Qtrunc (q : Q) : Z := Z.quot (Qnum q) (Z.pos (Qden q)).

(** ** Domain types *)

Record BatteryStrategyParams : Type := mkParams {
  Area : string;
  MaxChargeHours : Q;
  MaxDischargeHours : Q;
  LastPriceCharged : Q;
  Epsilon : Q;
  Market : string;
  Currency : string
}.

Record PriceSlot : Type := mkPriceSlot {
  Timestamp : Time;
  Price : Q
}.

Record SlotJSON : Type := mkSlotJSON {
  slot_Timestamp : string;
  slot_Price : Q
}.

Record IntervalJSON : Type := mkIntervalJSON {
  Start : string;
  End_ : string;
  AvgPrice : Q
}.

Record ScheduleJSON : Type := mkScheduleJSON {
  sched_Area : string;
  sched_LastPriceCharged : Q;
  sched_Epsilon : Q;
  ResolutionMinutes : option Z;
  ChargeSlots : slice SlotJSON;
  DischargeSlots : slice SlotJSON;
  ChargeIntervals : slice IntervalJSON;
  DischargeIntervals : slice IntervalJSON
}.

(** ** Package [sort] *)

(** [sort.Float64s] sorts a slice of floats in increasing order.  The deltas
    it is applied to are finite, and the increasing arrangement of finite
    values is unique, so the function is embedded as the insertion of each
    element into the increasing arrangement of the others (which is also the
    algorithm that Go runs on slices of at most 12 elements). *)
Fixpoint insert_float64 (x : Q) (l : list Q) : list Q :=
  match l with
  | [] => [x]
  | y :: l' => if Qle_bool x y then x :: l else y :: insert_float64 x l'
  end.

Fixpoint Float64s (l : list Q) : list Q :=
  match l with
  | [] => []
  | x :: l' => insert_float64 x (Float64s l')
  end.

(** [sort.Slice] is not stable and what it does with equal keys depends on
    the algorithm, so the algorithm itself is embedded: the pattern-defeating
    quicksort of Go 1.24 ([sort/zsortfunc.go], the toolchain of the
    repository's Dockerfile).  [data] is the slice being sorted in place;
    [less] compares two elements, so that the closure [less(i, j)] of the
    call site is [Less data i j] on the current contents. *)
Module GoSort.
Section pdqsort.
Local Open Scope nat_scope.
Context {A : Type} (less : A -> A -> bool).

Definition Less (data : list A) (i j : nat) : bool :=
  match data !! i, data !! j with
  | Some x, Some y => less x y
  | _, _ => false
  end.

Definition Swap (data : list A) (i j : nat) : list A :=
  match data !! i, data !! j with
  | Some x, Some y => <[j := x]> (<[i := y]> data)
  | _, _ => data
  end.

(** [for j := i; j > a && data.Less(j, j-1); j-- { data.Swap(j, j-1) }] *)
Fixpoint insertion_shift (data : list A) (a j : nat) : list A :=
  match j with
  | O => data
  | S j' =>
      if (a <? j) && Less data j j'
      then insertion_shift (Swap data j j') a j'
      else data
  end.

(** [for i := a + 1; i < b; i++ { ... }], with [n] iterations left. *)
Fixpoint insertion_loop (n : nat) (data : list A) (a i : nat) : list A :=
  match n with
  | O => data
  | S n' => insertion_loop n' (insertion_shift data a i) a (S i)
  end.

Definition insertionSort_func (data : list A) (a b : nat) : list A :=
  insertion_loop (b - (a + 1)) data a (a + 1).

(** The loop of [siftDown_func]; [root] grows at every turn and the loop
    ends once [2*root+1 >= hi], so [hi] turns are enough. *)
Fixpoint siftDown_loop (n : nat) (data : list A) (root hi first : nat) : list A :=
  match n with
  | O => data
  | S n' =>
      let child := 2 * root + 1 in
      if hi <=? child then data
      else
        let child :=
          if (child + 1 <? hi) && Less data (first + child) (first + child + 1)
          then child + 1 else child in
        if negb (Less data (first + root) (first + child)) then data
        else siftDown_loop n' (Swap data (first + root) (first + child)) child hi first
  end.

Definition siftDown_func (data : list A) (lo hi first : nat) : list A :=
  siftDown_loop hi data lo hi first.

(** [for i := (hi - 1) / 2; i >= 0; i-- { siftDown_func(data, i, hi, first) }],
    entered with [n = i + 1]. *)
Fixpoint heap_build_loop (n : nat) (data : list A) (hi first : nat) : list A :=
  match n with
  | O => data
  | S i => heap_build_loop i (siftDown_func data i hi first) hi first
  end.

(** [for i := hi - 1; i >= 0; i-- { data.Swap(first, first+i); siftDown_func(data, lo, i, first) }] *)
Fixpoint heap_pop_loop (n : nat) (data : list A) (first : nat) : list A :=
  match n with
  | O => data
  | S i => heap_pop_loop i (siftDown_func (Swap data first (first + i)) 0 i first) first
  end.

Definition heapSort_func (data : list A) (a b : nat) : list A :=
  let first := a in
  let hi := b - a in
  let data := heap_build_loop (S ((hi - 1) / 2)) data hi first in
  heap_pop_loop hi data first.

Inductive sortedHint : Type := unknownHint | increasingHint | decreasingHint.

Definition order2_func (data : list A) (a b swaps : nat) : nat * nat * nat :=
  if Less data b a then (b, a, S swaps) else (a, b, swaps).

Definition median_func (data : list A) (a b c swaps : nat) : nat * nat :=
  let '(a, b, swaps) := order2_func data a b swaps in
  let '(b, c, swaps) := order2_func data b c swaps in
  let '(a, b, swaps) := order2_func data a b swaps in
  (b, swaps).

Definition medianAdjacent_func (data : list A) (a swaps : nat) : nat * nat :=
  median_func data (a - 1) a (a + 1) swaps.

Definition shortestNinther : nat := 50.
Definition maxSwaps : nat := 4 * 3.

Definition choosePivot_func (data : list A) (a b : nat) : nat * sortedHint :=
  let l := b - a in
  let i := a + l / 4 * 1 in
  let j := a + l / 4 * 2 in
  let k := a + l / 4 * 3 in
  let '(j, swaps) :=
    if 8 <=? l then
      let '(i, j, k, swaps) :=
        if shortestNinther <=? l then
          let '(i, swaps) := medianAdjacent_func data i 0 in
          let '(j, swaps) := medianAdjacent_func data j swaps in
          let '(k, swaps) := medianAdjacent_func data k swaps in
          (i, j, k, swaps)
        else (i, j, k, 0) in
      median_func data i j k swaps
    else (j, 0) in
  if swaps =? 0 then (j, increasingHint)
  else if swaps =? maxSwaps then (j, decreasingHint)
  else (j, unknownHint).

(** [for i < j { data.Swap(i, j); i++; j-- }] *)
Fixpoint reverse_loop (n : nat) (data : list A) (i j : nat) : list A :=
  match n with
  | O => data
  | S n' => if i <? j then reverse_loop n' (Swap data i j) (S i) (j - 1) else data
  end.

Definition reverseRange_func (data : list A) (a b : nat) : list A :=
  reverse_loop (b - a) data a (b - 1).

(** [xorshift.Next], on [uint64]. *)
Definition xorshift_Next (r : Z) : Z :=
  let r := Z.lxor r (Z.shiftl r 13 mod 2 ^ 64)%Z in
  let r := Z.lxor r (Z.shiftr r 7) in
  Z.lxor r (Z.shiftl r 17 mod 2 ^ 64)%Z.

(** [bits.Len] *)
Definition bits_Len (n : nat) : nat :=
  match n with O => O | _ => S (Nat.log2 n) end.

Definition nextPowerOfTwo (length : nat) : Z := Z.shiftl 1 (Z.of_nat (bits_Len length)).

Fixpoint breakPatterns_loop (n : nat) (data : list A) (random modulus : Z)
    (length a idx i : nat) : list A :=
  match n with
  | O => data
  | S n' =>
      let random := xorshift_Next random in
      let other := Z.to_nat (Z.land random (modulus - 1)) in
      let other := if length <=? other then other - length else other in
      breakPatterns_loop n' (Swap data (idx - 1 + i) (a + other)) random modulus
        length a idx (S i)
  end.

Definition breakPatterns_func (data : list A) (a b : nat) : list A :=
  let length := b - a in
  if 8 <=? length then
    breakPatterns_loop 3 data (Z.of_nat length) (nextPowerOfTwo length)
      length a (a + (length / 4) * 2 - 1) 0
  else data.

(** [for i <= j && ok(i) { i++ }], entered with [n = j + 1 - i]. *)
Fixpoint scan_up (n : nat) (ok : nat -> bool) (i j : nat) : nat :=
  match n with
  | O => i
  | S n' => if (i <=? j) && ok i then scan_up n' ok (S i) j else i
  end.

(** [for i <= j && ok(j) { j-- }], entered with [n = j + 1 - i]. *)
Fixpoint scan_down (n : nat) (ok : nat -> bool) (i j : nat) : nat :=
  match n with
  | O => j
  | S n' => if (i <=? j) && ok j then scan_down n' ok i (j - 1) else j
  end.

(** The [for { ... }] loop of [partition_func]; every turn that goes on
    moves [i] up and [j] down, so [j + 1 - i] turns are enough. *)
Fixpoint partition_loop (n : nat) (data : list A) (a i j : nat) : list A * nat :=
  match n with
  | O => (data, j)
  | S n' =>
      let i := scan_up (S j - i) (fun i => Less data i a) i j in
      let j := scan_down (S j - i) (fun j => negb (Less data j a)) i j in
      if j <? i then (data, j)
      else partition_loop n' (Swap data i j) a (S i) (j - 1)
  end.

Definition partition_func (data : list A) (a b pivot : nat) : list A * nat * bool :=
  let data := Swap data a pivot in
  let i := a + 1 in
  let j := b - 1 in
  let i := scan_up (S j - i) (fun i => Less data i a) i j in
  let j := scan_down (S j - i) (fun j => negb (Less data j a)) i j in
  if j <? i then (Swap data j a, j, true)
  else
    let data := Swap data i j in
    let '(data, j) := partition_loop (S j - i) data a (S i) (j - 1) in
    (Swap data j a, j, false).

(** The loop of [partitionEqual_func]. *)
Fixpoint partitionEqual_loop (n : nat) (data : list A) (a i j : nat) : list A * nat :=
  match n with
  | O => (data, i)
  | S n' =>
      let i := scan_up (S j - i) (fun i => negb (Less data a i)) i j in
      let j := scan_down (S j - i) (fun j => Less data a j) i j in
      if j <? i then (data, i)
      else partitionEqual_loop n' (Swap data i j) a (S i) (j - 1)
  end.

Definition partitionEqual_func (data : list A) (a b pivot : nat) : list A * nat :=
  let data := Swap data a pivot in
  partitionEqual_loop (S (b - a)) data a (a + 1) (b - 1).

Definition maxSteps : nat := 5.
Definition shortestShifting : nat := 50.

(** [for i < b && !data.Less(i, i-1) { i++ }], entered with [n = b - i]. *)
Fixpoint scan_ordered (n : nat) (data : list A) (i b : nat) : nat :=
  match n with
  | O => i
  | S n' => if (i <? b) && negb (Less data i (i - 1)) then scan_ordered n' data (S i) b else i
  end.

(** [for j := i - 1; j >= 1; j-- { if !data.Less(j, j-1) { break }; data.Swap(j, j-1) }] *)
Fixpoint shift_left (data : list A) (j : nat) : list A :=
  match j with
  | O => data
  | S j' => if negb (Less data j j') then data else shift_left (Swap data j j') j'
  end.

(** [for j := i + 1; j < b; j++ { if !data.Less(j, j-1) { break }; data.Swap(j, j-1) }],
    entered with [n = b - j]. *)
Fixpoint shift_right (n : nat) (data : list A) (j b : nat) : list A :=
  match n with
  | O => data
  | S n' =>
      if j <? b then
        if negb (Less data j (j - 1)) then data
        else shift_right n' (Swap data j (j - 1)) (S j) b
      else data
  end.

(** [for j := 0; j < maxSteps; j++ { ... }] of [partialInsertionSort_func]. *)
Fixpoint partialInsertion_loop (steps : nat) (data : list A) (a b i : nat) : list A * bool :=
  match steps with
  | O => (data, false)
  | S steps' =>
      let i := scan_ordered (b - i) data i b in
      if i =? b then (data, true)
      else if b - a <? shortestShifting then (data, false)
      else
        let data := Swap data i (i - 1) in
        let data := if 2 <=? i - a then shift_left data (i - 1) else data in
        let data := if 2 <=? b - i then shift_right (b - (i + 1)) data (i + 1) b else data in
        partialInsertion_loop steps' data a b i
  end.

Definition partialInsertionSort_func (data : list A) (a b : nat) : list A * bool :=
  partialInsertion_loop maxSteps data a b (a + 1).

Definition maxInsertion : nat := 12.

(** [pdqsort_func] sorts [data[a:b]].  Its [for] loop and its recursive
    call both work on a strictly shorter range; [fuel] bounds their number
    and [None] means that the bound was too small ([pdqsort_fuel] shows
    that [b - a + 1] is enough). *)
Fixpoint pdqsort_func (fuel : nat) (data : list A) (a b limit : nat)
    (wasBalanced wasPartitioned : bool) : option (list A) :=
  match fuel with
  | O => None
  | S fuel' =>
      let length := b - a in
      if length <=? maxInsertion then Some (insertionSort_func data a b)
      else if limit =? 0 then Some (heapSort_func data a b)
      else
        let '(data, limit) :=
          if negb wasBalanced then (breakPatterns_func data a b, limit - 1)
          else (data, limit) in
        let '(pivot, hint) := choosePivot_func data a b in
        let '(data, pivot, hint) :=
          match hint with
          | decreasingHint =>
              (reverseRange_func data a b, (b - 1) - (pivot - a), increasingHint)
          | _ => (data, pivot, hint)
          end in
        let '(data, sorted) :=
          match hint with
          | increasingHint =>
              if wasBalanced && wasPartitioned
              then partialInsertionSort_func data a b
              else (data, false)
          | _ => (data, false)
          end in
        if sorted then Some data
        else if (0 <? a) && negb (Less data (a - 1) pivot) then
          let '(data, mid) := partitionEqual_func data a b pivot in
          pdqsort_func fuel' data mid b limit wasBalanced wasPartitioned
        else
          let '(data, mid, alreadyPartitioned) := partition_func data a b pivot in
          let leftLen := mid - a in
          let rightLen := b - mid in
          let balanceThreshold := length / 8 in
          if leftLen <? rightLen then
            match pdqsort_func fuel' data a mid limit true true with
            | None => None
            | Some data =>
                pdqsort_func fuel' data (mid + 1) b limit
                  (balanceThreshold <=? leftLen) alreadyPartitioned
            end
          else
            match pdqsort_func fuel' data (mid + 1) b limit true true with
            | None => None
            | Some data =>
                pdqsort_func fuel' data a mid limit
                  (balanceThreshold <=? rightLen) alreadyPartitioned
            end
  end.

(** [sort.Slice(data, less)] *)
Definition Slice (data : list A) : list A :=
  let n := length data in
  default data (pdqsort_func (S n) data 0 n (bits_Len n) true true).

(** No element of [data] is less than an earlier one: the slice is in order
    for [less]. *)
Definition ordered (data : list A) : Prop :=
  forall i j x y, i < j -> data !! i = Some x -> data !! j = Some y -> less y x = false.

End pdqsort.
End GoSort.

(** ** Package [planner] *)

Definition bind_outcome {A B} (o : outcome A) (k : A -> outcome B) : outcome B :=
  match o with
  | Returned a => k a
  | Panicked => Panicked
  end.

Notation "'let*' x ':=' o 'in' k" := (bind_outcome o (fun x => k))
  (at level 10, x name, o at level 100, k at level 200).

(** [x < y] on finite floats. *)
Definition Qlt_bool (x y : Q) : bool := negb (Qle_bool y x).

(** A slice variable declared with [var] and only ever appended to: it is
    still [nil] exactly when nothing was appended. *)
Definition appended {A} (l : list A) : slice A :=
  match l with
  | [] => SNil
  | _ => SOf l
  end.

Section Planner.

(** [t.Format(time.RFC3339)]; the schedule only carries timestamps through
    this function. *)
Variable formatRFC3339 : Time -> string.

(** The Go specification leaves the result of converting a floating-point
    value that [int] cannot represent to the implementation. *)
Variable int_of_unrepresentable : float64 -> Z.

(** [int(f)] for a [float64] value [f]. *)
Definition int_of_float64 (f : float64) : Z :=
  match f with
  | Finite q =>
      let z := Qtrunc q in
      if in_int64 z then z else int_of_unrepresentable f
  | _ => int_of_unrepresentable f
  end.

(** The loop of [inferResolutionMinutes]:
    [prices[i].Timestamp.Sub(prices[i-1].Timestamp).Minutes()] for
    [i = 1 .. len(prices) - 1]. *)
Fixpoint minute_deltas (prices : list PriceSlot) : list Q :=
  match prices with
  | prev :: rest =>
      match rest with
      | cur :: _ => Minutes (Sub (Timestamp cur) (Timestamp prev)) :: minute_deltas rest
      | [] => []
      end
  | [] => []
  end.

Definition inferResolutionMinutes (prices : list PriceSlot) : Z :=
  if (length prices <? 2)%nat then 60
  else
    let deltas := Float64s (minute_deltas prices) in
    let mid := (length deltas / 2)%nat in
    let median :=
      if (length deltas mod 2 =? 0)%nat
      then ((nth (mid - 1) deltas 0 + nth mid deltas 0) / 2)%Q
      else nth mid deltas 0%Q in
    int_of_float64 (Finite (Round median)).

Definition slotsForHours (maxHours : Q) (resolutionMinutes : Z) : Z :=
  let totalMinutes := (maxHours * 60)%Q in
  int_of_float64 (Ceil (fdiv totalMinutes (inject_Z resolutionMinutes))).

(** The comparison closures handed to [sort.Slice]. *)
Definition byTimestamp (x y : PriceSlot) : bool := Before (Timestamp x) (Timestamp y).
Definition byPriceAscending (x y : PriceSlot) : bool := Qlt_bool (Price x) (Price y).
Definition byPriceDescending (x y : PriceSlot) : bool := Qlt_bool (Price y) (Price x).

(** The first loop of [groupConsecutiveSlots], from [i = 1]: [prev] is
    [slots[i-1]] and [rest] is [slots[i:]]. *)
Fixpoint group_loop (step : Duration) (prev : PriceSlot) (rest : list PriceSlot)
    (groups : list (list PriceSlot)) (group : list PriceSlot)
    : list (list PriceSlot) * list PriceSlot :=
  match rest with
  | [] => (groups, group)
  | cur :: rest' =>
      if Sub (Timestamp cur) (Timestamp prev) =? step
      then group_loop step cur rest' groups (group ++ [cur])
      else group_loop step cur rest' (groups ++ [group]) [cur]
  end.

(** The body of the second loop of [groupConsecutiveSlots]: the interval
    of one group, or nothing for an empty group ([continue]). *)
Definition interval_of_group (step : Duration) (g : list PriceSlot) : option IntervalJSON :=
  match g with
  | [] => None
  | first :: _ =>
      let start := Timestamp first in
      let end_ := Add (Timestamp (List.last g first)) step in
      let sum := foldl (fun sum s => (sum + Price s)%Q) 0%Q g in
      let avg := (sum / inject_Z (Z.of_nat (length g)))%Q in
      Some {| Start := formatRFC3339 start;
              End_ := formatRFC3339 end_;
              AvgPrice := avg |}
  end.

Definition intervals_loop (step : Duration) (groups : list (list PriceSlot))
    : list IntervalJSON :=
  foldl (fun intervals g =>
           match interval_of_group step g with
           | Some iv => intervals ++ [iv]
           | None => intervals
           end) [] groups.

(** [step := time.Duration(resolutionMinutes) * time.Minute] *)
Definition resolution_step (resolutionMinutes : Z) : Duration :=
  wrap_int64 (resolutionMinutes * Minute).

(** [groupConsecutiveSlots] sorts its argument in place; the second
    component of the result is the caller's slice after the call. *)
Definition groupConsecutiveSlots (slots : list PriceSlot) (resolutionMinutes : Z)
    : slice IntervalJSON * list PriceSlot :=
  match slots with
  | [] => (SNil, slots)
  | _ :: _ =>
      let slots := GoSort.Slice byTimestamp slots in
      let step := resolution_step resolutionMinutes in
      match slots with
      | [] => (SNil, slots) (* not reached: sorting keeps the length *)
      | first :: rest =>
          let '(groups, group) := group_loop step first rest [] [first] in
          let groups := groups ++ [group] in
          (appended (intervals_loop step groups), slots)
      end
  end.

(** [for _, p := range prices { if !p.Timestamp.Before(now) { future = append(future, p) } }] *)
Definition future_slots (prices : list PriceSlot) (now : Time) : list PriceSlot :=
  foldl (fun future p =>
           if negb (Before (Timestamp p) now) then future ++ [p] else future)
        [] prices.

Definition dischargeThreshold (params : BatteryStrategyParams) : Q :=
  let t := (LastPriceCharged params + Epsilon params)%Q in
  if Qlt_bool 8 t then 8%Q else t.

(** The classification loop; the result is
    [(chargeCandidates, dischargeCandidates)]. *)
Definition candidates (params : BatteryStrategyParams) (future : list PriceSlot)
    : list PriceSlot * list PriceSlot :=
  foldl (fun '(chargeCandidates, dischargeCandidates) s =>
           let chargeCandidates :=
             if Qle_bool (Epsilon params) (LastPriceCharged params - Price s)
             then chargeCandidates ++ [s] else chargeCandidates in
           let dischargeCandidates :=
             if Qle_bool (dischargeThreshold params) (Price s)
             then dischargeCandidates ++ [s] else dischargeCandidates in
           (chargeCandidates, dischargeCandidates))
        ([], []) future.

(** [if len(c) > max { c = c[:max] }]; the slice expression panics on a
    negative bound. *)
Definition truncate (c : list PriceSlot) (max : Z) : outcome (list PriceSlot) :=
  if max <? Z.of_nat (length c) then
    if max <? 0 then Panicked else Returned (take (Z.to_nat max) c)
  else Returned c.

Definition toSlotJSON (slots : list PriceSlot) : slice SlotJSON :=
  SOf (map (fun s => {| slot_Timestamp := formatRFC3339 (Timestamp s);
                        slot_Price := Price s |}) slots).

(** The candidates of one side after ranking and truncation. *)
Definition selectCharge (params : BatteryStrategyParams) (future : list PriceSlot)
    (resolution : Z) : outcome (list PriceSlot) :=
  truncate (GoSort.Slice byPriceAscending (fst (candidates params future)))
           (slotsForHours (MaxChargeHours params) resolution).

Definition selectDischarge (params : BatteryStrategyParams) (future : list PriceSlot)
    (resolution : Z) : outcome (list PriceSlot) :=
  truncate (GoSort.Slice byPriceDescending (snd (candidates params future)))
           (slotsForHours (MaxDischargeHours params) resolution).

Definition BuildBatterySchedule (prices : list PriceSlot)
    (params : BatteryStrategyParams) (now : Time) : outcome ScheduleJSON :=
  let future := future_slots prices now in
  if (length future =? 0)%nat then
    Returned {| sched_Area := Area params;
                sched_LastPriceCharged := LastPriceCharged params;
                sched_Epsilon := Epsilon params;
                ResolutionMinutes := None;
                ChargeSlots := SOf [];
                DischargeSlots := SOf [];
                ChargeIntervals := SOf [];
                DischargeIntervals := SOf [] |}
  else
    let resolution := inferResolutionMinutes future in
    let* chargeCandidates := selectCharge params future resolution in
    let* dischargeCandidates := selectDischarge params future resolution in
    let chargeCandidates := GoSort.Slice byTimestamp chargeCandidates in
    let dischargeCandidates := GoSort.Slice byTimestamp dischargeCandidates in
    let '(chargeIntervals, chargeCandidates) :=
      groupConsecutiveSlots chargeCandidates resolution in
    let '(dischargeIntervals, dischargeCandidates) :=
      groupConsecutiveSlots dischargeCandidates resolution in
    Returned {| sched_Area := Area params;
                sched_LastPriceCharged := LastPriceCharged params;
                sched_Epsilon := Epsilon params;
                ResolutionMinutes := Some resolution;
                ChargeSlots := toSlotJSON chargeCandidates;
                DischargeSlots := toSlotJSON dischargeCandidates;
                ChargeIntervals := chargeIntervals;
                DischargeIntervals := dischargeIntervals |}.

End Planner.

(** ** Instances used to run the planner on concrete inputs *)

(** [time.RFC3339] rendering of an instant in UTC, as [time.Parse] returns it
    for the [...Z] timestamps of the price feed: [2006-01-02T15:04:05Z]. *)
Definition digit (n : Z) : ascii := ascii_of_nat (48 + Z.to_nat (n mod 10)).

Definition digits2 (n : Z) (k : string) : string :=
  String (digit (n / 10)) (String (digit n) k).

Definition digits4 (n : Z) (k : string) : string :=
  digits2 (n / 100) (digits2 (n mod 100) k).

(** Year, month and day of the day number [z] (days since 1970-01-01). *)
Definition civil_from_days (z : Z) : Z * Z * Z :=
  let z := z + 719468 in
  let era := z / 146097 in
  let doe := z - era * 146097 in
  let yoe := (doe - doe / 1460 + doe / 36524 - doe / 146096) / 365 in
  let doy := doe - (365 * yoe + yoe / 4 - yoe / 100) in
  let mp := (5 * doy + 2) / 153 in
  let d := doy - (153 * mp + 2) / 5 + 1 in
  let m := if mp <? 10 then mp + 3 else mp - 9 in
  let y := yoe + era * 400 + (if m <=? 2 then 1 else 0) in
  (y, m, d).

Definition utcRFC3339 (t : Time) : string :=
  let secs := t / Second in
  let '(y, m, d) := civil_from_days (secs / 86400) in
  let sod := secs mod 86400 in
  digits4 y (String "-" (digits2 m (String "-" (digits2 d (String "T"
    (digits2 (sod / 3600) (String ":" (digits2 (sod / 60 mod 60) (String ":"
      (digits2 (sod mod 60) "Z"))))))))))%char.

(** Float-to-int conversion on amd64 (and on wasm without saturating
    conversions): every value that [int] cannot represent gives the
    "integer indefinite" value [-2^63]. *)
Definition indefinite_int (_ : float64) : Z := minInt64.

(** Float-to-int conversion where it saturates (arm64, wasm with [satconv]):
    NaN gives 0, the rest the nearest bound. *)
Definition saturating_int (f : float64) : Z :=
  match f with
  | NaN => 0
  | PosInf => maxInt64
  | NegInf => minInt64
  | Finite q => if Qle_bool 0 q then maxInt64 else minInt64
  end.

Definition hours (h : Z) : Time := h * (60 * Minute).

Definition hourly (h : Z) (price : Q) : PriceSlot := mkPriceSlot (hours h) price.

Definition example_params : BatteryStrategyParams :=
  mkParams "LV"%string 3 3 15 2 "DayAhead"%string "EUR"%string.

(** Slots at 00:00, 01:00, 02:00 and 05:00 of 1970-01-01. *)
Definition example_day : list PriceSlot :=
  [hourly 0 10; hourly 1 12; hourly 2 9; hourly 5 20].

(** Thirteen hourly slots, all at price 1 but the seventh, at price 0. *)
Definition tied_day : list PriceSlot :=
  [hourly 0 1; hourly 1 1; hourly 2 1; hourly 3 1; hourly 4 1; hourly 5 1; hourly 6 0;
   hourly 7 1; hourly 8 1; hourly 9 1; hourly 10 1; hourly 11 1; hourly 12 1].

(** * Around the planner: fetching, rendering, serving *)

(** ** Package [time]: calendar dates in UTC *)

Definition Hour : Duration := 60 * Minute.

(** The day number (days since 1970-01-01) of a date of the proleptic
    Gregorian calendar. *)
Definition days_from_civil (y m d : Z) : Z :=
  let y := if m <=? 2 then y - 1 else y in
  let era := y / 400 in
  let yoe := y - era * 400 in
  let mp := if 2 <? m then m - 3 else m + 9 in
  let doy := (153 * mp + 2) / 5 + d - 1 in
  let doe := yoe * 365 + yoe / 4 - yoe / 100 + doy in
  era * 146097 + doe - 719468.

(** [t.UTC().Year()], [t.UTC().Month()], [t.UTC().Day()] *)
Definition Year (t : Time) : Z := fst (fst (civil_from_days (t / (24 * Hour)))).
Definition Month (t : Time) : Z := snd (fst (civil_from_days (t / (24 * Hour)))).
Definition Day (t : Time) : Z := snd (civil_from_days (t / (24 * Hour))).

(** [time.Date(year, month, day, hour, min, sec, nsec, time.UTC)], for a
    month in 1..12, a day of that month and a time of day in range (the
    function is only called with such values). *)
Definition Date (year month day hour min sec nsec : Z) : Time :=
  days_from_civil year month day * (24 * Hour) +
  hour * Hour + min * Minute + sec * Second + nsec.

(** ** Package [planner]: fetching prices *)

(** [getTodayAndTomorrowUTC], with the reading of the clock as argument. *)
Definition getTodayAndTomorrowUTC (now : Time) : Time * Time :=
  let today := Date (Year now) (Month now) (Day now) 0 0 0 0 in
  let tomorrow := Add today (24 * Hour) in
  (today, tomorrow).

(** One element of [multiAreaEntries] of a decoded response. *)
Record multiAreaEntry : Type := mkEntry {
  DeliveryStart : string;
  EntryPerArea : string -> option Q
}.

(** What reading the body of a response into [dayAheadResponse] gives:
    nothing to read ([io.EOF]), an error, or the entries. *)
Inductive decoded : Type :=
  | EmptyBody
  | Malformed
  | Document (MultiAreaEntries : list multiAreaEntry).

(** What the request for one date comes to: no request could be built, the
    round trip failed, or a response came back. *)
Inductive exchange : Type :=
  | NoRequest
  | NoResponse
  | Response (StatusCode : Z) (body : decoded).

(** The errors of [FetchNordpoolPricesWithBase]. *)
Inductive fetch_error : Type :=
  | NewRequestError
  | RequestFailed (date : Time)
  | BadStatus (date : Time) (status : Z)
  | DecodeFailed (date : Time).

Section Fetch.

(** [time.Parse(time.RFC3339, s)] *)
Variable parseRFC3339 : string -> option Time.

(** The HTTP exchange for one date, with the base URL, area, market and
    currency of the call. *)
Variable exchange_for : Time -> exchange.

Variable area : string.

(** The loop over [raw.MultiAreaEntries]. *)
Definition append_entries (allSlots : list PriceSlot) (entries : list multiAreaEntry)
    : list PriceSlot :=
  foldl (fun allSlots entry =>
           match parseRFC3339 (DeliveryStart entry) with
           | None => allSlots
           | Some ts =>
               match EntryPerArea entry area with
               | None => allSlots
               | Some priceEurPerMWh =>
                   let priceCentsPerKWh := (priceEurPerMWh / 10)%Q in
                   allSlots ++ [mkPriceSlot ts priceCentsPerKWh]
               end
           end) allSlots entries.

(** The loop over [dates]. *)
Fixpoint fetch_dates (dates : list Time) (allSlots : list PriceSlot)
    : fetch_error + list PriceSlot :=
  match dates with
  | [] => inr allSlots
  | d :: dates' =>
      match exchange_for d with
      | NoRequest => inl NewRequestError
      | NoResponse => inl (RequestFailed d)
      | Response StatusCode body =>
          if 300 <=? StatusCode then inl (BadStatus d StatusCode)
          else
            match body with
            | EmptyBody => fetch_dates dates' allSlots
            | Malformed => inl (DecodeFailed d)
            | Document entries => fetch_dates dates' (append_entries allSlots entries)
            end
      end
  end.

Definition FetchNordpoolPricesWithBase (now : Time) : fetch_error + list PriceSlot :=
  let '(today, tomorrow) := getTodayAndTomorrowUTC now in
  let dates := [today; tomorrow] in
  match fetch_dates dates [] with
  | inl err => inl err
  | inr allSlots => inr (GoSort.Slice byTimestamp allSlots)
  end.

End Fetch.

(** ** Package [strings] *)

(** [strings.HasPrefix]: [len(s) >= len(prefix) && s[:len(prefix)] == prefix] *)
Definition HasPrefix (s prefix : string) : bool :=
  (String.length prefix <=? String.length s)%nat &&
  String.eqb (substring 0 (String.length prefix) s) prefix.

(** [strings.HasSuffix]: [len(s) >= len(suffix) && s[len(s)-len(suffix):] == suffix] *)
Definition HasSuffix (s suffix : string) : bool :=
  (String.length suffix <=? String.length s)%nat &&
  String.eqb
    (substring (String.length s - String.length suffix) (String.length suffix) s) suffix.

(** ** Package [textchart]: color tags *)

(** The loop of [stripTags], over the bytes of [s] that are left. *)
Fixpoint stripTags_loop (inside : bool) (s : string) : string :=
  match s with
  | EmptyString => EmptyString
  | String c rest =>
      if Ascii.eqb c "["%char then stripTags_loop true rest
      else if inside && Ascii.eqb c "]"%char then stripTags_loop false rest
      else if inside then stripTags_loop inside rest
      else String c (stripTags_loop inside rest)
  end.

Definition stripTags (s : string) : string := stripTags_loop false s.

Definition colorize (s : string) (colorize : bool) : string :=
  if negb colorize then stripTags s else s.

Definition wrap (s color : string) (colorize : bool) : string :=
  if colorize && negb (String.eqb color EmptyString)
  then (color ++ s ++ "[-:-:-]")%string
  else s.

(** ** Commands [serve] and [proxy] *)

Definition singleSlashJoin (a b : string) : string :=
  let aslash := HasSuffix a "/" in
  let bslash := HasPrefix b "/" in
  if aslash && bslash then (a ++ substring 1 (String.length b - 1) b)%string
  else if negb aslash && negb bslash then (a ++ "/" ++ b)%string
  else (a ++ b)%string.

(** ** Package [syscall/js] and the parameters of the web front end *)

(** A JavaScript value as [js.Value] tells them apart by [Type()]; a number
    is a finite [float64]. *)
Inductive jsValue : Type :=
  | JSUndefined
  | JSNull
  | JSBoolean (b : bool)
  | JSNumber (f : Q)
  | JSString (s : string)
  | JSSymbol
  | JSObject
  | JSFunction.

Section WebParams.

(** JavaScript's own rendering [String(v)] of a boolean or a number. *)
Variable jsString : jsValue -> string.

(** [v.String()]: the string itself, or a description in angle brackets
    for a value of another type. *)
Definition Value_String (v : jsValue) : string :=
  match v with
  | JSString s => s
  | JSUndefined => "<undefined>"
  | JSNull => "<null>"
  | JSBoolean _ => "<boolean: " ++ jsString v ++ ">"
  | JSNumber _ => "<number: " ++ jsString v ++ ">"
  | JSSymbol => "<symbol>"
  | JSObject => "<object>"
  | JSFunction => "<function>"
  end%string.

(** [v.Float()] panics when [v] is not a number. *)
Definition Value_Float (v : jsValue) : outcome Q :=
  match v with
  | JSNumber f => Returned f
  | _ => Panicked
  end.

(** The properties of the object [in := args[0]]: [in.Get(key)], which is
    [undefined] for a property the object does not have. *)
Variable in_Get : string -> jsValue.

Definition toString (key def : string) : string :=
  let v := in_Get key in
  match v with
  | JSUndefined | JSNull => def
  | _ =>
      let s := Value_String v in
      if String.eqb s EmptyString then def else s
  end.

Definition toFloat (key : string) (def : Q) : outcome Q :=
  let v := in_Get key in
  match v with
  | JSUndefined | JSNull => Returned def
  | _ =>
      let* f := Value_Float v in
      if Qeq_bool f 0 then Returned def else Returned f
  end.

(** The parameters and the base URL that [planPromise] reads from its
    argument. *)
Definition planPromise_params : outcome (BatteryStrategyParams * string) :=
  let area := toString "area" "LV" in
  let market := toString "market" "DayAhead" in
  let currency := toString "currency" "EUR" in
  let* maxChargeHours := toFloat "maxChargeHours" 3 in
  let* maxDischargeHours := toFloat "maxDischargeHours" 3 in
  let* lastPriceCharged := toFloat "lastPriceCharged" 15 in
  let* epsilon := toFloat "epsilon" 2 in
  let params :=
    {| Area := area;
       Market := market;
       Currency := currency;
       MaxChargeHours := maxChargeHours;
       MaxDischargeHours := maxDischargeHours;
       LastPriceCharged := lastPriceCharged;
       Epsilon := epsilon |} in
  let baseURL :=
    toString "baseURL" "https://dataportal-api.nordpoolgroup.com/api/DayAheadPrices" in
  Returned (params, baseURL).

End WebParams.

(** ** The service worker ([web/sw.js]) *)

(** JavaScript time values are milliseconds since the epoch. *)
Definition msPerDay : Z := 86400000.

(** A JavaScript number that is an integer or NaN ([None]). *)
Definition number : Type := option Z.

(** [TimeClip]: a time more than 8.64e15 ms from the epoch is NaN. *)
Definition TimeClip (t : Z) : number :=
  if Z.abs t <=? 8640000000000000 then Some t else None.

(** [Date.UTC(year, month, date, hours, minutes, seconds, ms)], for a month
    from 0 to 11: a year from 0 to 99 stands for [1900 + year], and [date]
    counts on from the first of the month, also past its end. *)
Definition Date_UTC (year month date hours minutes seconds ms : Z) : number :=
  let year := if (0 <=? year) && (year <=? 99) then 1900 + year else year in
  TimeClip ((days_from_civil year (month + 1) 1 + (date - 1)) * msPerDay +
            hours * 3600000 + minutes * 60000 + seconds * 1000 + ms).

(** [x <= y] on a number and a time value: false on NaN. *)
Definition number_le (x : number) (y : Z) : bool :=
  match x with Some x => x <=? y | None => false end.

(** [Math.min(x, y)]: NaN as soon as one of them is. *)
Definition Math_min (x y : number) : number :=
  match x, y with Some x, Some y => Some (Z.min x y) | _, _ => None end.

(** [t.getUTCFullYear()], [t.getUTCMonth()] (from 0), [t.getUTCDate()] *)
Definition getUTCFullYear (t : Z) : Z := fst (fst (civil_from_days (t / msPerDay))).
Definition getUTCMonth (t : Z) : Z := snd (fst (civil_from_days (t / msPerDay))) - 1.
Definition getUTCDate (t : Z) : Z := snd (civil_from_days (t / msPerDay)).

(** [nextExpiry(now)], on the time value of a valid date [now]. *)
Definition nextExpiry (now : Z) : number :=
  let y := getUTCFullYear now in
  let m := getUTCMonth now in
  let d := getUTCDate now in
  let publish := Date_UTC y m d 12 30 0 0 in
  let publish :=
    if number_le publish now then Date_UTC y m (d + 1) 12 30 0 0 else publish in
  let midnight := Date_UTC y m (d + 1) 0 30 0 0 in
  Math_min publish midnight.

(** ** Further inputs to run the functions on *)

(** Slots handed over newest first: 02:00, 01:00, 00:00. *)
Definition descending_day : list PriceSlot := [hourly 2 10; hourly 1 12; hourly 0 9].

(** A reference price of 5 with a margin of 2. *)
Definition narrow_params : BatteryStrategyParams :=
  mkParams "LV"%string 3 3 5 2 "DayAhead"%string "EUR"%string.

(** A parser that knows one timestamp, and a feed that answers every date
    with one entry for that timestamp, at 100 EUR/MWh in area LV. *)
Definition example_parse (s : string) : option Time :=
  if String.eqb s "1970-01-01T00:00:00Z" then Some 0 else None.

Definition example_exchange (_ : Time) : exchange :=
  Response 200
    (Document [mkEntry "1970-01-01T00:00:00Z"
                 (fun area => if String.eqb area "LV" then Some 100%Q else None)]).

(** An object without properties. *)
Definition no_properties (_ : string) : jsValue := JSUndefined.

(** ** Notions the specification is stated with *)

(** The statistical median of a list of values in increasing order: the
    middle value for an odd count, the average of the two middle values for
    an even count. *)
Definition statistical_median (sorted : list Q) : Q :=
  let n := length sorted in
  if Nat.even n
  then ((nth (n / 2 - 1) sorted 0 + nth (n / 2) sorted 0) / 2)%Q
  else nth (n / 2)%nat sorted 0%Q.

(** [cur] comes exactly one step after [prev]. *)
Definition follows (step : Duration) (prev cur : PriceSlot) : Prop :=
  Timestamp cur = Add (Timestamp prev) step.

(** A run: one slot or more, each exactly one step after the one before. *)
Inductive run (step : Duration) : list PriceSlot -> Prop :=
  | run_single s : run step [s]
  | run_cons s s' l : follows step s s' -> run step (s' :: l) -> run step (s :: s' :: l).

(** [maximal_runs step slots runs]: [runs] cuts [slots] into runs, none of
    which could go on into the next one. *)
Inductive maximal_runs (step : Duration) : list PriceSlot -> list (list PriceSlot) -> Prop :=
  | runs_nil : maximal_runs step [] []
  | runs_last r : run step r -> maximal_runs step r [r]
  | runs_cons r r' rs slots :
      run step r ->
      maximal_runs step slots (r' :: rs) ->
      (forall s s', last r = Some s -> head r' = Some s' -> ~ follows step s s') ->
      maximal_runs step (r ++ slots) (r :: r' :: rs).

(** Slots in chronological order (equal timestamps allowed). *)
Definition chronological (slots : list PriceSlot) : Prop :=
  Sorted (fun x y => Timestamp x <= Timestamp y) slots.

(** The arithmetic mean. *)
Definition mean (values : list Q) : Q :=
  (fold_right Qplus 0 values / inject_Z (Z.of_nat (length values)))%Q.

(** The interval [iv] summarizes the run [r]: from the first timestamp to
    one step after the last, with the mean of the prices. *)
Definition summarizes (format : Time -> string) (step : Duration)
    (iv : IntervalJSON) (r : list PriceSlot) : Prop :=
  exists first final,
    head r = Some first /\ last r = Some final /\
    Start iv = format (Timestamp first) /\
    End_ iv = format (Add (Timestamp final) step) /\
    (AvgPrice iv == mean (List.map Price r))%Q.

(** [test prev cur] holds of every two consecutive slots. *)
Fixpoint consecutive_all (test : PriceSlot -> PriceSlot -> bool) (slots : list PriceSlot)
    : bool :=
  match slots with
  | prev :: rest =>
      match rest with
      | cur :: _ => test prev cur && consecutive_all test rest
      | [] => true
      end
  | [] => true
  end.

(** Consecutive slots are [k] minutes apart, as [Time.Sub] measures it. *)
Definition spaced (k : Z) (prices : list PriceSlot) : Prop :=
  forall i prev cur,
    prices !! i = Some prev -> prices !! S i = Some cur ->
    Sub (Timestamp cur) (Timestamp prev) = k * Minute.

(** ** Notions the further properties are stated with *)

(** The gaps between consecutive slots, as [Time.Sub] measures them. *)
Fixpoint gaps (prices : list PriceSlot) : list Duration :=
  match prices with
  | prev :: rest =>
      match rest with
      | cur :: _ => Sub (Timestamp cur) (Timestamp prev) :: gaps rest
      | [] => []
      end
  | [] => []
  end.

(** The byte [c] occurs in [s]. *)
Fixpoint occurs (c : ascii) (s : string) : bool :=
  match s with
  | EmptyString => false
  | String c' rest => Ascii.eqb c' c || occurs c rest
  end.

(** The slot that an entry of a response stands for, if any. *)
Definition slot_of_entry (parse : string -> option Time) (area : string)
    (entry : multiAreaEntry) : option PriceSlot :=
  match parse (DeliveryStart entry), EntryPerArea entry area with
  | Some ts, Some price => Some (mkPriceSlot ts (price / 10))
  | _, _ => None
  end.

(** The entries that a usable response for a date holds: none for an empty
    body; no usable response otherwise. *)
Definition entries_of (e : exchange) : option (list multiAreaEntry) :=
  match e with
  | Response status body =>
      if status <? 300 then
        match body with
        | EmptyBody => Some []
        | Document entries => Some entries
        | Malformed => None
        end
      else None
  | _ => None
  end.

(** A value that [toFloat] can read. *)
Definition absent_or_number (v : jsValue) : Prop :=
  match v with
  | JSUndefined | JSNull | JSNumber _ => True
  | _ => False
  end.

(** The civil date of a day of the 400-year cycle gives that day back. *)
Definition cycle_day_ok (doe : Z) : bool :=
  let yoe := (doe - doe / 1460 + doe / 36524 - doe / 146096) / 365 in
  let doy := doe - (365 * yoe + yoe / 4 - yoe / 100) in
  let mp := (5 * doy + 2) / 153 in
  let d := doy - (153 * mp + 2) / 5 + 1 in
  let m := if mp <? 10 then mp + 3 else mp - 9 in
  let mp' := if 2 <? m then m - 3 else m + 9 in
  let doy' := (153 * mp' + 2) / 5 + d - 1 in
  (0 <=? yoe) && (yoe <=? 399) &&
  (yoe * 365 + yoe / 4 - yoe / 100 + doy' =? doe) &&
  (1 <=? m) && (m <=? 12) && (1 <=? d) && (d <=? 31).

(** All days from [lo] up to [lo + 2^k], as far as they are in the cycle. *)
Fixpoint cycle_range_ok (k : nat) (lo : Z) : bool :=
  match k with
  | O => (146097 <=? lo) || cycle_day_ok lo
  | S k' => cycle_range_ok k' lo && cycle_range_ok k' (lo + 2 ^ Z.of_nat k')
  end.

(** What it is for [sort.Slice] to have sorted a range of a slice. *)
Section SortNotions.
Context {A : Type} (less : A -> A -> bool).

(** The elements at positions [a <= i < j < b] are in order. *)
Definition sorted_range (a b : nat) (d : list A) : Prop :=
  forall i j x y, (a <= i)%nat -> (i < j)%nat -> (j < b)%nat ->
    d !! i = Some x -> d !! j = Some y -> less y x = false.

(** [d'] differs from [d] inside [a, b) only, and what it holds there was
    there in [d]. *)
Definition within (a b : nat) (d d' : list A) : Prop :=
  length d' = length d /\
  (forall k, (k < a \/ b <= k)%nat -> d' !! k = d !! k) /\
  (forall k x, (a <= k < b)%nat -> d' !! k = Some x ->
     exists k', (a <= k' < b)%nat /\ d !! k' = Some x).

(** The element just before position [a], if there is one, is not after
    any element of [a, b). *)
Definition bounded_below (a b : nat) (d : list A) : Prop :=
  a = 0%nat \/
  exists x, d !! (a - 1)%nat = Some x /\
    forall k y, (a <= k < b)%nat -> d !! k = Some y -> less y x = false.

(** A strict weak order: what [sort.Slice] asks of its [less]. *)
Record strict_weak_order : Prop := {
  less_irrefl : forall x, less x x = false;
  less_trans : forall x y z, less x y = true -> less y z = true -> less x z = true;
  less_negtrans : forall x y z, less x y = false -> less y z = false -> less x z = false
}.

Local Open Scope nat_scope.

(** What the scans of the two partitions know about the range: the
    elements examined so far from the left pass [left], those examined from
    the right do not. *)
Definition split_at (left : A -> bool) (a b i j : nat) (d : list A) : Prop :=
  (forall k x, a < k < i -> d !! k = Some x -> left x = true) /\
  (forall k x, j < k < b -> d !! k = Some x -> left x = false).

(** [c] is a child of [p] in the implicit binary tree. *)
Definition child_of (p c : nat) : Prop := c = 2 * p + 1 \/ c = 2 * p + 2.

(** From node [lo] on, no node of the heap at [first + [0, hi)] is less than
    one of its children. *)
Definition heap_from (first lo hi : nat) (d : list A) : Prop :=
  forall p c x y, lo <= p -> child_of p c -> c < hi ->
    d !! (first + p) = Some x -> d !! (first + c) = Some y -> less x y = false.

(** The heap property but for node [r], whose children are however not
    above its parent. *)
Definition heap_but (first lo hi r : nat) (d : list A) : Prop :=
  (forall p c x y, lo <= p -> p <> r -> child_of p c -> c < hi ->
     d !! (first + p) = Some x -> d !! (first + c) = Some y -> less x y = false) /\
  (forall g c x y, lo <= g -> child_of g r -> child_of r c -> c < hi ->
     d !! (first + g) = Some x -> d !! (first + c) = Some y -> less x y = false).

End SortNotions.

(** * Properties *)

(** ** [sort.Slice]: length, termination *)

Section GoSortFacts.
Local Open Scope nat_scope.
Context {A : Type} (less : A -> A -> bool).
Import GoSort.

Lemma length_Swap (data : list A) i j : length (Swap data i j) = length data.
Proof.
  unfold Swap. destruct (data !! i), (data !! j); trivial.
  now rewrite !length_insert.
Qed.

Lemma length_insertion_shift (data : list A) a j :
  length (insertion_shift less data a j) = length data.
Proof.
  revert data. induction j as [|j IH]; intros data; simpl; trivial.
  destruct (_ && _); trivial. now rewrite IH, length_Swap.
Qed.

Lemma length_insertion_loop n (data : list A) a i :
  length (insertion_loop less n data a i) = length data.
Proof.
  revert data i. induction n as [|n IH]; intros data i; simpl; trivial.
  now rewrite IH, length_insertion_shift.
Qed.

Lemma length_insertionSort (data : list A) a b :
  length (insertionSort_func less data a b) = length data.
Proof. apply length_insertion_loop. Qed.

Lemma length_siftDown_loop n (data : list A) root hi first :
  length (siftDown_loop less n data root hi first) = length data.
Proof.
  revert data root. induction n as [|n IH]; intros data root; simpl; trivial.
  destruct (hi <=? _); trivial.
  destruct (negb _); trivial. now rewrite IH, length_Swap.
Qed.

Lemma length_heap_build_loop n (data : list A) hi first :
  length (heap_build_loop less n data hi first) = length data.
Proof.
  revert data. induction n as [|n IH]; intros data; simpl; trivial.
  rewrite IH. apply length_siftDown_loop.
Qed.

Lemma length_heap_pop_loop n (data : list A) first :
  length (heap_pop_loop less n data first) = length data.
Proof.
  revert data. induction n as [|n IH]; intros data; simpl; trivial.
  rewrite IH. unfold siftDown_func. now rewrite length_siftDown_loop, length_Swap.
Qed.

Lemma length_heapSort (data : list A) a b :
  length (heapSort_func less data a b) = length data.
Proof.
  unfold heapSort_func. now rewrite length_heap_pop_loop, length_heap_build_loop.
Qed.

Lemma length_reverse_loop n (data : list A) i j :
  length (reverse_loop n data i j) = length data.
Proof.
  revert data i j. induction n as [|n IH]; intros data i j; simpl; trivial.
  destruct (i <? j); trivial. now rewrite IH, length_Swap.
Qed.

Lemma length_breakPatterns_loop n (data : list A) random modulus len a idx i :
  length (breakPatterns_loop n data random modulus len a idx i) = length data.
Proof.
  revert data random i. induction n as [|n IH]; intros data random i; simpl; trivial.
  now rewrite IH, length_Swap.
Qed.

Lemma length_breakPatterns (data : list A) a b :
  length (breakPatterns_func data a b) = length data.
Proof.
  unfold breakPatterns_func. destruct (8 <=? _); trivial.
  apply length_breakPatterns_loop.
Qed.

Lemma length_partition_loop n (data : list A) a i j :
  length (fst (partition_loop less n data a i j)) = length data.
Proof.
  revert data i j. induction n as [|n IH]; intros data i j; simpl; trivial.
  destruct (_ <? _); trivial. now rewrite IH, length_Swap.
Qed.

Lemma length_partition (data : list A) a b pivot :
  length (fst (fst (partition_func less data a b pivot))) = length data.
Proof.
  unfold partition_func. destruct (_ <? _); simpl.
  - now rewrite !length_Swap.
  - match goal with |- context [partition_loop less ?n ?d ?x ?y ?z] =>
      pose proof (length_partition_loop n d x y z) as H;
      destruct (partition_loop less n d x y z) as [d' j'] end.
    simpl in *. now rewrite length_Swap, H, !length_Swap.
Qed.

Lemma length_partitionEqual_loop n (data : list A) a i j :
  length (fst (partitionEqual_loop less n data a i j)) = length data.
Proof.
  revert data i j. induction n as [|n IH]; intros data i j; simpl; trivial.
  destruct (_ <? _); trivial. now rewrite IH, length_Swap.
Qed.

Lemma length_partitionEqual (data : list A) a b pivot :
  length (fst (partitionEqual_func less data a b pivot)) = length data.
Proof.
  unfold partitionEqual_func. now rewrite length_partitionEqual_loop, length_Swap.
Qed.

Lemma length_shift_left (data : list A) j :
  length (shift_left less data j) = length data.
Proof.
  revert data. induction j as [|j IH]; intros data; simpl; trivial.
  destruct (negb _); trivial. now rewrite IH, length_Swap.
Qed.

Lemma length_shift_right n (data : list A) j b :
  length (shift_right less n data j b) = length data.
Proof.
  revert data j. induction n as [|n IH]; intros data j; simpl; trivial.
  destruct (j <? b); trivial. destruct (negb _); trivial.
  now rewrite IH, length_Swap.
Qed.

Lemma length_partialInsertion_loop steps (data : list A) a b i :
  length (fst (partialInsertion_loop less steps data a b i)) = length data.
Proof.
  revert data i. induction steps as [|n IH]; intros data i; simpl; trivial.
  set (i' := scan_ordered less (b - i) data i b).
  destruct (i' =? b); trivial. destruct (b - a <? shortestShifting); trivial.
  rewrite IH.
  repeat match goal with |- context [if ?c then _ else _] => destruct c end;
    now rewrite ?length_shift_right, ?length_shift_left, ?length_Swap.
Qed.

Lemma length_pdqsort fuel : forall (data data' : list A) a b limit wb wp,
  pdqsort_func less fuel data a b limit wb wp = Some data' ->
  length data' = length data.
Proof.
  induction fuel as [|fuel IH]; intros data data' a b limit wb wp; simpl; [discriminate|].
  destruct (b - a <=? maxInsertion).
  { intros [= <-]. apply length_insertionSort. }
  destruct (limit =? 0).
  { intros [= <-]. apply length_heapSort. }
  set (d1 := if negb wb then (breakPatterns_func data a b, limit - 1) else (data, limit)).
  assert (H1 : length (fst d1) = length data).
  { subst d1. destruct (negb wb); simpl; trivial. apply length_breakPatterns. }
  destruct d1 as [data1 limit1]; simpl in H1.
  destruct (choosePivot_func less data1 a b) as [pivot hint].
  set (d2 := match hint with
             | decreasingHint => (reverseRange_func data1 a b, b - 1 - (pivot - a), increasingHint)
             | _ => (data1, pivot, hint) end).
  assert (H2 : length (fst (fst d2)) = length data).
  { subst d2. destruct hint; simpl; trivial.
    unfold reverseRange_func. now rewrite length_reverse_loop. }
  destruct d2 as [[data2 pivot2] hint2]; simpl in H2.
  set (d3 := match hint2 with
             | increasingHint =>
                 if wb && wp then partialInsertionSort_func less data2 a b else (data2, false)
             | _ => (data2, false) end).
  assert (H3 : length (fst d3) = length data).
  { subst d3. destruct hint2; simpl; trivial. destruct (wb && wp); simpl; trivial.
    unfold partialInsertionSort_func. now rewrite length_partialInsertion_loop. }
  destruct d3 as [data3 sorted]; simpl in H3.
  destruct sorted.
  { now intros [= <-]. }
  destruct (_ && _).
  - pose proof (length_partitionEqual data3 a b pivot2) as H4.
    destruct (partitionEqual_func less data3 a b pivot2) as [data4 mid]; simpl in H4.
    intros H. apply IH in H. congruence.
  - pose proof (length_partition data3 a b pivot2) as H4.
    destruct (partition_func less data3 a b pivot2) as [[data4 mid] ap]; simpl in H4.
    destruct (_ <? _).
    + destruct (pdqsort_func less fuel data4 a mid limit1 true true) as [data5|] eqn:E5;
        [|discriminate].
      apply IH in E5. intros H. apply IH in H. congruence.
    + destruct (pdqsort_func less fuel data4 (mid + 1) b limit1 true true) as [data5|] eqn:E5;
        [|discriminate].
      apply IH in E5. intros H. apply IH in H. congruence.
Qed.

Lemma length_Slice (data : list A) : length (Slice less data) = length data.
Proof.
  unfold Slice.
  destruct (pdqsort_func _ _ _ _ _ _ _ _) as [d|] eqn:E; simpl; trivial.
  now apply length_pdqsort in E.
Qed.

(** The pivot position returned by a partition lies inside the range, so
    both the loop and the recursive call of [pdqsort_func] shrink it. *)
Lemma scan_up_bounds n ok i j :
  i <= scan_up n ok i j /\ (scan_up n ok i j <= i \/ scan_up n ok i j <= S j).
Proof.
  revert i. induction n as [|n IH]; intros i; simpl; [lia|].
  destruct (i <=? j) eqn:E; simpl; [|lia].
  destruct (ok i); [|lia].
  apply Nat.leb_le in E. specialize (IH (S i)). lia.
Qed.

Lemma scan_down_bounds n ok i j :
  scan_down n ok i j <= j /\ (j <= scan_down n ok i j \/ i <= S (scan_down n ok i j)).
Proof.
  revert j. induction n as [|n IH]; intros j; simpl; [lia|].
  destruct (i <=? j) eqn:E; simpl; [|lia].
  destruct (ok j); [|lia].
  apply Nat.leb_le in E. specialize (IH (j - 1)). lia.
Qed.

Lemma partition_loop_bounds n (data : list A) a b i j :
  a < i -> a <= j -> j < b ->
  a <= snd (partition_loop less n data a i j) < b.
Proof.
  revert data i j. induction n as [|n IH]; intros data i j Hi Hj Hb; simpl; [lia|].
  set (i' := scan_up (S j - i) _ i j).
  set (j' := scan_down (S j - i') _ i' j).
  pose proof (scan_up_bounds (S j - i) (fun i => Less less data i a) i j) as Hu.
  pose proof (scan_down_bounds (S j - i') (fun j => negb (Less less data j a)) i' j) as Hd.
  fold i' in Hu. fold j' in Hd.
  destruct (j' <? i') eqn:E; simpl; [lia|].
  apply Nat.ltb_ge in E. apply IH; lia.
Qed.

Lemma partition_bounds (data : list A) a b pivot :
  a < b -> a <= snd (fst (partition_func less data a b pivot)) < b.
Proof.
  intros Hab. unfold partition_func.
  set (d := Swap data a pivot).
  set (i' := scan_up (S (b - 1) - (a + 1)) _ (a + 1) (b - 1)).
  set (j' := scan_down (S (b - 1) - i') _ i' (b - 1)).
  pose proof (scan_up_bounds (S (b - 1) - (a + 1)) (fun i => Less less d i a) (a + 1) (b - 1)) as Hu.
  pose proof (scan_down_bounds (S (b - 1) - i') (fun j => negb (Less less d j a)) i' (b - 1)) as Hd.
  fold i' in Hu. fold j' in Hd.
  destruct (j' <? i') eqn:E; simpl; [lia|].
  apply Nat.ltb_ge in E.
  pose proof (partition_loop_bounds (S j' - i') (Swap d i' j') a b (S i') (j' - 1)) as Hl.
  destruct (partition_loop less (S j' - i') (Swap d i' j') a (S i') (j' - 1)) as [d' j''].
  simpl in *. apply Hl; lia.
Qed.

Lemma partitionEqual_loop_bounds n (data : list A) a b i j :
  a < i -> i <= b -> j < b ->
  a < snd (partitionEqual_loop less n data a i j) <= b.
Proof.
  revert data i j. induction n as [|n IH]; intros data i j Hi Hib Hj; simpl; [lia|].
  set (i' := scan_up (S j - i) _ i j).
  set (j' := scan_down (S j - i') _ i' j).
  pose proof (scan_up_bounds (S j - i) (fun i => negb (Less less data a i)) i j) as Hu.
  pose proof (scan_down_bounds (S j - i') (fun j => Less less data a j) i' j) as Hd.
  fold i' in Hu. fold j' in Hd.
  destruct (j' <? i') eqn:E; simpl; [lia|].
  apply Nat.ltb_ge in E. apply IH; lia.
Qed.

Lemma partitionEqual_bounds (data : list A) a b pivot :
  a < b -> a < snd (partitionEqual_func less data a b pivot) <= b.
Proof.
  intros Hab. unfold partitionEqual_func. apply partitionEqual_loop_bounds; lia.
Qed.

(** [pdqsort_func] returns as soon as the fuel exceeds the length of the
    range. *)
Lemma pdqsort_fuel fuel : forall (data : list A) a b limit wb wp,
  b - a < fuel ->
  exists data', pdqsort_func less fuel data a b limit wb wp = Some data'.
Proof.
  induction fuel as [|fuel IH]; intros data a b limit wb wp Hf; [lia|]. simpl.
  destruct (b - a <=? maxInsertion) eqn:Hlen; [eauto|].
  apply Nat.leb_gt in Hlen. unfold maxInsertion in Hlen.
  destruct (limit =? 0); [eauto|].
  destruct (if negb wb then _ else _) as [data1 limit1].
  destruct (choosePivot_func less data1 a b) as [pivot hint].
  destruct (match hint with decreasingHint => _ | _ => _ end) as [[data2 pivot2] hint2].
  destruct (match hint2 with increasingHint => _ | _ => _ end) as [data3 sorted].
  destruct sorted; [eauto|].
  destruct (_ && _).
  - pose proof (partitionEqual_bounds data3 a b pivot2) as Hb.
    destruct (partitionEqual_func less data3 a b pivot2) as [data4 mid]; simpl in Hb.
    apply IH. lia.
  - pose proof (partition_bounds data3 a b pivot2) as Hb.
    destruct (partition_func less data3 a b pivot2) as [[data4 mid] ap]; simpl in Hb.
    destruct (_ <? _).
    + destruct (IH data4 a mid limit1 true true) as [data5 ->]; [lia|].
      apply IH. lia.
    + destruct (IH data4 (mid + 1) b limit1 true true) as [data5 ->]; [lia|].
      apply IH. lia.
Qed.

(** [sort.Slice] always returns: the fuel it is given is enough. *)
Lemma Slice_returns (data : list A) :
  pdqsort_func less (S (length data)) data 0 (length data)
    (bits_Len (length data)) true true = Some (Slice less data).
Proof.
  unfold Slice.
  destruct (pdqsort_fuel (S (length data)) data 0 (length data)
              (bits_Len (length data)) true true) as [d ->]; [lia|].
  reflexivity.
Qed.

(** *** A slice that is already in order is left as it is *)

Lemma Less_ordered (data : list A) i j :
  ordered less data -> i < j -> Less less data j i = false.
Proof.
  intros Ho Hij. unfold Less.
  destruct (data !! j) as [y|] eqn:Ej; trivial.
  destruct (data !! i) as [x|] eqn:Ei; trivial.
  eapply Ho; eauto.
Qed.

Lemma insertion_shift_ordered (data : list A) a j :
  ordered less data -> insertion_shift less data a j = data.
Proof.
  intros Ho. destruct j as [|j]; simpl; trivial.
  rewrite (Less_ordered data j (S j)) by (trivial; lia).
  now rewrite andb_false_r.
Qed.

Lemma insertion_loop_ordered n (data : list A) a i :
  ordered less data -> insertion_loop less n data a i = data.
Proof.
  intros Ho. revert i. induction n as [|n IH]; intros i; simpl; trivial.
  now rewrite insertion_shift_ordered, IH.
Qed.

Lemma order2_ordered (data : list A) a b swaps :
  ordered less data -> a < b -> order2_func less data a b swaps = (a, b, swaps).
Proof. intros Ho Hab. unfold order2_func. now rewrite Less_ordered. Qed.

Lemma median_ordered (data : list A) a b c swaps :
  ordered less data -> a < b -> b < c -> median_func less data a b c swaps = (b, swaps).
Proof.
  intros Ho Hab Hbc. unfold median_func.
  now rewrite !order2_ordered.
Qed.

Lemma choosePivot_ordered (data : list A) a b :
  ordered less data -> snd (choosePivot_func less data a b) = increasingHint.
Proof.
  intros Ho. unfold choosePivot_func.
  destruct (8 <=? b - a) eqn:E8; [|reflexivity].
  apply Nat.leb_le in E8.
  assert (2 <= (b - a) / 4) by (apply Nat.div_le_lower_bound; lia).
  destruct (shortestNinther <=? b - a).
  - unfold medianAdjacent_func.
    rewrite !median_ordered by (trivial; lia).
    reflexivity.
  - rewrite median_ordered by (trivial; lia). reflexivity.
Qed.

Lemma scan_ordered_all n (data : list A) i b :
  ordered less data -> 1 <= i -> n = b - i -> i <= b -> scan_ordered less n data i b = b.
Proof.
  intros Ho. revert i. induction n as [|n IH]; intros i Hi Hn Hb; simpl; [lia|].
  assert ((i <? b) = true) as -> by (apply Nat.ltb_lt; lia).
  rewrite (Less_ordered data (i - 1) i) by (trivial; lia). simpl.
  apply IH; lia.
Qed.

Lemma partialInsertion_ordered steps (data : list A) a b :
  ordered less data -> a + 1 <= b ->
  partialInsertion_loop less (S steps) data a b (a + 1) = (data, true).
Proof.
  intros Ho Hab. cbn [partialInsertion_loop].
  rewrite scan_ordered_all by (trivial; lia).
  now rewrite Nat.eqb_refl.
Qed.

Lemma pdqsort_ordered fuel (data : list A) b limit :
  ordered less data ->
  pdqsort_func less (S fuel) data 0 b limit true true = Some data \/
  (maxInsertion < b /\ limit = 0).
Proof.
  intros Ho. cbn [pdqsort_func]. rewrite Nat.sub_0_r.
  destruct (b <=? maxInsertion) eqn:E.
  { left. unfold insertionSort_func. now rewrite insertion_loop_ordered. }
  apply Nat.leb_gt in E.
  destruct (limit =? 0) eqn:El.
  { right. apply Nat.eqb_eq in El. now split. }
  left. cbn [negb].
  pose proof (choosePivot_ordered data 0 b Ho) as Hp.
  destruct (choosePivot_func less data 0 b) as [pivot hint].
  cbn [snd] in Hp. subst hint. cbn [andb].
  unfold partialInsertionSort_func, maxSteps.
  rewrite partialInsertion_ordered; trivial.
  unfold maxInsertion in E. lia.
Qed.

Theorem Slice_ordered (data : list A) : ordered less data -> Slice less data = data.
Proof.
  intros Ho. unfold Slice.
  destruct (pdqsort_ordered (length data) data (length data)
              (bits_Len (length data)) Ho) as [-> | [Hlen Hlim]]; trivial.
  exfalso. unfold bits_Len, maxInsertion in *.
  destruct (length data); [lia|discriminate].
Qed.

(** *** Up to 12 elements [sort.Slice] is an insertion sort, which keeps
    the order of elements that are not less than one another *)

Lemma Slice_small (data : list A) :
  length data <= maxInsertion ->
  Slice less data = insertionSort_func less data 0 (length data).
Proof.
  intros H. unfold Slice. cbn [pdqsort_func]. rewrite Nat.sub_0_r.
  apply Nat.leb_le in H. now rewrite H.
Qed.

Lemma Swap_adjacent (data : list A) j x y :
  data !! j = Some y -> data !! S j = Some x ->
  data = take j data ++ y :: x :: drop (S (S j)) data /\
  Swap data (S j) j = take j data ++ x :: y :: drop (S (S j)) data.
Proof.
  revert j. induction data as [|h t IH]; intros j Hy Hx; [discriminate|].
  destruct j as [|j].
  - simpl in Hy. injection Hy as ->.
    destruct t as [|x' t']; [discriminate|]. simpl in Hx. injection Hx as ->.
    split; reflexivity.
  - simpl in Hy, Hx. destruct (IH j Hy Hx) as [H1 H2].
    split.
    + simpl. f_equal. exact H1.
    + unfold Swap in *. simpl. rewrite Hx, Hy in *. simpl. f_equal. exact H2.
Qed.

Section Stable.
Variable f : A -> bool.
Hypothesis less_separates : forall x y, less x y = true -> f x = true -> f y = true -> False.

Lemma filter_insertion_shift (data : list A) a j :
  List.filter f (insertion_shift less data a j) = List.filter f data.
Proof.
  revert data. induction j as [|j IH]; intros data; simpl; trivial.
  destruct (a <? S j); simpl; trivial.
  destruct (Less less data (S j) j) eqn:E; trivial.
  rewrite IH. unfold Less in E.
  destruct (data !! S j) as [x|] eqn:Ex; [|discriminate].
  destruct (data !! j) as [y|] eqn:Ey; [|discriminate].
  destruct (Swap_adjacent data j x y Ey Ex) as [H1 H2].
  rewrite H2. rewrite H1 at 3.
  rewrite !List.filter_app. f_equal. simpl.
  destruct (f x) eqn:Fx, (f y) eqn:Fy; trivial.
  exfalso. eapply less_separates; eauto.
Qed.

Lemma filter_insertion_loop n (data : list A) a i :
  List.filter f (insertion_loop less n data a i) = List.filter f data.
Proof.
  revert data i. induction n as [|n IH]; intros data i; simpl; trivial.
  now rewrite IH, filter_insertion_shift.
Qed.

Lemma filter_Slice_small (data : list A) :
  length data <= maxInsertion ->
  List.filter f (Slice less data) = List.filter f data.
Proof.
  intros H. rewrite Slice_small by trivial. apply filter_insertion_loop.
Qed.
End Stable.

End GoSortFacts.

(** ** The planner: loops as filters, truncation, float conversion *)

Lemma foldl_append_filter {A} (f : A -> bool) (l acc : list A) :
  foldl (fun acc x => if f x then acc ++ [x] else acc) acc l = acc ++ List.filter f l.
Proof.
  revert acc. induction l as [|x l IH]; intros acc; simpl.
  - now rewrite app_nil_r.
  - rewrite IH. destruct (f x); trivial. now rewrite <- app_assoc.
Qed.

Lemma future_slots_filter prices now :
  future_slots prices now = List.filter (fun p => now <=? Timestamp p) prices.
Proof.
  unfold future_slots.
  rewrite (foldl_append_filter (fun p => negb (Before (Timestamp p) now))). simpl.
  apply List.filter_ext. intros p. unfold Before. now rewrite Z.leb_antisym.
Qed.

Lemma future_slots_In prices now s :
  In s (future_slots prices now) <-> In s prices /\ now <= Timestamp s.
Proof.
  rewrite future_slots_filter, filter_In. now rewrite Z.leb_le.
Qed.

Lemma candidates_filter params future :
  candidates params future =
  (List.filter (fun s => Qle_bool (Epsilon params) (LastPriceCharged params - Price s)) future,
   List.filter (fun s => Qle_bool (dischargeThreshold params) (Price s)) future).
Proof.
  unfold candidates.
  enough (forall cc dc,
    foldl (fun '(chargeCandidates, dischargeCandidates) s =>
             let chargeCandidates :=
               if Qle_bool (Epsilon params) (LastPriceCharged params - Price s)
               then chargeCandidates ++ [s] else chargeCandidates in
             let dischargeCandidates :=
               if Qle_bool (dischargeThreshold params) (Price s)
               then dischargeCandidates ++ [s] else dischargeCandidates in
             (chargeCandidates, dischargeCandidates)) (cc, dc) future =
    (cc ++ List.filter (fun s => Qle_bool (Epsilon params) (LastPriceCharged params - Price s)) future,
     dc ++ List.filter (fun s => Qle_bool (dischargeThreshold params) (Price s)) future))
    as H by apply (H [] []).
  induction future as [|s l IH]; intros cc dc; simpl.
  - now rewrite !app_nil_r.
  - rewrite IH.
    destruct (Qle_bool (Epsilon params) _), (Qle_bool (dischargeThreshold params) _);
      now rewrite <- ?app_assoc.
Qed.

Lemma dischargeThreshold_min params :
  dischargeThreshold params = Qmin (LastPriceCharged params + Epsilon params) 8.
Proof.
  unfold dischargeThreshold, Qlt_bool, Qmin, GenericMinMax.gmin.
  set (t := (LastPriceCharged params + Epsilon params)%Q).
  destruct (Qle_bool t 8) eqn:E; simpl.
  - apply Qle_bool_iff in E. apply (proj1 (Qle_alt _ _)) in E.
    destruct (t ?= 8)%Q eqn:C; congruence.
  - destruct (t ?= 8)%Q eqn:C; trivial;
      exfalso;
      assert (Qle_bool t 8 = true) by (apply Qle_bool_iff; apply (proj2 (Qle_alt _ _)); congruence);
      congruence.
Qed.

Lemma truncate_length c max c' :
  truncate c max = Returned c' -> Z.of_nat (length c') <= max.
Proof.
  unfold truncate. destruct (max <? Z.of_nat (length c)) eqn:E.
  - destruct (max <? 0) eqn:E0; [discriminate|]. intros [= <-].
    apply Z.ltb_ge in E0. rewrite length_take. lia.
  - intros [= <-]. now apply Z.ltb_ge in E.
Qed.

(** The slice expression [c[:max]] is where the builder can panic. *)
Lemma truncate_panics c max : truncate c max = Panicked <-> max < 0.
Proof.
  unfold truncate. destruct (max <? Z.of_nat (length c)) eqn:E.
  - destruct (max <? 0) eqn:E0.
    + apply Z.ltb_lt in E0. tauto.
    + apply Z.ltb_ge in E0. split; [discriminate|lia].
  - apply Z.ltb_ge in E. split; [discriminate|lia].
Qed.

Lemma truncate_nil max c' : truncate [] max = Returned c' -> c' = [].
Proof.
  unfold truncate. change (Z.of_nat (length (@nil PriceSlot))) with 0.
  destruct (max <? 0); [discriminate|]. now intros [= <-].
Qed.

Lemma inject_Z_eq_0 z : Qeq_bool (inject_Z z) 0 = (z =? 0).
Proof.
  destruct (z =? 0) eqn:E.
  - apply Z.eqb_eq in E. now subst.
  - apply Z.eqb_neq in E. destruct (Qeq_bool (inject_Z z) 0) eqn:Q; trivial.
    apply Qeq_bool_iff in Q. unfold Qeq in Q. simpl in Q. lia.
Qed.

Lemma Qtrunc_inject_Z z : Qtrunc (inject_Z z) = z.
Proof. unfold Qtrunc. simpl. apply Z.quot_1_r. Qed.

(** ** Time and float arithmetic *)

Lemma Sub_range t u : minDuration <= Sub t u <= maxDuration.
Proof.
  unfold Sub, minDuration, maxDuration, minInt64, maxInt64.
  destruct (t - u <? - 2 ^ 63) eqn:E1; [lia|].
  destruct (2 ^ 63 - 1 <? t - u) eqn:E2; [lia|].
  apply Z.ltb_ge in E1, E2. lia.
Qed.

Lemma Sub_exact t u :
  minDuration <= t - u <= maxDuration -> Sub t u = t - u.
Proof.
  unfold Sub. intros [H1 H2].
  apply Z.ltb_ge in H1, H2. now rewrite H1, H2.
Qed.

Lemma Minutes_exact d : (Minutes d == inject_Z d * (1 # 60000000000))%Q.
Proof.
  unfold Minutes. rewrite (Z.quot_rem' d Minute) at 3.
  rewrite inject_Z_plus, inject_Z_mult.
  change (inject_Z Minute) with (inject_Z 60000000000).
  set (q := inject_Z (Z.quot d Minute)). set (r := inject_Z (Z.rem d Minute)).
  field.
Qed.

Lemma Minutes_le d1 d2 : d1 <= d2 -> (Minutes d1 <= Minutes d2)%Q.
Proof.
  intros H. rewrite !Minutes_exact. rewrite Zle_Qle in H. lra.
Qed.

Lemma Minutes_minute (k : Z) : (Minutes (k * Minute)%Z == inject_Z k)%Q.
Proof.
  rewrite Minutes_exact, inject_Z_mult.
  change (inject_Z Minute) with (inject_Z 60000000000).
  set (x := inject_Z k). field.
Qed.

Lemma Round_cases q :
  exists z, Round q = inject_Z z /\
    (inject_Z z - (1 # 2) <= q <= inject_Z z + (1 # 2))%Q /\
    ((0 <= q)%Q -> (q < inject_Z z + (1 # 2))%Q) /\
    ((q < 0)%Q -> (inject_Z z - (1 # 2) < q)%Q).
Proof.
  unfold Round. destruct (Qle_bool 0 q) eqn:E.
  - apply Qle_bool_iff in E. exists (Qfloor (q + (1 # 2))).
    pose proof (Qfloor_le (q + (1 # 2))) as H1.
    pose proof (Qlt_floor (q + (1 # 2))) as H2.
    rewrite inject_Z_plus in H2. change (inject_Z 1) with 1%Q in H2.
    repeat split; intros; lra.
  - assert (q < 0)%Q as Hq.
    { apply Qnot_le_lt. intros H. apply Qle_bool_iff in H. congruence. }
    exists (Qceiling (q - (1 # 2))).
    pose proof (Qle_ceiling (q - (1 # 2))) as H1.
    pose proof (Qceiling_lt (q - (1 # 2))) as H2.
    unfold Z.sub in H2. rewrite inject_Z_plus in H2.
    change (inject_Z (Z.opp 1)) with (-1 # 1)%Q in H2.
    repeat split; intros; lra.
Qed.

Lemma inject_Z_le_half a b : (inject_Z a <= inject_Z b + (1 # 2))%Q -> a <= b.
Proof.
  intros H. enough (a < b + 1) by lia.
  rewrite Zlt_Qlt, inject_Z_plus. change (inject_Z 1) with 1%Q. lra.
Qed.

Lemma Round_bounds q (a b : Z) z :
  (inject_Z a <= q <= inject_Z b)%Q -> Round q = inject_Z z -> a <= z <= b.
Proof.
  intros [Ha Hb] Hz. destruct (Round_cases q) as (z' & Hz' & [H1 H2] & _).
  assert (z' = z) as ->.
  { rewrite Hz in Hz'. injection Hz' as ->. reflexivity. }
  split; apply inject_Z_le_half; lra.
Qed.

Lemma Round_half q z : ((1 # 2) <= q)%Q -> Round q = inject_Z z -> 1 <= z.
Proof.
  intros Hq Hz. destruct (Round_cases q) as (z' & Hz' & _ & H3 & _).
  assert (z' = z) as ->.
  { rewrite Hz in Hz'. injection Hz' as ->. reflexivity. }
  enough (0 < z) by lia. rewrite Zlt_Qlt. change (inject_Z 0) with 0%Q.
  assert (0 <= q)%Q by lra. specialize (H3 H). lra.
Qed.

Lemma Round_comp q1 q2 : (q1 == q2)%Q -> Round q1 = Round q2.
Proof.
  intros H. unfold Round. rewrite H. destruct (Qle_bool 0 q2); now rewrite H.
Qed.

(** ** [sort.Float64s] *)

Lemma insert_float64_Permutation x l : Permutation (insert_float64 x l) (x :: l).
Proof.
  induction l as [|y l IH]; simpl; trivial.
  destruct (Qle_bool x y); trivial.
  rewrite IH. apply perm_swap.
Qed.

Lemma Float64s_Permutation l : Permutation (Float64s l) l.
Proof.
  induction l as [|x l IH]; simpl; trivial.
  rewrite insert_float64_Permutation. now constructor.
Qed.

Lemma insert_float64_Sorted x l : Sorted Qle l -> Sorted Qle (insert_float64 x l).
Proof.
  induction 1 as [|y l Hs IH Hd]; simpl.
  - repeat constructor.
  - destruct (Qle_bool x y) eqn:E.
    + apply Qle_bool_iff in E. repeat constructor; trivial.
    + assert (y <= x)%Q as Hyx.
      { apply Qlt_le_weak, Qnot_le_lt. intros H. apply Qle_bool_iff in H. congruence. }
      constructor; trivial.
      destruct Hd as [|z l Hz]; simpl.
      * now constructor.
      * destruct (Qle_bool x z); now constructor.
Qed.

Lemma Float64s_Sorted l : Sorted Qle (Float64s l).
Proof.
  induction l as [|x l IH]; simpl; [constructor|]. now apply insert_float64_Sorted.
Qed.

Lemma Float64s_length l : length (Float64s l) = length l.
Proof. apply Permutation_length, Float64s_Permutation. Qed.

Lemma Float64s_Forall (P : Q -> Prop) l : Forall P l -> Forall P (Float64s l).
Proof. intros H. eapply Permutation_Forall; [symmetry; apply Float64s_Permutation|trivial]. Qed.

(** Two increasing arrangements of the same values agree position by
    position (as rationals), whatever fractions denote the values. *)
Definition Qle_reduced (x y : Q) : Prop := Qred x = x /\ Qred y = y /\ (x <= y)%Q.

Lemma Qle_reduced_Transitive : Transitive Qle_reduced.
Proof.
  intros x y z (Hx & _ & Hxy) (_ & Hz & Hyz). repeat split; trivial.
  eapply Qle_trans; eauto.
Qed.

Lemma Qle_reduced_AntiSymm : AntiSymm eq Qle_reduced.
Proof.
  intros x y (Hx & Hy & Hxy) (_ & _ & Hyx).
  rewrite <- Hx, <- Hy. apply Qred_complete. now apply Qle_antisym.
Qed.

Lemma Sorted_map_Qred l : Sorted Qle l -> Sorted Qle_reduced (List.map Qred l).
Proof.
  induction 1 as [|x l Hs IH Hd]; simpl; constructor; trivial.
  destruct Hd as [|y l Hy]; simpl; constructor.
  split; [apply Qcanon.Qred_involutive|].
  split; [apply Qcanon.Qred_involutive|]. now apply Qred_le.
Qed.

Lemma Sorted_Permutation_nth (l1 l2 : list Q) i :
  Sorted Qle l1 -> Sorted Qle l2 -> Permutation l1 l2 ->
  (nth i l1 0 == nth i l2 0)%Q.
Proof.
  intros H1 H2 HP.
  assert (List.map Qred l1 = List.map Qred l2) as E.
  { apply (@Sorted_unique _ Qle_reduced Qle_reduced_Transitive Qle_reduced_AntiSymm).
    - now apply Sorted_map_Qred.
    - now apply Sorted_map_Qred.
    - now apply Permutation_map. }
  apply (f_equal (fun l => nth i l (Qred 0))) in E.
  rewrite !(map_nth Qred) in E.
  rewrite <- (Qred_correct (nth i l1 0%Q)), <- (Qred_correct (nth i l2 0%Q)).
  now rewrite E.
Qed.

(** ** The median *)

Lemma even_mod2 n : Nat.even n = (n mod 2 =? 0)%nat.
Proof.
  destruct (Nat.even n) eqn:E.
  - apply Nat.even_spec in E. destruct E as [m ->]. symmetry. apply Nat.eqb_eq.
    rewrite Nat.mul_comm. apply Nat.Div0.mod_mul.
  - assert (Nat.odd n = true) as O by (unfold Nat.odd; now rewrite E).
    apply Nat.odd_spec in O. destruct O as [m ->]. symmetry. apply Nat.eqb_neq.
    rewrite Nat.add_comm, (Nat.mul_comm 2 m), Nat.Div0.mod_add. discriminate.
Qed.

Lemma statistical_median_comp l1 l2 :
  length l1 = length l2 ->
  (forall i, nth i l1 0 == nth i l2 0)%Q ->
  (statistical_median l1 == statistical_median l2)%Q.
Proof.
  intros Hl Hn. unfold statistical_median. rewrite Hl.
  destruct (Nat.even (length l2)); now rewrite ?Hn.
Qed.

Lemma statistical_median_bounds (a b : Q) l :
  l <> [] -> Forall (fun q => a <= q <= b)%Q l ->
  (a <= statistical_median l <= b)%Q.
Proof.
  intros Hne HF.
  assert (forall i, (i < length l)%nat -> (a <= nth i l 0 <= b)%Q) as Hn.
  { intros i Hi. rewrite List.Forall_forall in HF. apply HF. now apply nth_In. }
  assert (0 < length l)%nat as Hlen by (destruct l; [congruence|simpl; lia]).
  unfold statistical_median.
  assert (length l / 2 < length l)%nat as H1 by (apply Nat.div_lt; lia).
  pose proof (Hn _ H1) as B1.
  assert (length l / 2 - 1 < length l)%nat as H2 by lia.
  pose proof (Hn _ H2) as B2.
  destruct (Nat.even (length l)); [|exact B1].
  set (x := nth (length l / 2 - 1)%nat l 0%Q) in *.
  set (y := nth (length l / 2)%nat l 0%Q) in *.
  split.
  - apply Qle_shift_div_l; lra.
  - apply Qle_shift_div_r; lra.
Qed.

(** ** Resolution inference *)

Lemma minute_deltas_length prices :
  length (minute_deltas prices) = (length prices - 1)%nat.
Proof.
  induction prices as [|prev rest IH]; trivial.
  destruct rest as [|cur rest]; trivial.
  change (minute_deltas (prev :: cur :: rest))
    with (Minutes (Sub (Timestamp cur) (Timestamp prev)) :: minute_deltas (cur :: rest)).
  simpl length in *. lia.
Qed.

Lemma minute_deltas_Forall (P : Q -> Prop) prices :
  (forall i prev cur,
      prices !! i = Some prev -> prices !! S i = Some cur ->
      P (Minutes (Sub (Timestamp cur) (Timestamp prev)))) ->
  Forall P (minute_deltas prices).
Proof.
  induction prices as [|prev rest IH]; intros H; [constructor|].
  destruct rest as [|cur rest]; [constructor|].
  change (minute_deltas (prev :: cur :: rest))
    with (Minutes (Sub (Timestamp cur) (Timestamp prev)) :: minute_deltas (cur :: rest)).
  constructor.
  - now apply (H 0%nat).
  - apply IH. intros i p c Hp Hc. now apply (H (S i)).
Qed.

Lemma Minutes_range d :
  minDuration <= d <= maxDuration ->
  (inject_Z (-153722868) <= Minutes d <= inject_Z 153722868)%Q.
Proof.
  intros [H1 H2]. apply Minutes_le in H1, H2.
  assert (inject_Z (-153722868) <= Minutes minDuration)%Q by (now vm_compute).
  assert (Minutes maxDuration <= inject_Z 153722868)%Q by (now vm_compute).
  split; eapply Qle_trans; eauto.
Qed.

Lemma minute_deltas_range prices :
  Forall (fun q => inject_Z (-153722868) <= q <= inject_Z 153722868)%Q
    (minute_deltas prices).
Proof.
  apply minute_deltas_Forall. intros. apply Minutes_range, Sub_range.
Qed.

(** ** Grouping into intervals *)

Lemma resolution_step_range r : minDuration <= resolution_step r < maxDuration.
Proof.
  unfold resolution_step, wrap_int64, minDuration, maxDuration, minInt64, maxInt64, Minute, Second.
  pose proof (Z.mod_pos_bound (r * (60 * 1000000000) + 2 ^ 63) (2 ^ 64) ltac:(lia)) as Hb.
  pose proof (Z.div_mod (r * (60 * 1000000000) + 2 ^ 63) (2 ^ 64) ltac:(lia)) as Hd.
  lia.
Qed.

Lemma resolution_step_exact r :
  minDuration <= r * Minute <= maxDuration -> resolution_step r = r * Minute.
Proof.
  unfold resolution_step, wrap_int64, minDuration, maxDuration, minInt64, maxInt64.
  intros H. rewrite Z.mod_small by lia. lia.
Qed.

(** On slots in chronological order the test [cur.Sub(prev) == step] of the
    code says that [cur] is exactly one step after [prev]. *)
Lemma Sub_eqb_follows step prev cur :
  step < maxDuration -> Timestamp prev <= Timestamp cur ->
  (Sub (Timestamp cur) (Timestamp prev) =? step) = true <-> follows step prev cur.
Proof.
  intros Hs Ht. unfold follows, Add, Sub. rewrite Z.eqb_eq.
  unfold minDuration, maxDuration, minInt64, maxInt64 in *.
  destruct (Timestamp cur - Timestamp prev <? - 2 ^ 63) eqn:E1.
  { apply Z.ltb_lt in E1. lia. }
  destruct (2 ^ 63 - 1 <? Timestamp cur - Timestamp prev) eqn:E2.
  { apply Z.ltb_lt in E2. lia. }
  lia.
Qed.

Lemma chronological_ordered slots :
  chronological slots -> GoSort.ordered byTimestamp slots.
Proof.
  intros H. apply Sorted_StronglySorted in H; [|intros x y z; lia].
  induction H as [|s l Hs IH Hf]; intros i j x y Hij Hx Hy; [discriminate|].
  unfold byTimestamp, Before. apply Z.ltb_ge.
  destruct j as [|j]; [lia|]. simpl in Hy.
  destruct i as [|i].
  - simpl in Hx. injection Hx as <-.
    rewrite List.Forall_forall in Hf. apply Hf.
    apply list_elem_of_In. eapply list_elem_of_lookup_2; eauto.
  - simpl in Hx. specialize (IH i j x y ltac:(lia) Hx Hy).
    unfold byTimestamp, Before in IH. now apply Z.ltb_ge in IH.
Qed.

Lemma run_snoc step g prev cur :
  run step g -> last g = Some prev -> follows step prev cur -> run step (g ++ [cur]).
Proof.
  induction 1 as [s|s s' l Hf Hr IH]; simpl; intros Hl Hc.
  - injection Hl as ->. constructor; [trivial|constructor].
  - constructor; trivial. apply IH; trivial.
Qed.

Lemma run_nonempty step g : run step g -> g <> [].
Proof. now destruct 1. Qed.

Lemma maximal_runs_head step slots r rs s :
  maximal_runs step slots (r :: rs) -> head slots = Some s -> head r = Some s.
Proof.
  inversion 1; subst; trivial.
  match goal with H : run step r |- _ => destruct H end; simpl; trivial.
Qed.

Lemma maximal_runs_snoc_nonempty step slots G g :
  maximal_runs step slots (G ++ [g]) -> exists r rs, G ++ [g] = r :: rs.
Proof. destruct G; simpl; eauto. Qed.

Lemma group_loop_runs step :
  step < maxDuration ->
  forall rest prev groups g,
    chronological (prev :: rest) ->
    run step g -> last g = Some prev ->
    exists G final,
      group_loop step prev rest groups g = (groups ++ G, final) /\
      maximal_runs step (g ++ rest) (G ++ [final]).
Proof.
  intros Hstep. induction rest as [|cur rest IH]; intros prev groups g Hc Hr Hl.
  - exists [], g. simpl. rewrite !app_nil_r. split; trivial. now constructor.
  - apply Sorted_inv in Hc. destruct Hc as [Hc Hd].
    apply HdRel_inv in Hd.
    cbn [group_loop].
    destruct (Sub (Timestamp cur) (Timestamp prev) =? step) eqn:E.
    + apply Sub_eqb_follows in E; trivial.
      destruct (IH cur groups (g ++ [cur])) as (G & final & HG & HM); trivial.
      * eapply run_snoc; eauto.
      * now rewrite last_snoc.
      * exists G, final. split; trivial.
        now rewrite <- app_assoc in HM.
    + destruct (IH cur (groups ++ [g]) [cur]) as (G & final & HG & HM); trivial.
      * constructor.
      * exists (g :: G), final. split.
        { now rewrite HG, <- app_assoc. }
        simpl in HM |- *.
        destruct (maximal_runs_snoc_nonempty _ _ _ _ HM) as (r & rs & HGr).
        rewrite HGr in HM |- *.
        apply runs_cons; trivial.
        intros s s' Hs Hs' Hf.
        rewrite Hl in Hs. injection Hs as <-.
        rewrite (maximal_runs_head _ _ _ _ cur HM eq_refl) in Hs'. injection Hs' as <-.
        apply Sub_eqb_follows in Hf; trivial. congruence.
Qed.

Lemma foldl_sum_prices (g : list PriceSlot) (a : Q) :
  (foldl (fun sum s => sum + Price s) a g == a + fold_right Qplus 0 (List.map Price g))%Q.
Proof.
  revert a. induction g as [|s g IH]; intros a; simpl.
  - ring.
  - rewrite IH. ring.
Qed.

Lemma last_List_last {A} (l : list A) (d : A) : l <> [] -> last l = Some (List.last l d).
Proof.
  induction l as [|x l IH]; [congruence|]. intros _.
  destruct l as [|y l]; trivial.
  change (last (x :: y :: l)) with (last (y :: l)).
  change (List.last (x :: y :: l) d) with (List.last (y :: l) d).
  now apply IH.
Qed.

Lemma maximal_runs_Forall step slots runs :
  maximal_runs step slots runs -> Forall (run step) runs.
Proof. induction 1; repeat constructor; trivial. now inversion IHmaximal_runs. 
  now inversion IHmaximal_runs. Qed.

Lemma maximal_runs_concat step slots runs :
  maximal_runs step slots runs -> concat runs = slots.
Proof.
  induction 1; simpl; trivial.
  - now rewrite app_nil_r.
  - simpl in IHmaximal_runs. now rewrite IHmaximal_runs.
Qed.

(** ** Ranking and truncation *)

Lemma truncate_take c max c' :
  truncate c max = Returned c' -> exists n, c' = take n c.
Proof.
  unfold truncate. destruct (max <? Z.of_nat (length c)).
  - destruct (max <? 0); [discriminate|]. intros [= <-]. eauto.
  - intros [= <-]. exists (length c). now rewrite firstn_all.
Qed.

Lemma filter_take {A} (f : A -> bool) n (l : list A) :
  exists k, List.filter f (take n l) = take k (List.filter f l).
Proof.
  revert n. induction l as [|x l IH]; intros n.
  - exists 0%nat. now destruct n.
  - destruct n as [|n]; [now exists 0%nat|].
    destruct (IH n) as [k Hk]. simpl. destruct (f x).
    + exists (S k). simpl. now rewrite Hk.
    + now exists k.
Qed.

Lemma same_price_not_less price x y :
  Qlt_bool (Price x) (Price y) = true ->
  Qeq_bool (Price x) price = true -> Qeq_bool (Price y) price = true -> False.
Proof.
  unfold Qlt_bool. intros Hlt Hx Hy.
  apply Qeq_bool_iff in Hx, Hy.
  assert (Qle_bool (Price y) (Price x) = true) as H.
  { apply Qle_bool_iff. rewrite Hx, Hy. apply Qle_refl. }
  rewrite H in Hlt. discriminate.
Qed.

Section PlannerFacts.

Variable formatRFC3339 : Time -> string.
Variable int_of_unrepresentable : float64 -> Z.

Local Abbreviation Build := (BuildBatterySchedule formatRFC3339 int_of_unrepresentable).
Local Abbreviation infer := (inferResolutionMinutes int_of_unrepresentable).
Local Abbreviation slots_for := (slotsForHours int_of_unrepresentable).
Local Abbreviation group := (groupConsecutiveSlots formatRFC3339).
Local Abbreviation to_int := (int_of_float64 int_of_unrepresentable).

Lemma int_of_integer z : in_int64 z = true -> to_int (Finite (inject_Z z)) = z.
Proof. intros H. unfold int_of_float64. now rewrite Qtrunc_inject_Z, H. Qed.

(** Where the quotient is finite and its ceiling fits [int], the slot
    budget is the mathematical ceiling. *)
Lemma slotsForHours_ceiling maxHours resolution :
  resolution <> 0 ->
  in_int64 (Qceiling (maxHours * 60 / inject_Z resolution)) = true ->
  slots_for maxHours resolution = Qceiling (maxHours * 60 / inject_Z resolution).
Proof.
  intros Hr Hi. unfold slotsForHours, fdiv.
  rewrite inject_Z_eq_0. apply Z.eqb_neq in Hr. rewrite Hr. simpl.
  now apply int_of_integer.
Qed.

Lemma group_slots slots resolution :
  snd (group slots resolution) =
  match slots with [] => [] | _ => GoSort.Slice byTimestamp slots end.
Proof.
  destruct slots as [|s slots]; trivial. unfold groupConsecutiveSlots.
  destruct (GoSort.Slice byTimestamp (s :: slots)) as [|first rest]; trivial.
  now destruct (group_loop _ _ _ _ _).
Qed.

Lemma group_slots_length slots resolution :
  length (snd (group slots resolution)) = length slots.
Proof.
  rewrite group_slots. destruct slots; trivial. apply length_Slice.
Qed.

Lemma group_nil resolution : group [] resolution = (SNil, []).
Proof. reflexivity. Qed.

(** The builder on a non-empty future, stage by stage. *)
Lemma Build_future prices params now :
  future_slots prices now <> [] ->
  Build prices params now =
  let future := future_slots prices now in
  let resolution := infer future in
  let* chargeCandidates := selectCharge int_of_unrepresentable params future resolution in
  let* dischargeCandidates := selectDischarge int_of_unrepresentable params future resolution in
  let chargeCandidates := GoSort.Slice byTimestamp chargeCandidates in
  let dischargeCandidates := GoSort.Slice byTimestamp dischargeCandidates in
  Returned {| sched_Area := Area params;
              sched_LastPriceCharged := LastPriceCharged params;
              sched_Epsilon := Epsilon params;
              ResolutionMinutes := Some resolution;
              ChargeSlots := toSlotJSON formatRFC3339 (snd (group chargeCandidates resolution));
              DischargeSlots := toSlotJSON formatRFC3339 (snd (group dischargeCandidates resolution));
              ChargeIntervals := fst (group chargeCandidates resolution);
              DischargeIntervals := fst (group dischargeCandidates resolution) |}.
Proof.
  intros Hf. unfold BuildBatterySchedule.
  destruct (future_slots prices now) as [|p future] eqn:E; [congruence|]. simpl.
  destruct (selectCharge _ _ _ _) as [cc|]; simpl; trivial.
  destruct (selectDischarge _ _ _ _) as [dc|]; simpl; trivial.
  destruct (group (GoSort.Slice byTimestamp cc) _) as [ci cs].
  now destruct (group (GoSort.Slice byTimestamp dc) _) as [di ds].
Qed.

(** The builder panics exactly when one of the two slot budgets is negative. *)
Lemma Build_panics_iff prices params now :
  future_slots prices now <> [] ->
  let resolution := infer (future_slots prices now) in
  Build prices params now = Panicked <->
  slots_for (MaxChargeHours params) resolution < 0 \/
  slots_for (MaxDischargeHours params) resolution < 0.
Proof.
  intros Hf resolution. rewrite Build_future by trivial. cbv zeta.
  fold resolution. unfold selectCharge, selectDischarge.
  rewrite <- (truncate_panics
    (GoSort.Slice byPriceAscending (fst (candidates params (future_slots prices now))))).
  rewrite <- (truncate_panics
    (GoSort.Slice byPriceDescending (snd (candidates params (future_slots prices now))))).
  destruct (truncate _ (slots_for (MaxChargeHours params) resolution)); simpl.
  - destruct (truncate _ (slots_for (MaxDischargeHours params) resolution)); simpl.
    + split; [discriminate|]. intros [?|?]; discriminate.
    + tauto.
  - tauto.
Qed.

(** *** Resolution inference *)

Lemma infer_short prices : (length prices < 2)%nat -> infer prices = 60.
Proof.
  intros H. unfold inferResolutionMinutes. apply Nat.ltb_lt in H. now rewrite H.
Qed.

Lemma infer_unfold prices :
  (2 <= length prices)%nat ->
  infer prices =
  to_int (Finite (Round (statistical_median (Float64s (minute_deltas prices))))).
Proof.
  intros H. unfold inferResolutionMinutes.
  destruct (length prices <? 2)%nat eqn:E; [apply Nat.ltb_lt in E; lia|].
  unfold statistical_median. now rewrite even_mod2.
Qed.

Lemma sorted_deltas_nonempty prices :
  (2 <= length prices)%nat -> Float64s (minute_deltas prices) <> [].
Proof.
  intros H E. apply (f_equal length) in E.
  rewrite Float64s_length, minute_deltas_length in E. simpl in E. lia.
Qed.

(** The conversion to [int] is exact: the median of the deltas is within
    the range of [time.Duration] counted in minutes. *)
Lemma infer_Round prices :
  (2 <= length prices)%nat ->
  Round (statistical_median (Float64s (minute_deltas prices))) = inject_Z (infer prices).
Proof.
  intros H. rewrite infer_unfold by trivial.
  set (m := statistical_median (Float64s (minute_deltas prices))).
  destruct (Round_cases m) as (z & Hz & _).
  assert (-153722868 <= z <= 153722868) as Hr.
  { apply (Round_bounds m); trivial.
    apply statistical_median_bounds.
    - now apply sorted_deltas_nonempty.
    - apply Float64s_Forall, minute_deltas_range. }
  rewrite Hz. unfold int_of_float64. rewrite Qtrunc_inject_Z.
  assert (in_int64 z = true) as ->; trivial.
  unfold in_int64, minInt64, maxInt64.
  apply andb_true_intro. split; apply Z.leb_le; lia.
Qed.

Lemma infer_bounds prices (a b : Z) :
  (2 <= length prices)%nat ->
  (forall i prev cur,
      prices !! i = Some prev -> prices !! S i = Some cur ->
      (inject_Z a <= Minutes (Sub (Timestamp cur) (Timestamp prev)) <= inject_Z b)%Q) ->
  a <= infer prices <= b.
Proof.
  intros H Hgap.
  apply (Round_bounds (statistical_median (Float64s (minute_deltas prices)))).
  - apply statistical_median_bounds.
    + now apply sorted_deltas_nonempty.
    + now apply Float64s_Forall, minute_deltas_Forall.
  - now apply infer_Round.
Qed.


(** *** Interval grouping *)

Lemma interval_of_group_summarizes step r :
  r <> [] ->
  exists iv, interval_of_group formatRFC3339 step r = Some iv /\
             summarizes formatRFC3339 step iv r.
Proof.
  destruct r as [|first r]; [congruence|]. intros _.
  eexists. split; [reflexivity|].
  exists first, (List.last (first :: r) first).
  split; [reflexivity|]. split; [now apply last_List_last|].
  split; [reflexivity|]. split; [reflexivity|].
  cbn [AvgPrice]. unfold mean. rewrite foldl_sum_prices, length_map.
  now rewrite Qplus_0_l.
Qed.

Lemma intervals_loop_summarizes step runs :
  Forall (fun r => r <> []) runs ->
  Forall2 (summarizes formatRFC3339 step) (intervals_loop formatRFC3339 step runs) runs.
Proof.
  unfold intervals_loop.
  enough (forall acc,
    Forall (fun r => r <> []) runs ->
    exists ivs,
      foldl (fun intervals g =>
               match interval_of_group formatRFC3339 step g with
               | Some iv => intervals ++ [iv]
               | None => intervals
               end) acc runs = acc ++ ivs /\
      Forall2 (summarizes formatRFC3339 step) ivs runs) as H.
  { intros HF. destruct (H [] HF) as (ivs & -> & HF2). exact HF2. }
  induction runs as [|r runs IH]; intros acc HF.
  - exists []. simpl. rewrite app_nil_r. split; [trivial|constructor].
  - inversion HF as [|? ? Hr HF']; subst.
    destruct (interval_of_group_summarizes step r Hr) as (iv & Hiv & Hs).
    destruct (IH (acc ++ [iv]) HF') as (ivs & Hivs & HF2).
    exists (iv :: ivs). simpl. rewrite Hiv, Hivs, <- app_assoc. split; trivial.
    now constructor.
Qed.


(** *** Candidate classification *)


(** *** Slot budgets *)

(** The builder returns when neither slot budget is negative. *)
Lemma Build_returns prices params now :
  future_slots prices now <> [] ->
  let resolution := infer (future_slots prices now) in
  0 <= slots_for (MaxChargeHours params) resolution ->
  0 <= slots_for (MaxDischargeHours params) resolution ->
  exists sched, Build prices params now = Returned sched.
Proof.
  intros Hf resolution Hc Hd.
  destruct (Build prices params now) as [sched|] eqn:E; [now exists sched|].
  apply Build_panics_iff in E; trivial. fold resolution in E. lia.
Qed.

Lemma ceiling_budget_nonneg maxHours resolution :
  (0 <= maxHours)%Q -> 0 < resolution ->
  0 <= Qceiling (maxHours * 60 / inject_Z resolution).
Proof.
  intros Hh Hr. change 0 with (Qceiling 0). apply Qceiling_resp_le.
  apply Qmult_le_0_compat.
  - apply Qmult_le_0_compat; [trivial|discriminate].
  - apply Qinv_le_0_compat. change 0%Q with (inject_Z 0). rewrite <- Zle_Qle. lia.
Qed.


(** *** Panics and nil slices *)

(** C6.  On one future slot (resolution 60) and [maxChargeHours = -1] the
    slot budget is -1 and the builder panics in [chargeCandidates[:-1]]. *)
Theorem negative_budget_panics :
  forall area market currency,
    let params := mkParams area (-1) 3 15 2 market currency in
    future_slots [mkPriceSlot 0 10] 0 = [mkPriceSlot 0 10] /\
    inferResolutionMinutes int_of_unrepresentable [mkPriceSlot 0 10] = 60 /\
    slotsForHours int_of_unrepresentable (MaxChargeHours params) 60 = -1 /\
    BuildBatterySchedule formatRFC3339 int_of_unrepresentable
      [mkPriceSlot 0 10] params 0 = Panicked.
Proof. intros. repeat split; reflexivity. Qed.

(** A side whose slot list comes out empty gets the nil interval slice. *)
Lemma empty_slots_nil_intervals prices params now sched :
  future_slots prices now <> [] ->
  Build prices params now = Returned sched ->
  (elems_of (ChargeSlots sched) = [] -> ChargeIntervals sched = SNil) /\
  (elems_of (DischargeSlots sched) = [] -> DischargeIntervals sched = SNil).
Proof.
  intros Hf HB. rewrite Build_future in HB by trivial. cbv zeta in HB.
  destruct (selectCharge _ _ _ _) as [cc|] eqn:Ec; [|discriminate].
  destruct (selectDischarge _ _ _ _) as [dc|] eqn:Ed; [|discriminate].
  simpl in HB. injection HB as <-. simpl.
  split; intros H; apply (f_equal length) in H;
    rewrite length_map, group_slots_length in H;
    match type of H with length ?l = _ => destruct l; [reflexivity|discriminate] end.
Qed.

(** C7.  One future slot priced 14 with [lastPriceCharged = 15] and
    [epsilon = 2] is no charge candidate: the schedule has the empty
    charge slot list and the nil charge interval list. *)
Theorem empty_side_intervals_nil :
  forall area market currency,
    let params := mkParams area 3 3 15 2 market currency in
    fst (candidates params (future_slots [mkPriceSlot 0 14] 0)) = [] /\
    exists sched,
      Build [mkPriceSlot 0 14] params 0 = Returned sched /\
      ChargeSlots sched = SOf [] /\
      ChargeIntervals sched = SNil.
Proof.
  intros. split; [reflexivity|].
  eexists. split; [reflexivity|]. split; reflexivity.
Qed.

(** *** Empty future *)

(** C8.  The future filter keeps exactly the slots with
    [timestamp >= now], in order; when no slot is kept the builder returns
    the schedule with no resolution and four empty, non-nil lists. *)
Theorem empty_future_schedule :
  forall prices params now,
    future_slots prices now = List.filter (fun s => now <=? Timestamp s) prices /\
    (forall s, In s (future_slots prices now) <-> In s prices /\ now <= Timestamp s) /\
    ((forall s, In s prices -> Timestamp s < now) ->
     Build prices params now =
       Returned {| sched_Area := Area params;
                   sched_LastPriceCharged := LastPriceCharged params;
                   sched_Epsilon := Epsilon params;
                   ResolutionMinutes := None;
                   ChargeSlots := SOf [];
                   DischargeSlots := SOf [];
                   ChargeIntervals := SOf [];
                   DischargeIntervals := SOf [] |}).
Proof.
  intros prices params now.
  split; [apply future_slots_filter|]. split; [apply future_slots_In|].
  intros Hpast. unfold BuildBatterySchedule.
  assert (future_slots prices now = []) as ->; [|reflexivity].
  destruct (future_slots prices now) as [|s l] eqn:E; trivial.
  assert (In s (future_slots prices now)) as Hs by (rewrite E; now left).
  apply future_slots_In in Hs. destruct Hs as [Hs1 Hs2].
  apply Hpast in Hs1. lia.
Qed.

(** *** Identifiers *)

(** C9, as amended.  A returned schedule carries the area, the last price
    charged and epsilon of the parameters; market and currency have no
    field in it and do not influence it. *)
Theorem passthrough_area prices params now sched :
  BuildBatterySchedule formatRFC3339 int_of_unrepresentable prices params now =
    Returned sched ->
  sched_Area sched = Area params /\
  sched_LastPriceCharged sched = LastPriceCharged params /\
  sched_Epsilon sched = Epsilon params /\
  forall market currency,
    BuildBatterySchedule formatRFC3339 int_of_unrepresentable prices
      (mkParams (Area params) (MaxChargeHours params) (MaxDischargeHours params)
         (LastPriceCharged params) (Epsilon params) market currency) now =
    Returned sched.
Proof.
  intros HB. split; [|split; [|split]].
  1-3: unfold BuildBatterySchedule in HB;
    destruct (length (future_slots prices now) =? 0)%nat;
    [ injection HB as <-; reflexivity
    | destruct (selectCharge _ _ _ _); [|discriminate];
      destruct (selectDischarge _ _ _ _); [|discriminate]; simpl in HB;
      destruct (group _ _); destruct (group _ _);
      injection HB as <-; reflexivity ].
  intros market currency. destruct params. exact HB.
Qed.

(** *** Tie-break and resolution of a returned schedule *)


Lemma Build_resolution prices params now sched :
  future_slots prices now <> [] ->
  Build prices params now = Returned sched ->
  ResolutionMinutes sched = Some (infer (future_slots prices now)).
Proof.
  intros Hf HB. rewrite Build_future in HB by trivial. cbv zeta in HB.
  destruct (selectCharge _ _ _ _) as [cc|]; [|discriminate].
  destruct (selectDischarge _ _ _ _) as [dc|]; [|discriminate].
  simpl in HB. now injection HB as <-.
Qed.

Lemma infer_positive prices :
  (forall i prev cur,
      prices !! i = Some prev -> prices !! S i = Some cur ->
      30 * Second <= Sub (Timestamp cur) (Timestamp prev)) ->
  1 <= infer prices.
Proof.
  intros Hgap.
  destruct (Nat.lt_ge_cases (length prices) 2) as [Hl|Hl].
  { rewrite infer_short by trivial. lia. }
  apply (Round_half (statistical_median (Float64s (minute_deltas prices))));
    [|now apply infer_Round].
  apply (statistical_median_bounds (1 # 2) (inject_Z 153722868)).
  - now apply sorted_deltas_nonempty.
  - apply Float64s_Forall, minute_deltas_Forall. intros i prev cur Hp Hc.
    split; [|apply Minutes_range, Sub_range].
    apply (Qle_trans _ (Minutes (30 * Second))); [now vm_compute|].
    apply Minutes_le. eauto.
Qed.

End PlannerFacts.

(** ** The theorems at concrete inputs *)

Lemma consecutive_all_lookup test slots :
  consecutive_all test slots = true ->
  forall i prev cur,
    slots !! i = Some prev -> slots !! S i = Some cur -> test prev cur = true.
Proof.
  induction slots as [|p rest IH]; intros H i prev cur Hp Hc; [discriminate|].
  destruct rest as [|c rest]; [destruct i; discriminate|].
  cbn [consecutive_all] in H. apply andb_prop in H. destruct H as [H1 H2].
  destruct i as [|i].
  - cbn in Hp, Hc. now injection Hp as <-; injection Hc as <-.
  - apply (IH H2 i); trivial.
Qed.

Lemma example_day_gaps i prev cur :
  example_day !! i = Some prev -> example_day !! S i = Some cur ->
  60 * Minute <= Sub (Timestamp cur) (Timestamp prev).
Proof.
  intros Hp Hc. apply Z.leb_le.
  exact (consecutive_all_lookup
           (fun prev cur => 60 * Minute <=? Sub (Timestamp cur) (Timestamp prev))
           example_day eq_refl i prev cur Hp Hc).
Qed.



(** A concrete call of the builder returns; the schedule is found by
    evaluation. *)
Ltac returns_by_evaluation := eexists; vm_compute; reflexivity.
Ltac by_evaluation := vm_compute; first [reflexivity | discriminate].



Lemma empty_future_schedule_witness :
  (forall s, In s example_day -> Timestamp s < hours 6) /\
  BuildBatterySchedule utcRFC3339 indefinite_int example_day example_params (hours 6) =
    Returned {| sched_Area := "LV";
                sched_LastPriceCharged := 15;
                sched_Epsilon := 2;
                ResolutionMinutes := None;
                ChargeSlots := SOf [];
                DischargeSlots := SOf [];
                ChargeIntervals := SOf [];
                DischargeIntervals := SOf [] |}.
Proof.
  assert (forall s, In s example_day -> Timestamp s < hours 6) as Hpast.
  { intros s [<-|[<-|[<-|[<-|[]]]]]; reflexivity. }
  split; [exact Hpast|].
  exact (proj2 (proj2 (empty_future_schedule utcRFC3339 indefinite_int
                         example_day example_params (hours 6))) Hpast).
Defined.

Lemma passthrough_area_witness :
  exists sched,
    BuildBatterySchedule utcRFC3339 indefinite_int example_day example_params 0 =
      Returned sched /\
    sched_Area sched = "LV"%string /\
    BuildBatterySchedule utcRFC3339 indefinite_int example_day
      (mkParams "LV" 3 3 15 2 "Intraday" "SEK") 0 = Returned sched.
Proof.
  assert (exists sched,
             BuildBatterySchedule utcRFC3339 indefinite_int example_day example_params 0 =
             Returned sched) as [sched HB] by returns_by_evaluation.
  exists sched. split; [exact HB|].
  pose proof (passthrough_area utcRFC3339 indefinite_int example_day example_params 0 sched
                HB) as (H1 & _ & _ & H4).
  split; [exact H1|exact (H4 "Intraday"%string "SEK"%string)].
Defined.


(** ** Counterexamples *)


(** C9.  Two parameter sets that differ in market and currency only give
    the same schedule: nothing in the schedule tells them apart. *)
Lemma market_currency_counterexample :
  ~ (exists market_of currency_of : ScheduleJSON -> string,
       forall params sched,
         BuildBatterySchedule utcRFC3339 indefinite_int example_day params 0 =
           Returned sched ->
         market_of sched = Market params /\ currency_of sched = Currency params).
Proof.
  intros (market_of & currency_of & H).
  assert (exists sched,
             BuildBatterySchedule utcRFC3339 indefinite_int example_day example_params 0 =
             Returned sched) as [sched HB] by returns_by_evaluation.
  destruct (H example_params sched HB) as [H1 _].
  destruct (H (mkParams "LV" 3 3 15 2 "Intraday" "SEK") sched HB) as [H2 _].
  rewrite H1 in H2. discriminate H2.
Qed.


(** * Further properties *)

(** ** [sort.Slice] rearranges *)

Section GoSortPermutation.
Local Open Scope nat_scope.
Context {A : Type} (less : A -> A -> bool).
Import GoSort.

Lemma insert_Permutation_cons (l : list A) j x y :
  l !! j = Some y -> Permutation (y :: <[j:=x]> l) (x :: l).
Proof.
  revert j. induction l as [|a l IH]; intros [|j] H; simplify_eq/=.
  - apply perm_swap.
  - rewrite (perm_swap a y), (IH j H). apply perm_swap.
Qed.

Lemma Swap_Permutation (data : list A) i j : Permutation (Swap data i j) data.
Proof.
  unfold Swap.
  destruct (data !! i) as [x|] eqn:Ei; [|reflexivity].
  destruct (data !! j) as [y|] eqn:Ej; [|reflexivity].
  revert i j Ei Ej. induction data as [|a l IH]; intros [|i] [|j] Ei Ej; simplify_eq/=.
  - reflexivity.
  - now apply insert_Permutation_cons.
  - rewrite (insert_Permutation_cons l i y x Ei). reflexivity.
  - now rewrite IH.
Qed.

Lemma insertion_shift_Permutation (data : list A) a j :
  Permutation (insertion_shift less data a j) data.
Proof.
  revert data. induction j as [|j IH]; intros data; simpl; trivial.
  destruct (_ && _); trivial. now rewrite IH, Swap_Permutation.
Qed.

Lemma insertion_loop_Permutation n (data : list A) a i :
  Permutation (insertion_loop less n data a i) data.
Proof.
  revert data i. induction n as [|n IH]; intros data i; simpl; trivial.
  now rewrite IH, insertion_shift_Permutation.
Qed.

Lemma siftDown_loop_Permutation n (data : list A) root hi first :
  Permutation (siftDown_loop less n data root hi first) data.
Proof.
  revert data root. induction n as [|n IH]; intros data root; simpl; trivial.
  destruct (hi <=? _); trivial.
  destruct (negb _); trivial. now rewrite IH, Swap_Permutation.
Qed.

Lemma heap_build_loop_Permutation n (data : list A) hi first :
  Permutation (heap_build_loop less n data hi first) data.
Proof.
  revert data. induction n as [|n IH]; intros data; simpl; trivial.
  rewrite IH. apply siftDown_loop_Permutation.
Qed.

Lemma heap_pop_loop_Permutation n (data : list A) first :
  Permutation (heap_pop_loop less n data first) data.
Proof.
  revert data. induction n as [|n IH]; intros data; simpl; trivial.
  rewrite IH. unfold siftDown_func. now rewrite siftDown_loop_Permutation, Swap_Permutation.
Qed.

Lemma heapSort_Permutation (data : list A) a b :
  Permutation (heapSort_func less data a b) data.
Proof.
  unfold heapSort_func. now rewrite heap_pop_loop_Permutation, heap_build_loop_Permutation.
Qed.

Lemma reverse_loop_Permutation n (data : list A) i j :
  Permutation (reverse_loop n data i j) data.
Proof.
  revert data i j. induction n as [|n IH]; intros data i j; simpl; trivial.
  destruct (i <? j); trivial. now rewrite IH, Swap_Permutation.
Qed.

Lemma breakPatterns_loop_Permutation n (data : list A) random modulus len a idx i :
  Permutation (breakPatterns_loop n data random modulus len a idx i) data.
Proof.
  revert data random i. induction n as [|n IH]; intros data random i; simpl; trivial.
  now rewrite IH, Swap_Permutation.
Qed.

Lemma breakPatterns_Permutation (data : list A) a b :
  Permutation (breakPatterns_func data a b) data.
Proof.
  unfold breakPatterns_func. destruct (8 <=? _); trivial.
  apply breakPatterns_loop_Permutation.
Qed.

Lemma partition_loop_Permutation n (data : list A) a i j :
  Permutation (fst (partition_loop less n data a i j)) data.
Proof.
  revert data i j. induction n as [|n IH]; intros data i j; simpl; trivial.
  destruct (_ <? _); trivial. now rewrite IH, Swap_Permutation.
Qed.

Lemma partition_Permutation (data : list A) a b pivot :
  Permutation (fst (fst (partition_func less data a b pivot))) data.
Proof.
  unfold partition_func. destruct (_ <? _); simpl.
  - now rewrite !Swap_Permutation.
  - match goal with |- context [partition_loop less ?n ?d ?x ?y ?z] =>
      pose proof (partition_loop_Permutation n d x y z) as H;
      destruct (partition_loop less n d x y z) as [d' j'] end.
    simpl in *. now rewrite Swap_Permutation, H, !Swap_Permutation.
Qed.

Lemma partitionEqual_loop_Permutation n (data : list A) a i j :
  Permutation (fst (partitionEqual_loop less n data a i j)) data.
Proof.
  revert data i j. induction n as [|n IH]; intros data i j; simpl; trivial.
  destruct (_ <? _); trivial. now rewrite IH, Swap_Permutation.
Qed.

Lemma partitionEqual_Permutation (data : list A) a b pivot :
  Permutation (fst (partitionEqual_func less data a b pivot)) data.
Proof.
  unfold partitionEqual_func. now rewrite partitionEqual_loop_Permutation, Swap_Permutation.
Qed.

Lemma shift_left_Permutation (data : list A) j :
  Permutation (shift_left less data j) data.
Proof.
  revert data. induction j as [|j IH]; intros data; simpl; trivial.
  destruct (negb _); trivial. now rewrite IH, Swap_Permutation.
Qed.

Lemma shift_right_Permutation n (data : list A) j b :
  Permutation (shift_right less n data j b) data.
Proof.
  revert data j. induction n as [|n IH]; intros data j; simpl; trivial.
  destruct (j <? b); trivial. destruct (negb _); trivial.
  now rewrite IH, Swap_Permutation.
Qed.

Lemma partialInsertion_loop_Permutation steps (data : list A) a b i :
  Permutation (fst (partialInsertion_loop less steps data a b i)) data.
Proof.
  revert data i. induction steps as [|n IH]; intros data i; simpl; trivial.
  set (i' := scan_ordered less (b - i) data i b).
  destruct (i' =? b); trivial. destruct (b - a <? shortestShifting); trivial.
  rewrite IH.
  repeat match goal with |- context [if ?c then _ else _] => destruct c end;
    now rewrite ?shift_right_Permutation, ?shift_left_Permutation, ?Swap_Permutation.
Qed.

Lemma pdqsort_Permutation fuel : forall (data data' : list A) a b limit wb wp,
  pdqsort_func less fuel data a b limit wb wp = Some data' ->
  Permutation data' data.
Proof.
  induction fuel as [|fuel IH]; intros data data' a b limit wb wp; simpl; [discriminate|].
  destruct (b - a <=? maxInsertion).
  { intros [= <-]. apply insertion_loop_Permutation. }
  destruct (limit =? 0).
  { intros [= <-]. apply heapSort_Permutation. }
  set (d1 := if negb wb then (breakPatterns_func data a b, limit - 1) else (data, limit)).
  assert (H1 : Permutation (fst d1) data).
  { subst d1. destruct (negb wb); simpl; trivial. apply breakPatterns_Permutation. }
  destruct d1 as [data1 limit1]; simpl in H1.
  destruct (choosePivot_func less data1 a b) as [pivot hint].
  set (d2 := match hint with
             | decreasingHint => (reverseRange_func data1 a b, b - 1 - (pivot - a), increasingHint)
             | _ => (data1, pivot, hint) end).
  assert (H2 : Permutation (fst (fst d2)) data).
  { subst d2. destruct hint; simpl; trivial.
    unfold reverseRange_func. now rewrite reverse_loop_Permutation. }
  destruct d2 as [[data2 pivot2] hint2]; simpl in H2.
  set (d3 := match hint2 with
             | increasingHint =>
                 if wb && wp then partialInsertionSort_func less data2 a b else (data2, false)
             | _ => (data2, false) end).
  assert (H3 : Permutation (fst d3) data).
  { subst d3. destruct hint2; simpl; trivial. destruct (wb && wp); simpl; trivial.
    unfold partialInsertionSort_func. now rewrite partialInsertion_loop_Permutation. }
  destruct d3 as [data3 sorted]; simpl in H3.
  destruct sorted.
  { now intros [= <-]. }
  destruct (_ && _).
  - pose proof (partitionEqual_Permutation data3 a b pivot2) as H4.
    destruct (partitionEqual_func less data3 a b pivot2) as [data4 mid]; simpl in H4.
    intros H. apply IH in H. now rewrite H, H4.
  - pose proof (partition_Permutation data3 a b pivot2) as H4.
    destruct (partition_func less data3 a b pivot2) as [[data4 mid] ap]; simpl in H4.
    destruct (_ <? _).
    + destruct (pdqsort_func less fuel data4 a mid limit1 true true) as [data5|] eqn:E5;
        [|discriminate].
      apply IH in E5. intros H. apply IH in H. now rewrite H, E5, H4.
    + destruct (pdqsort_func less fuel data4 (mid + 1) b limit1 true true) as [data5|] eqn:E5;
        [|discriminate].
      apply IH in E5. intros H. apply IH in H. now rewrite H, E5, H4.
Qed.

Lemma Slice_Permutation (data : list A) : Permutation (Slice less data) data.
Proof.
  unfold Slice.
  destruct (pdqsort_func _ _ _ _ _ _ _ _) as [d|] eqn:E; simpl; trivial.
  now apply pdqsort_Permutation in E.
Qed.

End GoSortPermutation.

(** ** [sort.Slice] sorts *)

Section GoSortCorrect.
Local Open Scope nat_scope.
Context {A : Type} (less : A -> A -> bool).
Hypothesis Hless : strict_weak_order less.
Import GoSort.

Lemma less_asym x y : less x y = true -> less y x = false.
Proof.
  intros H. destruct (less y x) eqn:E; trivial.
  rewrite <- (less_irrefl less Hless x). symmetry. eapply less_trans; eauto.
Qed.

Lemma notless_trans x y z :
  less y x = false -> less z y = false -> less z x = false.
Proof. intros H1 H2. eapply less_negtrans; eauto. Qed.

Lemma less_notless_trans x y z :
  less x y = true -> less z y = false -> less x z = true.
Proof.
  intros H1 H2. destruct (less x z) eqn:E; trivial.
  rewrite <- H1. symmetry. eapply (less_negtrans less Hless x z y); trivial.
Qed.

Lemma notless_less_trans x y z :
  less y x = false -> less y z = true -> less x z = true.
Proof.
  intros H1 H2. destruct (less x z) eqn:E; trivial.
  rewrite <- H2. symmetry. eapply (less_negtrans less Hless y x z); trivial.
Qed.

(** *** Lookups after a swap *)

Lemma lookup_Swap (d : list A) i j k :
  i < length d -> j < length d ->
  Swap d i j !! k =
  if decide (k = j) then d !! i else if decide (k = i) then d !! j else d !! k.
Proof.
  intros Hi Hj. unfold Swap.
  destruct (lookup_lt_is_Some_2 d i Hi) as [x Hx].
  destruct (lookup_lt_is_Some_2 d j Hj) as [y Hy].
  rewrite Hx, Hy.
  destruct (decide (k = j)) as [->|Hkj].
  - apply list_lookup_insert_eq. now rewrite length_insert.
  - rewrite list_lookup_insert_ne by congruence.
    destruct (decide (k = i)) as [->|Hki].
    + now apply list_lookup_insert_eq.
    + now rewrite list_lookup_insert_ne by congruence.
Qed.

Lemma Less_lookup (d : list A) i j x y :
  d !! i = Some x -> d !! j = Some y -> Less less d i j = less x y.
Proof. intros Hi Hj. unfold Less. now rewrite Hi, Hj. Qed.

(** *** [within] *)

Lemma within_refl a b (d : list A) : within a b d d.
Proof. split; [trivial|]. split; [trivial|]. eauto. Qed.

Lemma within_trans a b (d1 d2 d3 : list A) :
  within a b d1 d2 -> within a b d2 d3 -> within a b d1 d3.
Proof.
  intros (L1 & O1 & I1) (L2 & O2 & I2). split; [congruence|]. split.
  - intros k Hk. now rewrite O2, O1.
  - intros k x Hk Hx. destruct (I2 k x Hk Hx) as (k' & Hk' & Hx'). eauto.
Qed.

Lemma within_mono a b a' b' (d d' : list A) :
  a' <= a -> b <= b' -> within a b d d' -> within a' b' d d'.
Proof.
  intros Ha Hb (L & O & I). split; [trivial|]. split.
  - intros k Hk. apply O. lia.
  - intros k x Hk Hx.
    destruct (decide (a <= k < b)) as [Hin|Hout].
    + destruct (I k x Hin Hx) as (k' & Hk' & Hx'). exists k'. split; [lia|trivial].
    + exists k. split; [trivial|]. rewrite <- O; [trivial|lia].
Qed.

Lemma within_Swap a b (d : list A) i j :
  a <= i < b -> a <= j < b -> within a b d (Swap d i j).
Proof.
  intros Hi Hj.
  destruct (decide (i < length d /\ j < length d)) as [[Li Lj]|Hn].
  - split; [apply length_Swap|]. split.
    + intros k Hk. rewrite lookup_Swap by trivial.
      repeat destruct (decide _); trivial; lia.
    + intros k x Hk. rewrite lookup_Swap by trivial.
      repeat destruct (decide _); eauto.
  - assert (Swap d i j = d) as ->; [|apply within_refl].
    unfold Swap. destruct (d !! i) eqn:Ei; trivial. destruct (d !! j) eqn:Ej; trivial.
    apply lookup_lt_Some in Ei, Ej. lia.
Qed.

Lemma within_length a b (d d' : list A) : within a b d d' -> length d' = length d.
Proof. now intros (L & _). Qed.

Lemma within_outside a b (d d' : list A) k :
  within a b d d' -> k < a \/ b <= k -> d' !! k = d !! k.
Proof. intros (_ & O & _). apply O. Qed.

(** A property of all elements of the range goes over to [d']. *)
Lemma within_Forall a b (d d' : list A) (P : A -> Prop) :
  within a b d d' ->
  (forall k x, a <= k < b -> d !! k = Some x -> P x) ->
  forall k x, a <= k < b -> d' !! k = Some x -> P x.
Proof.
  intros (_ & _ & I) HP k x Hk Hx. destruct (I k x Hk Hx) as (k' & Hk' & Hx'). eauto.
Qed.

Lemma within_Forall_sub a b a' b' (d d' : list A) (P : A -> Prop) :
  within a' b' d d' -> a <= a' -> b' <= b ->
  (forall k x, a <= k < b -> d !! k = Some x -> P x) ->
  forall k x, a <= k < b -> d' !! k = Some x -> P x.
Proof.
  intros Hw Ha Hb. apply within_Forall. eapply within_mono; eauto.
Qed.

Lemma bounded_below_within a b a' b' (d d' : list A) :
  within a' b' d d' -> a <= a' -> b' <= b ->
  bounded_below less a b d -> bounded_below less a b d'.
Proof.
  intros Hw Ha Hb [->|(x & Hx & Hall)]; [now left|].
  destruct (decide (a = 0)) as [->|Hne]; [now left|].
  right. exists x. split.
  - rewrite (within_outside _ _ _ _ _ Hw); [trivial|lia].
  - eapply (within_Forall_sub a b a' b' d d' (fun y => less y x = false)); eauto.
Qed.

Lemma bounded_below_sub a b b' (d : list A) :
  b' <= b -> bounded_below less a b d -> bounded_below less a b' d.
Proof.
  intros Hb [->|(x & Hx & Hall)]; [now left|].
  right. exists x. split; trivial. intros k y Hk. apply Hall. lia.
Qed.

(** *** Sorted ranges *)

Lemma sorted_range_outside a b a' b' (d d' : list A) :
  within a' b' d d' -> (b <= a' \/ b' <= a) ->
  sorted_range less a b d -> sorted_range less a b d'.
Proof.
  intros Hw Hd Hs i j x y Hi Hij Hj Hx Hy.
  rewrite (within_outside _ _ _ _ _ Hw) in Hx by lia.
  rewrite (within_outside _ _ _ _ _ Hw) in Hy by lia. eauto.
Qed.

Lemma sorted_range_sub a b a' b' (d : list A) :
  a <= a' -> b' <= b -> sorted_range less a b d -> sorted_range less a' b' d.
Proof. intros Ha Hb Hs i j x y Hi Hij Hj. apply Hs; lia. Qed.

Lemma sorted_range_short a b (d : list A) : b <= a + 1 -> sorted_range less a b d.
Proof. intros H i j x y Hi Hij Hj. lia. Qed.

(** Two ordered ranges with every element of the first not after any
    element of the second make one ordered range. *)
Lemma sorted_range_join a m b (d : list A) :
  sorted_range less a m d -> sorted_range less m b d ->
  (forall i j x y, a <= i < m -> m <= j < b -> d !! i = Some x -> d !! j = Some y ->
     less y x = false) ->
  sorted_range less a b d.
Proof.
  intros H1 H2 H3 i j x y Hi Hij Hj Hx Hy.
  destruct (decide (j < m)); [eapply H1; eauto; lia|].
  destruct (decide (m <= i)); [eapply H2; eauto; lia|].
  eapply H3; eauto; lia.
Qed.

(** *** Insertion sort *)

Lemma insertion_shift_spec j : forall (d : list A) a top,
  a <= j -> j <= top -> top < length d ->
  sorted_range less a j d ->
  sorted_range less j (S top) d ->
  (forall i k x y, a <= i < j -> j < k <= top -> d !! i = Some x -> d !! k = Some y ->
     less y x = false) ->
  sorted_range less a (S top) (insertion_shift less d a j) /\
  within a (S top) d (insertion_shift less d a j).
Proof.
  induction j as [|j IH]; intros d a top Ha Ht Hl H1 H2 H3; simpl.
  { split; [|apply within_refl]. assert (a = 0) as -> by lia. trivial. }
  destruct (lookup_lt_is_Some_2 d (S j) ltac:(lia)) as [x Hx].
  destruct (lookup_lt_is_Some_2 d j ltac:(lia)) as [y Hy].
  rewrite (Less_lookup d (S j) j x y Hx Hy).
  destruct (a <? S j) eqn:Ea; simpl.
  2:{ apply Nat.ltb_ge in Ea. assert (a = S j) as -> by lia.
      split; [trivial|apply within_refl]. }
  apply Nat.ltb_lt in Ea.
  destruct (less x y) eqn:Exy.
  - assert (Hsw : forall k, Swap d (S j) j !! k =
               if decide (k = j) then Some x else if decide (k = S j) then Some y else d !! k).
    { intros k. rewrite lookup_Swap by lia. rewrite Hx, Hy. trivial. }
    destruct (IH (Swap d (S j) j) a top) as [IH1 IH2]; try lia.
    + rewrite length_Swap. lia.
    + intros i k u v Hi Hik Hk. rewrite !Hsw.
      repeat destruct (decide _); try lia. intros Hu Hv. eapply H1; eauto; lia.
    + intros i k u v Hi Hik Hk. rewrite !Hsw.
      repeat destruct (decide _); try lia; intros Hu Hv; simplify_eq.
      * now apply less_asym.
      * eapply (H2 (S j) k); eauto; lia.
      * eapply (H3 j k); eauto; lia.
      * eapply (H2 i k); eauto; lia.
    + intros i k u v Hi Hk. rewrite !Hsw.
      repeat destruct (decide _); try lia; intros Hu Hv; simplify_eq.
      * eapply (H1 i j); eauto; lia.
      * eapply (H3 i k); eauto; lia.
    + split; [trivial|]. eapply within_trans; [|exact IH2].
      apply within_Swap; lia.
  - split; [|apply within_refl].
    apply (sorted_range_join a (S j)); trivial.
    intros i k u v Hi Hk Hu Hv.
    destruct (decide (k = S j)) as [->|].
    + rewrite Hx in Hv. injection Hv as <-.
      destruct (decide (i = j)) as [->|]; [congruence|].
      apply (notless_trans u y x); trivial. eapply (H1 i j); eauto; lia.
    + eapply (H3 i k); eauto; lia.
Qed.

Lemma insertion_loop_spec n : forall (d : list A) a i,
  a < i -> i + n <= length d ->
  sorted_range less a i d ->
  sorted_range less a (i + n) (insertion_loop less n d a i) /\
  within a (i + n) d (insertion_loop less n d a i).
Proof.
  induction n as [|n IH]; intros d a i Ha Hl Hs; simpl.
  { rewrite Nat.add_0_r. split; [trivial|apply within_refl]. }
  destruct (insertion_shift_spec i d a i) as [S1 W1]; try lia; trivial.
  { apply sorted_range_short. lia. }
  destruct (IH (insertion_shift less d a i) a (S i)) as [S2 W2]; try lia; trivial.
  { rewrite (within_length _ _ _ _ W1). lia. }
  replace (i + S n) with (S i + n) by lia. split; trivial.
  eapply within_trans; [|exact W2]. eapply within_mono; [| |exact W1]; lia.
Qed.

Lemma insertionSort_spec (d : list A) a b :
  b <= length d ->
  sorted_range less a b (insertionSort_func less d a b) /\
  within a b d (insertionSort_func less d a b).
Proof.
  intros Hb. unfold insertionSort_func.
  destruct (decide (a + 1 <= b)) as [Hab|Hab].
  - destruct (insertion_loop_spec (b - (a + 1)) d a (a + 1)) as [S1 W1]; try lia.
    { apply sorted_range_short. lia. }
    replace (a + 1 + (b - (a + 1))) with b in * by lia. now split.
  - replace (b - (a + 1)) with 0 by lia. simpl.
    split; [apply sorted_range_short; lia|apply within_refl].
Qed.

End GoSortCorrect.

Section GoSortPartition.
Local Open Scope nat_scope.
Context {A : Type} (less : A -> A -> bool).
Hypothesis Hless : strict_weak_order less.
Import GoSort.

Lemma scan_up_spec n ok i j :
  S j - i <= n -> i <= S j ->
  let i' := scan_up n ok i j in
  i <= i' <= S j /\
  (forall k, i <= k < i' -> ok k = true) /\
  (i' <= j -> ok i' = false).
Proof.
  revert i. induction n as [|n IH]; intros i Hn Hi; simpl.
  { split; [lia|]. split; intros; lia. }
  destruct (i <=? j) eqn:E; simpl.
  2:{ apply Nat.leb_gt in E. split; [lia|]. split; intros; lia. }
  apply Nat.leb_le in E.
  destruct (ok i) eqn:Ei.
  - destruct (IH (S i)) as (H1 & H2 & H3); try lia.
    split; [lia|]. split; trivial.
    intros k Hk. destruct (decide (k = i)) as [->|]; trivial. apply H2. lia.
  - split; [lia|]. split; [intros; lia|trivial].
Qed.

Lemma scan_down_spec n ok i j :
  S j - i <= n -> 1 <= i -> i <= S j ->
  let j' := scan_down n ok i j in
  i <= S j' /\ j' <= j /\
  (forall k, j' < k <= j -> ok k = true) /\
  (i <= j' -> ok j' = false).
Proof.
  revert j. induction n as [|n IH]; intros j Hn H1 Hi; simpl.
  { split; [lia|]. split; [lia|]. split; intros; lia. }
  destruct (i <=? j) eqn:E; simpl.
  2:{ apply Nat.leb_gt in E. split; [lia|]. split; [lia|]. split; intros; lia. }
  apply Nat.leb_le in E.
  destruct (ok j) eqn:Ej.
  - destruct (IH (j - 1)) as (G1 & G2 & G3 & G4); try lia.
    split; [lia|]. split; [lia|]. split; trivial.
    intros k Hk. destruct (decide (k = j)) as [->|]; trivial. apply G3. lia.
  - split; [lia|]. split; [lia|]. split; [intros; lia|trivial].
Qed.

Lemma split_at_Swap left a b i j (d : list A) x y :
  a < i -> i <= j -> j < b -> b <= length d ->
  d !! i = Some x -> d !! j = Some y -> left y = true -> left x = false ->
  split_at left a b i j d ->
  split_at left a b (S i) (j - 1) (Swap d i j).
Proof.
  intros Ha Hij Hj Hb Hx Hy Ly Rx [H1 H2]. split.
  - intros k z Hk. rewrite lookup_Swap by lia. rewrite Hx, Hy.
    repeat destruct (decide _); try lia.
    + intros [= <-]. assert (i = j) as -> by lia. congruence.
    + intros [= <-]. trivial.
    + intros Hz. eapply H1; eauto. lia.
  - intros k z Hk. rewrite lookup_Swap by lia. rewrite Hx, Hy.
    repeat destruct (decide _); try lia.
    + intros [= <-]. trivial.
    + intros Hz. eapply H2; eauto. lia.
Qed.

(** One round of the two scans. *)
Lemma scans_spec left (okU okD : nat -> bool) a b i j (d : list A) :
  a < i -> i <= S j -> j < b -> b <= length d ->
  (forall k x, d !! k = Some x -> okU k = left x) ->
  (forall k x, d !! k = Some x -> okD k = negb (left x)) ->
  split_at left a b i j d ->
  let i' := scan_up (S j - i) okU i j in
  let j' := scan_down (S j - i') okD i' j in
  i <= i' /\ j' <= j /\ split_at left a b i' j' d /\
  ((j' < i' /\ i' = S j') \/
   (i' < j' /\ exists x y, d !! i' = Some x /\ d !! j' = Some y /\
                 left x = false /\ left y = true)).
Proof.
  intros Ha Hi Hj Hb HU HD [H1 H2] i' j'.
  destruct (scan_up_spec (S j - i) okU i j) as (U1 & U2 & U3); try lia.
  fold i' in U1, U2, U3.
  destruct (scan_down_spec (S j - i') okD i' j) as (D1 & D2 & D3 & D4); try lia.
  fold j' in D1, D2, D3, D4.
  split; [lia|]. split; [lia|].
  assert (split_at left a b i' j' d) as Hsp.
  { split.
    - intros k x Hk Hx. destruct (decide (k < i)); [eapply H1; eauto; lia|].
      rewrite <- (HU k x Hx). apply U2. lia.
    - intros k x Hk Hx. destruct (decide (j < k)); [eapply H2; eauto; lia|].
      specialize (D3 k ltac:(lia)). rewrite (HD k x Hx) in D3.
      now destruct (left x). }
  split; [exact Hsp|].
  destruct (decide (j' < i')) as [Hlt|Hge]; [left; lia|]. right.
  destruct (lookup_lt_is_Some_2 d i' ltac:(lia)) as [x Hx].
  destruct (lookup_lt_is_Some_2 d j' ltac:(lia)) as [y Hy].
  specialize (U3 ltac:(lia)). specialize (D4 ltac:(lia)).
  rewrite (HU i' x Hx) in U3. rewrite (HD j' y Hy) in D4.
  assert (left y = true) as Ly by now destruct (left y).
  split.
  - destruct (decide (i' = j')) as [E|]; [|lia].
    rewrite E in Hx. congruence.
  - exists x, y. auto.
Qed.

Section Partition.
Variables (a b : nat) (p : A).

Lemma partition_loop_spec n : forall (d : list A) i j,
  a < i -> i <= S j -> j < b -> b <= length d -> S j - i <= n ->
  d !! a = Some p ->
  split_at (fun x => less x p) a b i j d ->
  within (a + 1) b d (fst (partition_loop less n d a i j)) /\
  a <= snd (partition_loop less n d a i j) < b /\
  split_at (fun x => less x p) a b
    (S (snd (partition_loop less n d a i j))) (snd (partition_loop less n d a i j))
    (fst (partition_loop less n d a i j)).
Proof.
  induction n as [|n IH]; intros d i j Ha Hi Hj Hb Hn Hp Hsp; simpl.
  { split; [apply within_refl|]. split; [lia|].
    assert (i = S j) as <- by lia. exact Hsp. }
  destruct (scans_spec (fun x => less x p)
              (fun i => Less less d i a) (fun j => negb (Less less d j a)) a b i j d)
    as (S1 & S2 & S3 & S4); trivial.
  { intros k x Hx. now apply Less_lookup. }
  { intros k x Hx. f_equal. now apply Less_lookup. }
  set (i' := scan_up (S j - i) (fun i => Less less d i a) i j) in *.
  set (j' := scan_down (S j - i') (fun j => negb (Less less d j a)) i' j) in *.
  destruct S4 as [[Hlt E]|(Hlt & x & y & Hx & Hy & Lx & Ly)].
  - apply Nat.ltb_lt in Hlt. rewrite Hlt. simpl.
    split; [apply within_refl|]. split; [lia|]. rewrite <- E. exact S3.
  - assert ((j' <? i') = false) as -> by (apply Nat.ltb_ge; lia).
    destruct (IH (Swap d i' j') (S i') (j' - 1)) as (W & B & Sp); try lia.
    + rewrite length_Swap. lia.
    + rewrite lookup_Swap by lia. repeat destruct (decide _); try lia. trivial.
    + eapply split_at_Swap; eauto; lia.
    + split; [|split; trivial].
      eapply within_trans; [|exact W]. apply within_Swap; lia.
Qed.

Lemma partition_spec (d : list A) pivot :
  a <= pivot < b -> b <= length d -> d !! pivot = Some p ->
  let '(d', mid, _) := partition_func less d a b pivot in
  within a b d d' /\ a <= mid < b /\ d' !! mid = Some p /\
  (forall k x, a <= k < mid -> d' !! k = Some x -> less x p = true) /\
  (forall k x, mid < k < b -> d' !! k = Some x -> less x p = false).
Proof.
  intros Hpv Hb Hp. unfold partition_func.
  set (d0 := Swap d a pivot).
  assert (W0 : within a b d d0) by (apply within_Swap; lia).
  assert (L0 : length d0 = length d) by apply length_Swap.
  assert (P0 : d0 !! a = Some p).
  { unfold d0. rewrite lookup_Swap by lia. repeat destruct (decide _); try lia; trivial.
    subst. trivial. }
  destruct (scans_spec (fun x => less x p)
              (fun i => Less less d0 i a) (fun j => negb (Less less d0 j a))
              a b (a + 1) (b - 1) d0)
    as (S1 & S2 & S3 & S4); try lia.
  { intros k x Hx. now apply Less_lookup. }
  { intros k x Hx. f_equal. now apply Less_lookup. }
  { split; intros; lia. }
  set (i' := scan_up (S (b - 1) - (a + 1)) (fun i => Less less d0 i a) (a + 1) (b - 1)) in *.
  set (j' := scan_down (S (b - 1) - i') (fun j => negb (Less less d0 j a)) i' (b - 1)) in *.
  (* what the final swap of the pivot into its place achieves *)
  assert (Hfinal : forall (d1 : list A) m,
             length d1 = length d -> d1 !! a = Some p -> a <= m < b ->
             split_at (fun x => less x p) a b (S m) m d1 ->
             Swap d1 m a !! m = Some p /\
             (forall k x, a <= k < m -> Swap d1 m a !! k = Some x -> less x p = true) /\
             (forall k x, m < k < b -> Swap d1 m a !! k = Some x -> less x p = false)).
  { intros d1 m L1 P1 Hm [Sl Sr].
    destruct (lookup_lt_is_Some_2 d1 m ltac:(lia)) as [y Hy].
    assert (Hsw : forall k, Swap d1 m a !! k =
               if decide (k = a) then Some y else if decide (k = m) then Some p else d1 !! k).
    { intros k. rewrite lookup_Swap by lia. now rewrite Hy, P1. }
    split; [|split].
    - rewrite Hsw. repeat destruct (decide _); try lia; trivial. congruence.
    - intros k x Hk. rewrite Hsw. repeat destruct (decide _); try lia.
      + intros [= <-]. eapply (Sl m); eauto. lia.
      + intros Hx. eapply (Sl k); eauto. lia.
    - intros k x Hk. rewrite Hsw. repeat destruct (decide _); try lia.
      intros Hx. eapply (Sr k); eauto. }
  destruct S4 as [[Hlt E]|(Hlt & x & y & Hx & Hy & Lx & Ly)].
  - apply Nat.ltb_lt in Hlt. rewrite Hlt.
    destruct (Hfinal d0 j') as (F1 & F2 & F3); trivial; try lia.
    { rewrite <- E. exact S3. }
    split; [|split; [lia|split; [trivial|split; trivial]]].
    eapply within_trans; [exact W0|]. apply within_Swap; lia.
  - assert ((j' <? i') = false) as -> by (apply Nat.ltb_ge; lia).
    destruct (partition_loop_spec (S j' - i') (Swap d0 i' j') (S i') (j' - 1))
      as (W & B & Sp); try lia.
    + rewrite length_Swap. lia.
    + rewrite lookup_Swap by lia. repeat destruct (decide _); try lia. trivial.
    + eapply split_at_Swap; eauto; lia.
    + destruct (partition_loop less (S j' - i') (Swap d0 i' j') a (S i') (j' - 1))
        as [d2 m]. simpl in W, B, Sp.
      assert (W2 : within a b d d2).
      { eapply within_trans; [exact W0|]. eapply within_trans; [apply (within_Swap a b d0 i' j'); lia|].
        eapply within_mono; [| |exact W]; lia. }
      destruct (Hfinal d2 m) as (F1 & F2 & F3); trivial; try lia.
      { apply (within_length _ _ _ _ W2). }
      { rewrite (within_outside _ _ _ _ _ W) by lia.
        rewrite lookup_Swap by lia. repeat destruct (decide _); try lia. trivial. }
      split; [|split; [lia|split; [trivial|split; trivial]]].
      eapply within_trans; [exact W2|]. apply within_Swap; lia.
Qed.

Lemma partitionEqual_loop_spec n : forall (d : list A) i j,
  a < i -> i <= S j -> j < b -> b <= length d -> S j - i <= n ->
  d !! a = Some p ->
  split_at (fun x => negb (less p x)) a b i j d ->
  within (a + 1) b d (fst (partitionEqual_loop less n d a i j)) /\
  a < snd (partitionEqual_loop less n d a i j) <= b /\
  split_at (fun x => negb (less p x)) a b
    (snd (partitionEqual_loop less n d a i j))
    (snd (partitionEqual_loop less n d a i j) - 1)
    (fst (partitionEqual_loop less n d a i j)).
Proof.
  induction n as [|n IH]; intros d i j Ha Hi Hj Hb Hn Hp Hsp; simpl.
  { split; [apply within_refl|]. split; [lia|].
    assert (i = S j) as -> by lia. simpl. now rewrite Nat.sub_0_r. }
  destruct (scans_spec (fun x => negb (less p x))
              (fun i => negb (Less less d a i)) (fun j => Less less d a j) a b i j d)
    as (S1 & S2 & S3 & S4); trivial.
  { intros k x Hx. f_equal. now apply Less_lookup. }
  { intros k x Hx. rewrite negb_involutive. now apply Less_lookup. }
  set (i' := scan_up (S j - i) (fun i => negb (Less less d a i)) i j) in *.
  set (j' := scan_down (S j - i') (fun j => Less less d a j) i' j) in *.
  destruct S4 as [[Hlt E]|(Hlt & x & y & Hx & Hy & Lx & Ly)].
  - apply Nat.ltb_lt in Hlt. rewrite Hlt. simpl.
    split; [apply within_refl|]. split; [lia|]. rewrite E at 2. simpl.
    now rewrite Nat.sub_0_r.
  - assert ((j' <? i') = false) as -> by (apply Nat.ltb_ge; lia).
    destruct (IH (Swap d i' j') (S i') (j' - 1)) as (W & B & Sp); try lia.
    + rewrite length_Swap. lia.
    + rewrite lookup_Swap by lia. repeat destruct (decide _); try lia. trivial.
    + eapply split_at_Swap; eauto; lia.
    + split; [|split; trivial].
      eapply within_trans; [|exact W]. apply within_Swap; lia.
Qed.

Lemma partitionEqual_spec (d : list A) pivot :
  a <= pivot < b -> b <= length d -> d !! pivot = Some p ->
  let '(d', mid) := partitionEqual_func less d a b pivot in
  within a b d d' /\ a < mid <= b /\
  (forall k x, a <= k < mid -> d' !! k = Some x -> less p x = false) /\
  (forall k x, mid <= k < b -> d' !! k = Some x -> less p x = true).
Proof.
  intros Hpv Hb Hp. unfold partitionEqual_func.
  set (d0 := Swap d a pivot).
  assert (W0 : within a b d d0) by (apply within_Swap; lia).
  assert (L0 : length d0 = length d) by apply length_Swap.
  assert (P0 : d0 !! a = Some p).
  { unfold d0. rewrite lookup_Swap by lia. repeat destruct (decide _); try lia; trivial.
    subst. trivial. }
  destruct (partitionEqual_loop_spec (S (b - a)) d0 (a + 1) (b - 1))
    as (W & B & [Sl Sr]); try lia; trivial.
  { split; intros; lia. }
  destruct (partitionEqual_loop less (S (b - a)) d0 a (a + 1) (b - 1)) as [d1 mid].
  simpl in W, B, Sl, Sr.
  split; [|split; [trivial|split]].
  - eapply within_trans; [exact W0|]. eapply within_mono; [| |exact W]; lia.
  - intros k x Hk Hx. destruct (decide (k = a)) as [->|].
    + rewrite (within_outside _ _ _ _ _ W) in Hx by lia.
      rewrite P0 in Hx. injection Hx as <-. apply (less_irrefl less Hless).
    + specialize (Sl k x ltac:(lia) Hx). now destruct (less p x).
  - intros k x Hk Hx. specialize (Sr k x ltac:(lia) Hx). now destruct (less p x).
Qed.

End Partition.

End GoSortPartition.

Section GoSortPieces.
Local Open Scope nat_scope.
Context {A : Type} (less : A -> A -> bool).
Hypothesis Hless : strict_weak_order less.
Import GoSort.

(** *** The pivot lies in the range *)

Lemma order2_in (d : list A) a b swaps :
  let '(x, y, _) := order2_func less d a b swaps in
  (x = a /\ y = b) \/ (x = b /\ y = a).
Proof. unfold order2_func. destruct (Less less d b a); auto. Qed.

Lemma median_in (d : list A) a b c swaps :
  let m := fst (median_func less d a b c swaps) in m = a \/ m = b \/ m = c.
Proof.
  unfold median_func.
  pose proof (order2_in d a b swaps) as H1.
  destruct (order2_func less d a b swaps) as [[a1 b1] s1].
  pose proof (order2_in d b1 c s1) as H2.
  destruct (order2_func less d b1 c s1) as [[b2 c2] s2].
  pose proof (order2_in d a1 b2 s2) as H3.
  destruct (order2_func less d a1 b2 s2) as [[a3 b3] s3].
  simpl. lia.
Qed.

Lemma choosePivot_bounds (d : list A) a b :
  8 <= b - a -> a <= fst (choosePivot_func less d a b) < b.
Proof.
  intros Hl. unfold choosePivot_func.
  set (l := b - a).
  pose proof (Nat.div_mod_eq l 4) as Hq.
  pose proof (Nat.mod_upper_bound l 4 ltac:(lia)) as Hr.
  set (q := l / 4) in *.
  assert (2 <= q) by lia.
  assert (Hj : let js := (if 8 <=? l
                  then let '(i, j, k, swaps) :=
                         if shortestNinther <=? l
                         then let '(i, swaps) := medianAdjacent_func less d (a + q * 1) 0 in
                              let '(j, swaps) := medianAdjacent_func less d (a + q * 2) swaps in
                              let '(k, swaps) := medianAdjacent_func less d (a + q * 3) swaps in
                              (i, j, k, swaps)
                         else (a + q * 1, a + q * 2, a + q * 3, 0) in
                       median_func less d i j k swaps
                  else (a + q * 2, 0)) in a <= fst js < b).
  { destruct (8 <=? l); [|simpl; lia].
    destruct (shortestNinther <=? l).
    - unfold medianAdjacent_func.
      pose proof (median_in d (a + q * 1 - 1) (a + q * 1) (a + q * 1 + 1) 0) as M1.
      destruct (median_func less d (a + q * 1 - 1) (a + q * 1) (a + q * 1 + 1) 0) as [i s1].
      pose proof (median_in d (a + q * 2 - 1) (a + q * 2) (a + q * 2 + 1) s1) as M2.
      destruct (median_func less d (a + q * 2 - 1) (a + q * 2) (a + q * 2 + 1) s1) as [j s2].
      pose proof (median_in d (a + q * 3 - 1) (a + q * 3) (a + q * 3 + 1) s2) as M3.
      destruct (median_func less d (a + q * 3 - 1) (a + q * 3) (a + q * 3 + 1) s2) as [k s3].
      pose proof (median_in d i j k s3) as M. simpl in *. lia.
    - pose proof (median_in d (a + q * 1) (a + q * 2) (a + q * 3) 0) as M. simpl in *. lia. }
  cbv zeta in Hj.
  destruct (if 8 <=? l then _ else _) as [j swaps]. simpl in Hj.
  destruct (swaps =? 0); [trivial|]. destruct (swaps =? maxSwaps); trivial.
Qed.

(** *** Reversal and pattern breaking stay in the range *)

Lemma reverse_loop_within n : forall (d : list A) a b i j,
  a <= i -> j < b -> within a b d (reverse_loop n d i j).
Proof.
  induction n as [|n IH]; intros d a b i j Hi Hj; simpl; [apply within_refl|].
  destruct (i <? j) eqn:E; [|apply within_refl]. apply Nat.ltb_lt in E.
  eapply within_trans; [apply (within_Swap a b d i j); lia|]. apply IH; lia.
Qed.

Lemma reverseRange_within (d : list A) a b :
  a < b -> within a b d (reverseRange_func d a b).
Proof. intros H. apply reverse_loop_within; lia. Qed.

Lemma nextPowerOfTwo_bound l : 0 < l -> (0 < nextPowerOfTwo l <= 2 * Z.of_nat l)%Z.
Proof.
  intros Hl. unfold nextPowerOfTwo, bits_Len. destruct l as [|l']; [lia|].
  set (l := S l') in *.
  rewrite Z.shiftl_1_l.
  pose proof (Nat.log2_spec l Hl) as [H1 _].
  rewrite Nat2Z.inj_succ, Z.pow_succ_r by lia.
  assert (2 ^ Z.of_nat (Nat.log2 l) = Z.of_nat (2 ^ Nat.log2 l))%Z as ->.
  { rewrite Nat2Z.inj_pow. reflexivity. }
  split; [|lia]. assert (0 < 2 ^ Nat.log2 l); [|lia].
  apply Nat.neq_0_lt_0, Nat.pow_nonzero. lia.
Qed.

Lemma breakPatterns_loop_within n : forall (d : list A) random modulus len a b idx i,
  0 < len -> a + len <= b ->
  (exists k, modulus = 2 ^ k /\ 0 <= k /\ modulus <= 2 * Z.of_nat len)%Z ->
  a + 1 <= idx -> idx - 1 + i + n <= b ->
  within a b d (breakPatterns_loop n d random modulus len a idx i).
Proof.
  induction n as [|n IH]; intros d random modulus len a b idx i Hl Hb Hm Hidx Hi; simpl;
    [apply within_refl|].
  eapply within_trans; [|apply IH; trivial; lia].
  apply within_Swap; [lia|].
  destruct Hm as (k & -> & Hk & Hm).
  set (r := xorshift_Next random).
  assert (0 <= Z.land r (2 ^ k - 1) < 2 ^ k)%Z as Hland.
  { replace (2 ^ k - 1)%Z with (Z.ones k) by (rewrite Z.ones_equiv; lia).
    rewrite Z.land_ones by trivial. apply Z.mod_pos_bound. lia. }
  destruct (len <=? Z.to_nat (Z.land r (2 ^ k - 1))) eqn:E.
  - apply Nat.leb_le in E. lia.
  - apply Nat.leb_gt in E. lia.
Qed.

Lemma breakPatterns_within (d : list A) a b :
  a <= b -> within a b d (breakPatterns_func d a b).
Proof.
  intros Hab. unfold breakPatterns_func.
  destruct (8 <=? b - a) eqn:E; [|apply within_refl]. apply Nat.leb_le in E.
  pose proof (Nat.div_mod_eq (b - a) 4) as Hq.
  pose proof (Nat.mod_upper_bound (b - a) 4 ltac:(lia)) as Hr.
  apply breakPatterns_loop_within; try lia.
  destruct (nextPowerOfTwo_bound (b - a) ltac:(lia)) as [H1 H2].
  exists (Z.of_nat (bits_Len (b - a))). split; [|split; [lia|trivial]].
  unfold nextPowerOfTwo. now rewrite Z.shiftl_1_l.
Qed.

(** *** Partial insertion sort *)

Lemma sorted_range_snoc a i (d : list A) x y :
  a < i -> d !! (i - 1) = Some x -> d !! i = Some y -> less y x = false ->
  sorted_range less a i d -> sorted_range less a (S i) d.
Proof.
  intros Ha Hx Hy Hxy Hs. apply (sorted_range_join less a i); trivial.
  - apply sorted_range_short. lia.
  - intros k j u v Hk Hj Hu Hv. assert (j = i) as -> by lia.
    rewrite Hy in Hv. injection Hv as <-.
    destruct (decide (k = i - 1)) as [->|]; [congruence|].
    apply (notless_trans less Hless u x y); trivial. eapply (Hs k (i - 1)); eauto; lia.
Qed.

Lemma scan_ordered_spec n : forall (d : list A) a i b,
  b - i <= n -> a < i -> i <= b -> b <= length d ->
  sorted_range less a i d ->
  let i' := scan_ordered less n d i b in
  i <= i' <= b /\ sorted_range less a i' d /\
  (i' < b -> Less less d i' (i' - 1) = true).
Proof.
  induction n as [|n IH]; intros d a i b Hn Ha Hi Hb Hs; simpl.
  { split; [lia|]. split; [trivial|]. intros; lia. }
  destruct (i <? b) eqn:E; simpl.
  2:{ apply Nat.ltb_ge in E. split; [lia|]. split; [trivial|]. intros; lia. }
  apply Nat.ltb_lt in E.
  destruct (Less less d i (i - 1)) eqn:EL; simpl.
  { split; [lia|]. split; trivial. }
  destruct (lookup_lt_is_Some_2 d (i - 1) ltac:(lia)) as [x Hx].
  destruct (lookup_lt_is_Some_2 d i ltac:(lia)) as [y Hy].
  rewrite (Less_lookup less d i (i - 1) y x Hy Hx) in EL.
  destruct (IH d a (S i) b) as (I1 & I2 & I3); try lia.
  { eapply sorted_range_snoc; eauto. }
  split; [lia|]. split; trivial.
Qed.

Lemma shift_left_spec j : forall (d : list A) a top,
  a <= j -> j <= top -> top < length d ->
  bounded_below less a (S top) d ->
  sorted_range less a j d ->
  sorted_range less j (S top) d ->
  (forall i k x y, a <= i < j -> j < k <= top -> d !! i = Some x -> d !! k = Some y ->
     less y x = false) ->
  sorted_range less a (S top) (shift_left less d j) /\
  within a (S top) d (shift_left less d j).
Proof.
  induction j as [|j IH]; intros d a top Ha Ht Hl Hbb H1 H2 H3; simpl.
  { split; [|apply within_refl]. assert (a = 0) as -> by lia. trivial. }
  destruct (lookup_lt_is_Some_2 d (S j) ltac:(lia)) as [x Hx].
  destruct (lookup_lt_is_Some_2 d j ltac:(lia)) as [y Hy].
  rewrite (Less_lookup less d (S j) j x y Hx Hy).
  destruct (less x y) eqn:Exy; simpl.
  - destruct (decide (a = S j)) as [->|Hne].
    { exfalso. destruct Hbb as [?|(x0 & Hx0 & Hall)]; [lia|].
      replace (S j - 1) with j in Hx0 by lia. rewrite Hy in Hx0. injection Hx0 as <-.
      rewrite (Hall (S j) x) in Exy; [discriminate|lia|trivial]. }
    assert (Hsw : forall k, Swap d (S j) j !! k =
               if decide (k = j) then Some x else if decide (k = S j) then Some y else d !! k).
    { intros k. rewrite lookup_Swap by lia. rewrite Hx, Hy. trivial. }
    assert (Wsw : within a (S top) d (Swap d (S j) j)) by (apply within_Swap; lia).
    destruct (IH (Swap d (S j) j) a top) as [IH1 IH2]; try lia.
    + rewrite length_Swap. lia.
    + eapply bounded_below_within; eauto.
    + intros i k u v Hi Hik Hk. rewrite !Hsw.
      repeat destruct (decide _); try lia. intros Hu Hv. eapply H1; eauto; lia.
    + intros i k u v Hi Hik Hk. rewrite !Hsw.
      repeat destruct (decide _); try lia; intros Hu Hv; simplify_eq.
      * now apply (less_asym less Hless).
      * eapply (H2 (S j) k); eauto; lia.
      * eapply (H3 j k); eauto; lia.
      * eapply (H2 i k); eauto; lia.
    + intros i k u v Hi Hk. rewrite !Hsw.
      repeat destruct (decide _); try lia; intros Hu Hv; simplify_eq.
      * eapply (H1 i j); eauto; lia.
      * eapply (H3 i k); eauto; lia.
    + split; [trivial|]. eapply within_trans; [exact Wsw|exact IH2].
  - split; [|apply within_refl].
    destruct (decide (a = S j)) as [->|Hne]; [trivial|].
    apply (sorted_range_join less a (S j)); trivial.
    intros i k u v Hi Hk Hu Hv.
    destruct (decide (k = S j)) as [->|].
    + rewrite Hx in Hv. injection Hv as <-.
      destruct (decide (i = j)) as [->|]; [congruence|].
      apply (notless_trans less Hless u y x); trivial. eapply (H1 i j); eauto; lia.
    + eapply (H3 i k); eauto; lia.
Qed.

Lemma shift_right_within n : forall (d : list A) i j b,
  i < j -> within i b d (shift_right less n d j b).
Proof.
  induction n as [|n IH]; intros d i j b Hj; simpl; [apply within_refl|].
  destruct (j <? b) eqn:E; [|apply within_refl]. apply Nat.ltb_lt in E.
  destruct (negb _); [apply within_refl|].
  eapply within_trans; [apply (within_Swap i b d j (j - 1)); lia|]. apply IH. lia.
Qed.

Lemma partialInsertion_loop_spec steps : forall (d : list A) a b i,
  a < i -> i <= b -> b <= length d ->
  sorted_range less a i d -> bounded_below less a b d ->
  within a b d (fst (partialInsertion_loop less steps d a b i)) /\
  (snd (partialInsertion_loop less steps d a b i) = true ->
   sorted_range less a b (fst (partialInsertion_loop less steps d a b i))).
Proof.
  induction steps as [|steps IH]; intros d a b i Ha Hi Hb Hs Hbb; simpl.
  { split; [apply within_refl|discriminate]. }
  destruct (scan_ordered_spec (b - i) d a i b) as (C1 & C2 & C3); try lia; trivial.
  set (i' := scan_ordered less (b - i) d i b) in *.
  destruct (i' =? b) eqn:E; simpl.
  { apply Nat.eqb_eq in E. split; [apply within_refl|]. intros _. now rewrite <- E. }
  apply Nat.eqb_neq in E.
  destruct (b - a <? shortestShifting); simpl.
  { split; [apply within_refl|discriminate]. }
  specialize (C3 ltac:(lia)).
  destruct (lookup_lt_is_Some_2 d i' ltac:(lia)) as [x Hx].
  destruct (lookup_lt_is_Some_2 d (i' - 1) ltac:(lia)) as [y Hy].
  set (d1 := Swap d i' (i' - 1)).
  assert (W1 : within a b d d1) by (apply within_Swap; lia).
  assert (L1 : length d1 = length d) by apply length_Swap.
  assert (S1 : sorted_range less a (i' - 1) d1).
  { intros k j u v Hk Hkj Hj. unfold d1. rewrite !lookup_Swap by lia.
    repeat destruct (decide _); try lia. intros Hu Hv. eapply (C2 k j); eauto; lia. }
  set (d2 := if 2 <=? i' - a then shift_left less d1 (i' - 1) else d1).
  assert (W2 : within a i' d1 d2 /\ sorted_range less a i' d2) .
  { unfold d2. destruct (2 <=? i' - a) eqn:E2.
    - apply Nat.leb_le in E2.
      destruct (shift_left_spec (i' - 1) d1 a (i' - 1)) as [G1 G2]; try lia; trivial.
      + apply (bounded_below_sub less a b); [lia|].
        eapply bounded_below_within; [exact W1| | |exact Hbb]; lia.
      + apply sorted_range_short. lia.
      + replace (S (i' - 1)) with i' in * by lia. now split.
    - apply Nat.leb_gt in E2. split; [apply within_refl|].
      apply sorted_range_short. lia. }
  destruct W2 as [W2 S2].
  set (d3 := if 2 <=? b - i' then shift_right less (b - (i' + 1)) d2 (i' + 1) b else d2).
  assert (W3 : within i' b d2 d3).
  { unfold d3. destruct (2 <=? b - i'); [|apply within_refl].
    apply shift_right_within. lia. }
  assert (W : within a b d d3).
  { eapply within_trans; [exact W1|]. eapply within_trans.
    - eapply within_mono; [| |exact W2]; lia.
    - eapply within_mono; [| |exact W3]; lia. }
  destruct (IH d3 a b i') as [G1 G2]; try lia.
  - rewrite (within_length _ _ _ _ W). lia.
  - eapply sorted_range_outside; [exact W3| |exact S2]. lia.
  - eapply bounded_below_within; [exact W| | |exact Hbb]; lia.
  - split; [|exact G2]. eapply within_trans; [exact W|exact G1].
Qed.

Lemma partialInsertionSort_spec (d : list A) a b :
  a < b -> b <= length d -> bounded_below less a b d ->
  within a b d (fst (partialInsertionSort_func less d a b)) /\
  (snd (partialInsertionSort_func less d a b) = true ->
   sorted_range less a b (fst (partialInsertionSort_func less d a b))).
Proof.
  intros Hab Hb Hbb. apply partialInsertion_loop_spec; trivial; try lia.
  apply sorted_range_short. lia.
Qed.

End GoSortPieces.

Section GoSortHeap.
Local Open Scope nat_scope.
Context {A : Type} (less : A -> A -> bool).
Hypothesis Hless : strict_weak_order less.
Import GoSort.

Variable first : nat.

Lemma siftDown_loop_spec n : forall (d : list A) lo hi r,
  hi - r <= n -> lo <= r -> first + hi <= length d ->
  heap_but less first lo hi r d ->
  heap_from less first lo hi (siftDown_loop less n d r hi first) /\
  within first (first + hi) d (siftDown_loop less n d r hi first).
Proof.
  induction n as [|n IH]; intros d lo hi r Hn Hlo Hlen [H1 H2].
  { simpl. split; [|apply within_refl].
    intros p c x y Hp Hc Hhi. destruct (decide (p = r)) as [->|Hne].
    - unfold child_of in Hc. lia.
    - now apply H1. }
  cbn [siftDown_loop]. cbv zeta.
  destruct (hi <=? 2 * r + 1) eqn:E.
  { apply Nat.leb_le in E. split; [|apply within_refl].
    intros p c x y Hp Hc Hhi. destruct (decide (p = r)) as [->|Hne].
    - unfold child_of in Hc. lia.
    - now apply H1. }
  apply Nat.leb_gt in E.
  destruct (lookup_lt_is_Some_2 d (first + r) ltac:(lia)) as [xr Hxr].
  destruct (lookup_lt_is_Some_2 d (first + (2 * r + 1)) ltac:(lia)) as [x1 Hx1].
  (* the greater child [c] with its element [xc] *)
  set (c := if (2 * r + 1 + 1 <? hi) &&
               Less less d (first + (2 * r + 1)) (first + (2 * r + 1) + 1)
            then 2 * r + 1 + 1 else 2 * r + 1).
  assert (Hc : exists xc, child_of r c /\ c < hi /\ d !! (first + c) = Some xc /\
             forall c' y, child_of r c' -> c' < hi -> d !! (first + c') = Some y ->
                          less xc y = false).
  { unfold c. destruct (2 * r + 1 + 1 <? hi) eqn:E2; cbn [andb].
    - apply Nat.ltb_lt in E2.
      destruct (lookup_lt_is_Some_2 d (first + (2 * r + 1) + 1) ltac:(lia)) as [x2 Hx2].
      rewrite (Less_lookup less d _ _ x1 x2 Hx1 Hx2).
      destruct (less x1 x2) eqn:E12.
      + exists x2. split; [right; lia|]. split; [lia|].
        split; [rewrite <- Hx2; f_equal; lia|].
        intros c' y [->| ->] Hc' Hy.
        * rewrite Hx1 in Hy. injection Hy as <-. now apply (less_asym less Hless).
        * replace (first + (2 * r + 2)) with (first + (2 * r + 1) + 1) in Hy by lia.
          rewrite Hx2 in Hy. injection Hy as <-. apply (less_irrefl less Hless).
      + exists x1. split; [left; lia|]. split; [lia|]. split; [trivial|].
        intros c' y [->| ->] Hc' Hy.
        * rewrite Hx1 in Hy. injection Hy as <-. apply (less_irrefl less Hless).
        * replace (first + (2 * r + 2)) with (first + (2 * r + 1) + 1) in Hy by lia.
          rewrite Hx2 in Hy. now injection Hy as <-.
    - apply Nat.ltb_ge in E2. exists x1. split; [left; lia|]. split; [lia|].
      split; [trivial|].
      intros c' y [->| ->] Hc' Hy; [|lia].
      rewrite Hx1 in Hy. injection Hy as <-. apply (less_irrefl less Hless). }
  clearbody c. destruct Hc as (xc & Hcr & Hchi & Hxc & Hmax).
  rewrite (Less_lookup less d _ _ xr xc Hxr Hxc).
  destruct (less xr xc) eqn:Erc; cbn [negb].
  - (* the root goes down *)
    assert (Hsw : forall k, Swap d (first + r) (first + c) !! k =
               if decide (k = first + c) then Some xr
               else if decide (k = first + r) then Some xc else d !! k).
    { intros k. rewrite lookup_Swap by lia. now rewrite Hxr, Hxc. }
    destruct (IH (Swap d (first + r) (first + c)) lo hi c) as [G1 G2].
    + unfold child_of in Hcr. lia.
    + unfold child_of in Hcr. lia.
    + rewrite length_Swap. lia.
    + split.
      * intros p c' x y Hp Hpc Hpc' Hc'. rewrite !Hsw.
        repeat destruct (decide _); try (unfold child_of in *; lia).
        -- intros [= <-] [= <-]. assert (p = r) as -> by lia.
           now apply (less_asym less Hless).
        -- intros [= <-] Hy. assert (p = r) as -> by lia.
           apply (Hmax c' y); trivial.
        -- intros Hx [= <-]. assert (c' = r) as -> by lia.
           apply (H2 p c); trivial.
        -- intros Hx Hy. apply (H1 p c' x y); trivial. lia.
      * intros g c' x y Hg Hgc Hcc' Hc'. rewrite !Hsw.
        repeat destruct (decide _); try (unfold child_of in *; lia).
        intros [= <-] Hy. apply (H1 c c' xc y); trivial; unfold child_of in *; lia.
    + split; [exact G1|].
      eapply within_trans; [|exact G2]. apply within_Swap; unfold child_of in *; lia.
  - (* the root stays *)
    split; [|apply within_refl].
    intros p c' x y Hp Hpc Hc' Hx Hy. destruct (decide (p = r)) as [->|Hne].
    + rewrite Hxr in Hx. injection Hx as <-.
      apply (less_negtrans less Hless xr xc y); trivial. now apply (Hmax c' y).
    + now apply (H1 p c' x y).
Qed.

Lemma siftDown_spec (d : list A) lo hi :
  first + hi <= length d -> heap_but less first lo hi lo d ->
  heap_from less first lo hi (siftDown_func less d lo hi first) /\
  within first (first + hi) d (siftDown_func less d lo hi first).
Proof. intros Hl Hh. apply siftDown_loop_spec; trivial; lia. Qed.

Lemma heap_from_but lo hi (d : list A) :
  heap_from less first (S lo) hi d -> heap_but less first lo hi lo d.
Proof.
  intros H. split.
  - intros p c x y Hp Hne. apply H. lia.
  - intros g c x y Hg Hgc. unfold child_of in Hgc. lia.
Qed.

Lemma heap_build_loop_spec n : forall (d : list A) hi,
  first + hi <= length d -> heap_from less first n hi d ->
  heap_from less first 0 hi (heap_build_loop less n d hi first) /\
  within first (first + hi) d (heap_build_loop less n d hi first).
Proof.
  induction n as [|n IH]; intros d hi Hl Hh; simpl.
  { split; [trivial|apply within_refl]. }
  destruct (siftDown_spec d n hi Hl (heap_from_but _ _ _ Hh)) as [S1 W1].
  destruct (IH (siftDown_func less d n hi first) hi) as [S2 W2]; trivial.
  { rewrite (within_length _ _ _ _ W1). trivial. }
  split; [trivial|]. eapply within_trans; eauto.
Qed.

(** The root of a heap is not less than any of its nodes. *)
Lemma heap_root_max hi (d : list A) r :
  heap_from less first 0 hi d -> d !! first = Some r ->
  forall k x, k < hi -> d !! (first + k) = Some x -> less r x = false.
Proof.
  intros Hh Hr k. induction k as [k IH] using (well_founded_induction lt_wf).
  intros x Hk Hx. destruct k as [|k].
  { rewrite Nat.add_0_r, Hr in Hx. injection Hx as <-. apply (less_irrefl less Hless). }
  pose proof (Nat.div_mod_eq k 2) as Hq.
  pose proof (Nat.mod_upper_bound k 2 ltac:(lia)) as Hm.
  set (p := k / 2) in *.
  assert (Hp : child_of p (S k)) by (unfold child_of; lia).
  assert (exists y, d !! (first + p) = Some y) as [y Hy].
  { apply lookup_lt_is_Some_2. apply lookup_lt_Some in Hx. lia. }
  apply (less_negtrans less Hless r y x).
  - apply (IH p); trivial; lia.
  - apply (Hh p (S k)); trivial. lia.
Qed.

Lemma heap_pop_loop_spec n : forall (d : list A) hi,
  n <= hi -> first + hi <= length d ->
  heap_from less first 0 n d ->
  sorted_range less (first + n) (first + hi) d ->
  (forall k j x y, k < n -> n <= j < hi ->
     d !! (first + k) = Some x -> d !! (first + j) = Some y -> less y x = false) ->
  sorted_range less first (first + hi) (heap_pop_loop less n d first) /\
  within first (first + hi) d (heap_pop_loop less n d first).
Proof.
  induction n as [|n IH]; intros d hi Hn Hl Hh Hs Hc; simpl.
  { rewrite Nat.add_0_r in Hs. split; [trivial|apply within_refl]. }
  destruct (lookup_lt_is_Some_2 d first ltac:(lia)) as [r Hr].
  destruct (lookup_lt_is_Some_2 d (first + n) ltac:(lia)) as [z Hz].
  pose proof (heap_root_max (S n) d r Hh Hr) as Hmax.
  set (d1 := Swap d first (first + n)).
  assert (Hsw : forall k, d1 !! k =
             if decide (k = first + n) then Some r
             else if decide (k = first) then Some z else d !! k).
  { intros k. unfold d1. rewrite lookup_Swap by lia. now rewrite Hr, Hz. }
  assert (W1 : within first (first + S n) d d1) by (apply within_Swap; lia).
  assert (L1 : length d1 = length d) by apply length_Swap.
  destruct (siftDown_spec d1 0 n) as [S2 W2]; [lia| |].
  { split.
    - intros p c x y Hp Hne Hpc Hcn. rewrite !Hsw.
      repeat destruct (decide _); try (unfold child_of in *; lia).
      intros Hx Hy. apply (Hh p c x y); trivial; lia.
    - intros g c x y Hg Hgc. unfold child_of in Hgc. lia. }
  set (d2 := siftDown_func less d1 0 n first) in *.
  assert (W : within first (first + hi) d d2).
  { eapply within_trans; (eapply within_mono; [| |eassumption]); lia. }
  (* every element of the new heap was in the old one *)
  assert (Hold : forall k x, k < n -> d2 !! (first + k) = Some x ->
             exists k', k' <= n /\ d !! (first + k') = Some x).
  { intros k x Hk Hx.
    destruct W2 as (_ & _ & I2). destruct (I2 (first + k) x ltac:(lia) Hx) as (k1 & Hk1 & Hx1).
    rewrite Hsw in Hx1. repeat destruct (decide _); try lia.
    - exists n. split; [lia|]. congruence.
    - exists (k1 - first). split; [lia|]. rewrite <- Hx1. f_equal. lia. }
  assert (Hn2 : d2 !! (first + n) = Some r).
  { unfold d2. rewrite (within_outside _ _ _ _ _ W2) by lia. rewrite Hsw.
    now destruct (decide _). }
  assert (Hrest : forall j, n < j -> d2 !! (first + j) = d !! (first + j)).
  { intros j Hj. unfold d2. rewrite (within_outside _ _ _ _ _ W2) by lia. rewrite Hsw.
    repeat destruct (decide _); trivial; lia. }
  destruct (IH d2 hi) as [G1 G2]; try lia; trivial.
  - rewrite (within_length _ _ _ _ W). lia.
  - apply (sorted_range_join less (first + n) (first + S n)).
    + apply sorted_range_short. lia.
    + intros i j x y Hi Hij Hj.
      replace i with (first + (i - first)) by lia. replace j with (first + (j - first)) by lia.
      rewrite !Hrest by lia. intros Hx Hy. eapply (Hs (first + (i - first)) (first + (j - first))); eauto; lia.
    + intros i j x y Hi Hj. assert (i = first + n) as -> by lia.
      replace j with (first + (j - first)) by lia. rewrite Hn2, Hrest by lia.
      intros [= <-] Hy. apply (Hc 0 (j - first)); [lia|lia| |trivial].
      now rewrite Nat.add_0_r.
  - intros k j x y Hk Hj Hx Hy.
    destruct (Hold k x Hk Hx) as (k' & Hk' & Hx').
    destruct (decide (j = n)) as [->|Hne].
    + rewrite Hn2 in Hy. injection Hy as <-. apply (Hmax k' x); trivial. lia.
    + rewrite Hrest in Hy by lia. apply (Hc k' j); trivial; lia.
  - split; [trivial|]. eapply within_trans; eauto.
Qed.

End GoSortHeap.

Section GoSortHeapSort.
Local Open Scope nat_scope.
Context {A : Type} (less : A -> A -> bool).
Hypothesis Hless : strict_weak_order less.
Import GoSort.

Lemma heapSort_spec (d : list A) a b :
  a <= b -> b <= length d ->
  sorted_range less a b (heapSort_func less d a b) /\
  within a b d (heapSort_func less d a b).
Proof.
  intros Hab Hb. unfold heapSort_func.
  set (hi := b - a).
  destruct (heap_build_loop_spec less Hless a (S ((hi - 1) / 2)) d hi) as [H1 W1]; [lia| |].
  { intros p c x y Hp Hc Hhi.
    pose proof (Nat.div_mod_eq (hi - 1) 2) as Hq.
    pose proof (Nat.mod_upper_bound (hi - 1) 2 ltac:(lia)) as Hm.
    unfold child_of in Hc. lia. }
  set (d1 := heap_build_loop less (S ((hi - 1) / 2)) d hi a) in *.
  destruct (heap_pop_loop_spec less Hless a hi d1 hi) as [H2 W2]; trivial.
  - rewrite (within_length _ _ _ _ W1). lia.
  - apply sorted_range_short. lia.
  - intros; lia.
  - replace (a + hi) with b in * by lia. split; [trivial|].
    eapply within_trans; eauto.
Qed.

End GoSortHeapSort.

Section GoSortQuick.
Local Open Scope nat_scope.
Context {A : Type} (less : A -> A -> bool).
Hypothesis Hless : strict_weak_order less.
Import GoSort.

Lemma sorted_around_pivot a mid b (d : list A) p :
  a <= mid < b -> d !! mid = Some p ->
  sorted_range less a mid d -> sorted_range less (mid + 1) b d ->
  (forall k x, a <= k < mid -> d !! k = Some x -> less x p = true) ->
  (forall k x, mid < k < b -> d !! k = Some x -> less x p = false) ->
  sorted_range less a b d.
Proof.
  intros Hm Hp S1 S2 L R.
  assert (sorted_range less mid b d) as S3.
  { apply (sorted_range_join less mid (mid + 1)); trivial.
    - apply sorted_range_short. lia.
    - intros i j x y Hi Hj Hx Hy. assert (i = mid) as -> by lia.
      rewrite Hp in Hx. injection Hx as <-. apply (R j); trivial. lia. }
  apply (sorted_range_join less a mid); trivial.
  intros i j x y Hi Hj Hx Hy.
  apply (less_asym less Hless). apply (less_notless_trans less Hless x p y).
  - now apply (L i).
  - destruct (decide (j = mid)) as [->|].
    + rewrite Hp in Hy. injection Hy as <-. apply (less_irrefl less Hless).
    + apply (R j); trivial. lia.
Qed.

Lemma sorted_after_equal a mid b (d : list A) p :
  a < mid <= b ->
  sorted_range less mid b d ->
  (forall k x, a <= k < mid -> d !! k = Some x -> less p x = false /\ less x p = false) ->
  (forall k x, mid <= k < b -> d !! k = Some x -> less p x = true) ->
  sorted_range less a b d.
Proof.
  intros Hm S2 L R.
  apply (sorted_range_join less a mid); trivial.
  - intros i j x y Hi Hij Hj Hx Hy.
    apply (less_negtrans less Hless y p x).
    + apply (L j); trivial. lia.
    + apply (L i); trivial. lia.
  - intros i j x y Hi Hj Hx Hy.
    apply (less_asym less Hless). apply (notless_less_trans less Hless x p y).
    + apply (L i); trivial.
    + now apply (R j).
Qed.

Lemma pdqsort_spec fuel : forall (d d' : list A) a b limit wb wp,
  a <= b -> b <= length d -> bounded_below less a b d ->
  pdqsort_func less fuel d a b limit wb wp = Some d' ->
  sorted_range less a b d' /\ within a b d d'.
Proof.
  induction fuel as [|fuel IH]; intros d d' a b limit wb wp Hab Hb Hbb;
    cbn [pdqsort_func]; [discriminate|]. cbv zeta.
  destruct (b - a <=? maxInsertion) eqn:E12.
  { intros [= <-]. now apply insertionSort_spec. }
  apply Nat.leb_gt in E12. unfold maxInsertion in E12.
  destruct (limit =? 0).
  { intros [= <-]. now apply heapSort_spec. }
  set (d1 := if negb wb then (breakPatterns_func d a b, limit - 1) else (d, limit)).
  assert (W1 : within a b d (fst d1)).
  { subst d1. destruct (negb wb); simpl; [now apply breakPatterns_within|apply within_refl]. }
  destruct d1 as [data1 limit1]; simpl in W1.
  pose proof (choosePivot_bounds less data1 a b ltac:(lia)) as Hpv.
  destruct (choosePivot_func less data1 a b) as [pivot hint]. simpl in Hpv.
  set (d2 := match hint with
             | decreasingHint => (reverseRange_func data1 a b, b - 1 - (pivot - a), increasingHint)
             | _ => (data1, pivot, hint) end).
  assert (W2 : within a b data1 (fst (fst d2)) /\ a <= snd (fst d2) < b).
  { subst d2. destruct hint; simpl; try (split; [apply within_refl|lia]).
    split; [apply reverseRange_within|]; lia. }
  destruct d2 as [[data2 pivot2] hint2]; simpl in W2. destruct W2 as [W2 Hpv2].
  assert (Wd2 : within a b d data2) by (eapply within_trans; eauto).
  assert (L2 : length data2 = length d) by apply (within_length _ _ _ _ Wd2).
  set (d3 := match hint2 with
             | increasingHint =>
                 if wb && wp then partialInsertionSort_func less data2 a b else (data2, false)
             | _ => (data2, false) end).
  assert (W3 : within a b data2 (fst d3) /\
               (snd d3 = true -> sorted_range less a b (fst d3))).
  { subst d3. destruct hint2; simpl; try (split; [apply within_refl|discriminate]).
    destruct (wb && wp); simpl; [|split; [apply within_refl|discriminate]].
    apply (partialInsertionSort_spec less Hless); try lia.
    eapply bounded_below_within; [exact Wd2| | |exact Hbb]; lia. }
  destruct d3 as [data3 sorted]; simpl in W3. destruct W3 as [W3 S3].
  assert (Wd3 : within a b d data3) by (eapply within_trans; eauto).
  assert (L3 : length data3 = length d) by apply (within_length _ _ _ _ Wd3).
  assert (B3 : bounded_below less a b data3).
  { eapply bounded_below_within; [exact Wd3| | |exact Hbb]; lia. }
  destruct sorted.
  { intros [= <-]. split; [now apply S3|trivial]. }
  destruct (lookup_lt_is_Some_2 data3 pivot2 ltac:(lia)) as [p Hp].
  destruct ((0 <? a) && negb (Less less data3 (a - 1) pivot2)) eqn:Eeq.
  - (* many elements equal to the pivot *)
    apply andb_prop in Eeq. destruct Eeq as [Ea Eeq]. apply Nat.ltb_lt in Ea.
    destruct B3 as [?|(x0 & Hx0 & Hall)]; [lia|].
    rewrite (Less_lookup less data3 _ _ x0 p Hx0 Hp) in Eeq.
    apply negb_true_iff in Eeq.
    pose proof (partitionEqual_spec less Hless a b p data3 pivot2 Hpv2 ltac:(lia) Hp) as H4.
    destruct (partitionEqual_func less data3 a b pivot2) as [data4 mid].
    destruct H4 as (W4 & Hmid & L4 & R4).
    assert (All4 : forall k y, a <= k < b -> data4 !! k = Some y -> less y p = false).
    { apply (within_Forall a b data3 data4 (fun y => less y p = false) W4).
      intros k y Hk Hy. apply (less_negtrans less Hless y x0 p); trivial.
      now apply (Hall k). }
    intros H. apply IH in H; try lia.
    + destruct H as [S5 W5]. split.
      * apply (sorted_after_equal a mid b d' p); trivial.
        -- intros k x Hk Hx. rewrite (within_outside _ _ _ _ _ W5) in Hx by lia.
           split; [apply (L4 k)|apply (All4 k)]; trivial; lia.
        -- apply (within_Forall mid b data4 d' (fun x => less p x = true) W5).
           intros k x Hk. apply R4. lia.
      * eapply within_trans; [exact Wd3|]. eapply within_trans; [exact W4|].
        eapply within_mono; [| |exact W5]; lia.
    + rewrite (within_length _ _ _ _ W4). lia.
    + right. destruct (lookup_lt_is_Some_2 data4 (mid - 1)) as [x Hx].
      { rewrite (within_length _ _ _ _ W4). lia. }
      exists x. split; trivial. intros k y Hk Hy.
      apply (less_asym less Hless). apply (notless_less_trans less Hless x p y).
      * apply (L4 (mid - 1)); trivial. lia.
      * apply (R4 k); trivial.
  - clear Eeq.
    pose proof (partition_spec less a b p data3 pivot2 Hpv2 ltac:(lia) Hp) as H4.
    destruct (partition_func less data3 a b pivot2) as [[data4 mid] ap].
    destruct H4 as (W4 & Hmid & P4 & L4 & R4).
    assert (Wd4 : within a b d data4) by (eapply within_trans; eauto).
    assert (Len4 : length data4 = length d) by apply (within_length _ _ _ _ Wd4).
    assert (Bl : bounded_below less a mid data4).
    { apply (bounded_below_sub less a b); [lia|].
      eapply bounded_below_within; [exact Wd4| | |exact Hbb]; lia. }
    assert (Br : bounded_below less (mid + 1) b data4).
    { right. exists p. replace (mid + 1 - 1) with mid by lia. split; trivial.
      intros k y Hk. apply R4. lia. }
    (* the two halves, sorted in either order *)
    assert (Hboth : forall dl dr,
               (within a mid data4 dl /\ sorted_range less a mid dl /\
                within (mid + 1) b dl d' /\ sorted_range less (mid + 1) b d') \/
               (within (mid + 1) b data4 dr /\ sorted_range less (mid + 1) b dr /\
                within a mid dr d' /\ sorted_range less a mid d') ->
               sorted_range less a b d' /\ within a b d d').
    { intros dl dr Hcase.
      assert (Hw : exists dm, (within a mid data4 dm /\ within (mid + 1) b dm d') \/
                              (within (mid + 1) b data4 dm /\ within a mid dm d')).
      { destruct Hcase as [(H1 & _ & H2 & _)|(H1 & _ & H2 & _)]; eauto. }
      assert (Wlr : within a b data4 d').
      { destruct Hw as [dm [[H1 H2]|[H1 H2]]];
          (eapply within_trans; [eapply within_mono; [| |exact H1]|
                                 eapply within_mono; [| |exact H2]]); lia. }
      assert (Sl : sorted_range less a mid d').
      { destruct Hcase as [(H1 & H2 & H3 & H4)|(H1 & H2 & H3 & H4)]; trivial.
        eapply sorted_range_outside; [exact H3| |exact H2]. lia. }
      assert (Sr : sorted_range less (mid + 1) b d').
      { destruct Hcase as [(H1 & H2 & H3 & H4)|(H1 & H2 & H3 & H4)]; trivial.
        eapply sorted_range_outside; [exact H3| |exact H2]. lia. }
      assert (Pm : d' !! mid = Some p).
      { destruct Hw as [dm [[H1 H2]|[H1 H2]]];
          rewrite (within_outside _ _ _ _ _ H2) by lia;
          rewrite (within_outside _ _ _ _ _ H1) by lia; trivial. }
      assert (Ll : forall k x, a <= k < mid -> d' !! k = Some x -> less x p = true).
      { destruct Hw as [dm [[H1 H2]|[H1 H2]]].
        - intros k x Hk Hx. rewrite (within_outside _ _ _ _ _ H2) in Hx by lia.
          revert k x Hk Hx. apply (within_Forall a mid data4 dm _ H1). trivial.
        - apply (within_Forall a mid dm d' _ H2).
          intros k x Hk Hx. rewrite (within_outside _ _ _ _ _ H1) in Hx by lia.
          now apply (L4 k). }
      assert (Rr : forall k x, mid < k < b -> d' !! k = Some x -> less x p = false).
      { destruct Hw as [dm [[H1 H2]|[H1 H2]]].
        - intros k x Hk. revert k x Hk.
          assert (forall k x, mid + 1 <= k < b -> d' !! k = Some x -> less x p = false) as Hr.
          { apply (within_Forall (mid + 1) b dm d' _ H2).
            intros k x Hk Hx. rewrite (within_outside _ _ _ _ _ H1) in Hx by lia.
            apply (R4 k); trivial. lia. }
          intros k x Hk. apply Hr. lia.
        - intros k x Hk Hx. rewrite (within_outside _ _ _ _ _ H2) in Hx by lia.
          assert (forall k x, mid + 1 <= k < b -> dm !! k = Some x -> less x p = false) as Hr.
          { apply (within_Forall (mid + 1) b data4 dm _ H1).
            intros k' x' Hk'. apply R4. lia. }
          apply (Hr k); trivial. lia. }
      split; [|eapply within_trans; eauto].
      apply (sorted_around_pivot a mid b d' p); trivial. }
    destruct (mid - a <? b - mid).
    + destruct (pdqsort_func less fuel data4 a mid limit1 true true) as [data5|] eqn:E5;
        [|discriminate].
      apply IH in E5; trivial; try lia. destruct E5 as [S5 W5].
      intros H. apply IH in H; try lia.
      * destruct H as [S6 W6]. apply (Hboth data5 data5). left. auto.
      * rewrite (within_length _ _ _ _ W5). lia.
      * right. exists p. replace (mid + 1 - 1) with mid by lia.
        rewrite (within_outside _ _ _ _ _ W5) by lia. split; trivial.
        intros k y Hk Hy. rewrite (within_outside _ _ _ _ _ W5) in Hy by lia.
        apply (R4 k); trivial. lia.
    + destruct (pdqsort_func less fuel data4 (mid + 1) b limit1 true true) as [data5|] eqn:E5;
        [|discriminate].
      apply IH in E5; trivial; try lia. destruct E5 as [S5 W5].
      intros H. apply IH in H; try lia.
      * destruct H as [S6 W6]. apply (Hboth data5 data5). right. auto.
      * rewrite (within_length _ _ _ _ W5). lia.
      * apply (bounded_below_sub less a b); [lia|].
        eapply bounded_below_within; [exact W5| | |]; [lia|lia|].
        eapply bounded_below_within; [exact Wd4| | |exact Hbb]; lia.
Qed.

End GoSortQuick.

Section GoSortSlice.
Local Open Scope nat_scope.
Context {A : Type} (less : A -> A -> bool).
Hypothesis Hless : strict_weak_order less.
Import GoSort.

Lemma Slice_sorted (data : list A) : ordered less (Slice less data).
Proof.
  pose proof (Slice_returns less data) as H.
  apply (pdqsort_spec less Hless) in H; [|lia|lia|now left].
  destruct H as [S W]. intros i j x y Hij Hx Hy.
  apply (S i j x y); trivial; [lia|].
  apply lookup_lt_Some in Hy. now rewrite length_Slice in Hy.
Qed.

Lemma Slice_idempotent (data : list A) :
  Slice less (Slice less data) = Slice less data.
Proof. apply Slice_ordered, Slice_sorted. Qed.

Lemma ordered_take_drop n (data : list A) x y :
  ordered less data -> In x (take n data) -> In y (drop n data) -> less y x = false.
Proof.
  intros Ho Hx Hy.
  apply list_elem_of_In, list_elem_of_lookup in Hx. destruct Hx as [i Hi].
  apply list_elem_of_In, list_elem_of_lookup in Hy. destruct Hy as [j Hj].
  rewrite lookup_drop in Hj.
  pose proof (lookup_lt_Some _ _ _ Hi) as Li. rewrite length_take in Li.
  rewrite lookup_take_lt in Hi by lia.
  apply (Ho i (n + j) x y); trivial. lia.
Qed.

Lemma ordered_Sorted (R : A -> A -> Prop) (data : list A) :
  (forall x y, less y x = false -> R x y) ->
  ordered less data -> Sorted R data.
Proof.
  intros HR. induction data as [|x l IH]; intros Ho; constructor.
  - apply IH. intros i j u v Hij Hu Hv. apply (Ho (S i) (S j)); trivial. lia.
  - destruct l as [|y l]; constructor. apply HR. apply (Ho 0 1); trivial. lia.
Qed.

End GoSortSlice.

(** The comparisons of the planner are strict weak orders. *)
Lemma byTimestamp_order : strict_weak_order byTimestamp.
Proof.
  unfold byTimestamp, Before. split.
  - intros x. apply Z.ltb_irrefl.
  - intros x y z H1 H2. apply Z.ltb_lt in H1, H2. apply Z.ltb_lt. lia.
  - intros x y z H1 H2. apply Z.ltb_ge in H1, H2. apply Z.ltb_ge. lia.
Qed.

Lemma Qlt_bool_iff x y : Qlt_bool x y = true <-> (x < y)%Q.
Proof.
  unfold Qlt_bool. rewrite negb_true_iff. split.
  - intros H. apply Qnot_le_lt. intros Hle. apply Qle_bool_iff in Hle. congruence.
  - intros H. destruct (Qle_bool y x) eqn:E; trivial.
    apply Qle_bool_iff in E. exfalso. apply (Qlt_not_le _ _ H E).
Qed.

Lemma Qlt_bool_false x y : Qlt_bool x y = false <-> (y <= x)%Q.
Proof.
  unfold Qlt_bool. rewrite negb_false_iff. apply Qle_bool_iff.
Qed.

Lemma byPriceAscending_order : strict_weak_order byPriceAscending.
Proof.
  unfold byPriceAscending. split.
  - intros x. apply Qlt_bool_false. apply Qle_refl.
  - intros x y z H1 H2. apply Qlt_bool_iff in H1, H2. apply Qlt_bool_iff.
    eapply Qlt_trans; eauto.
  - intros x y z H1 H2. apply Qlt_bool_false in H1, H2. apply Qlt_bool_false.
    eapply Qle_trans; eauto.
Qed.

Lemma byPriceDescending_order : strict_weak_order byPriceDescending.
Proof.
  unfold byPriceDescending. split.
  - intros x. apply Qlt_bool_false. apply Qle_refl.
  - intros x y z H1 H2. apply Qlt_bool_iff in H1, H2. apply Qlt_bool_iff.
    eapply Qlt_trans; eauto.
  - intros x y z H1 H2. apply Qlt_bool_false in H1, H2. apply Qlt_bool_false.
    eapply Qle_trans; eauto.
Qed.

Lemma Slice_chronological slots : chronological (GoSort.Slice byTimestamp slots).
Proof.
  apply (ordered_Sorted byTimestamp).
  - intros x y Hxy. unfold byTimestamp, Before in Hxy. now apply Z.ltb_ge in Hxy.
  - apply Slice_sorted, byTimestamp_order.
Qed.

(** ** The schedule and its selections *)

Lemma truncate_exact c max c' :
  truncate c max = Returned c' ->
  c' = take (Z.to_nat max) c /\ 0 <= max /\
  Z.of_nat (length c') = Z.min (Z.of_nat (length c)) max.
Proof.
  unfold truncate. destruct (max <? Z.of_nat (length c)) eqn:E.
  - destruct (max <? 0) eqn:E0; [discriminate|]. intros [= <-].
    apply Z.ltb_lt in E. apply Z.ltb_ge in E0.
    split; [reflexivity|]. split; [trivial|]. rewrite length_take. lia.
  - intros [= <-]. apply Z.ltb_ge in E.
    split; [|lia]. rewrite take_ge; [reflexivity|lia].
Qed.

Lemma future_slots_idempotent prices now :
  future_slots (future_slots prices now) now = future_slots prices now.
Proof.
  rewrite !future_slots_filter. induction prices as [|p prices IH]; simpl; trivial.
  destruct (now <=? Timestamp p) eqn:E; simpl; [rewrite E|]; now rewrite ?IH.
Qed.

Lemma future_slots_past past prices now :
  (forall s, In s past -> Timestamp s < now) ->
  future_slots (past ++ prices) now = future_slots prices now.
Proof.
  intros Hp. rewrite !future_slots_filter, List.filter_app.
  assert (List.filter (fun p => now <=? Timestamp p) past = []) as ->; trivial.
  induction past as [|p past IH]; simpl; trivial.
  destruct (now <=? Timestamp p) eqn:E.
  - apply Z.leb_le in E. specialize (Hp p (or_introl eq_refl)). lia.
  - apply IH. intros s Hs. apply Hp. now right.
Qed.

Section PlannerSelection.

Variable formatRFC3339 : Time -> string.
Variable int_of_unrepresentable : float64 -> Z.

Local Abbreviation Build := (BuildBatterySchedule formatRFC3339 int_of_unrepresentable).
Local Abbreviation infer := (inferResolutionMinutes int_of_unrepresentable).
Local Abbreviation slots_for := (slotsForHours int_of_unrepresentable).
Local Abbreviation group := (groupConsecutiveSlots formatRFC3339).

(** Grouping leaves a chronological list as it is. *)
Lemma group_sorted_slots slots resolution :
  snd (group (GoSort.Slice byTimestamp slots) resolution) = GoSort.Slice byTimestamp slots.
Proof.
  rewrite group_slots.
  destruct (GoSort.Slice byTimestamp slots) eqn:E; trivial.
  rewrite <- E. apply (Slice_idempotent byTimestamp byTimestamp_order).
Qed.

(** A returned schedule on a non-empty future, in terms of the two
    selections. *)
Lemma Build_returned prices params now sched :
  future_slots prices now <> [] ->
  Build prices params now = Returned sched ->
  let future := future_slots prices now in
  let resolution := infer future in
  exists cc dc,
    selectCharge int_of_unrepresentable params future resolution = Returned cc /\
    selectDischarge int_of_unrepresentable params future resolution = Returned dc /\
    ResolutionMinutes sched = Some resolution /\
    ChargeSlots sched = toSlotJSON formatRFC3339 (GoSort.Slice byTimestamp cc) /\
    DischargeSlots sched = toSlotJSON formatRFC3339 (GoSort.Slice byTimestamp dc) /\
    ChargeIntervals sched = fst (group (GoSort.Slice byTimestamp cc) resolution) /\
    DischargeIntervals sched = fst (group (GoSort.Slice byTimestamp dc) resolution).
Proof.
  intros Hf HB future resolution. rewrite Build_future in HB by trivial.
  cbv zeta in HB. fold future resolution in HB.
  destruct (selectCharge _ _ _ _) as [cc|] eqn:Ec; [|discriminate].
  destruct (selectDischarge _ _ _ _) as [dc|] eqn:Ed; [|discriminate].
  simpl in HB. injection HB as <-. simpl.
  exists cc, dc. rewrite !group_sorted_slots. repeat split; trivial.
Qed.

(** What a selection is, given the ranked candidates. *)
Lemma select_ranked (less : PriceSlot -> PriceSlot -> bool) cands budget selected :
  truncate (GoSort.Slice less cands) budget = Returned selected ->
  0 <= budget /\
  Permutation (GoSort.Slice byTimestamp selected ++
               drop (Z.to_nat budget) (GoSort.Slice less cands)) cands /\
  Permutation (GoSort.Slice byTimestamp selected)
    (take (Z.to_nat budget) (GoSort.Slice less cands)) /\
  Z.of_nat (length (GoSort.Slice byTimestamp selected)) =
    Z.min (Z.of_nat (length cands)) budget.
Proof.
  intros H. apply truncate_exact in H. destruct H as (-> & Hb & Hl).
  split; [trivial|].
  assert (Permutation (GoSort.Slice byTimestamp
                         (take (Z.to_nat budget) (GoSort.Slice less cands)))
            (take (Z.to_nat budget) (GoSort.Slice less cands))) as HP
    by apply Slice_Permutation.
  split; [|split; [exact HP|]].
  - rewrite HP, take_drop. apply Slice_Permutation.
  - rewrite length_Slice, <- (length_Slice less cands). lia.
Qed.

End PlannerSelection.

Section PlannerSchedule.

Variable formatRFC3339 : Time -> string.
Variable int_of_unrepresentable : float64 -> Z.

Local Abbreviation Build := (BuildBatterySchedule formatRFC3339 int_of_unrepresentable).
Local Abbreviation infer := (inferResolutionMinutes int_of_unrepresentable).
Local Abbreviation slots_for := (slotsForHours int_of_unrepresentable).
Local Abbreviation group := (groupConsecutiveSlots formatRFC3339).

(** X1.  The two slot lists of a returned schedule are in chronological
    order: they render lists of slots with ascending timestamps, which hold
    the slots of the two selections. *)
Theorem chronological_output prices params now sched :
  future_slots prices now <> [] ->
  BuildBatterySchedule formatRFC3339 int_of_unrepresentable prices params now =
    Returned sched ->
  let future := future_slots prices now in
  let resolution := inferResolutionMinutes int_of_unrepresentable future in
  exists charge discharge selectedCharge selectedDischarge,
    selectCharge int_of_unrepresentable params future resolution =
      Returned selectedCharge /\
    selectDischarge int_of_unrepresentable params future resolution =
      Returned selectedDischarge /\
    Permutation charge selectedCharge /\
    Permutation discharge selectedDischarge /\
    ChargeSlots sched = toSlotJSON formatRFC3339 charge /\
    DischargeSlots sched = toSlotJSON formatRFC3339 discharge /\
    chronological charge /\ chronological discharge.
Proof.
  intros Hf HB future resolution.
  destruct (Build_returned _ _ prices params now sched Hf HB)
    as (cc & dc & Ec & Ed & _ & Hc & Hd & _).
  exists (GoSort.Slice byTimestamp cc), (GoSort.Slice byTimestamp dc), cc, dc.
  repeat split; trivial; try apply Slice_Permutation; apply Slice_chronological.
Qed.


(** X3.  A returned schedule uses its budgets in full: each slot list has
    as many slots as the budget of its side allows, or all candidates of the
    side when these are fewer. *)
Theorem selected_slot_count prices params now sched :
  future_slots prices now <> [] ->
  BuildBatterySchedule formatRFC3339 int_of_unrepresentable prices params now =
    Returned sched ->
  let future := future_slots prices now in
  let resolution := inferResolutionMinutes int_of_unrepresentable future in
  Z.of_nat (length (elems_of (ChargeSlots sched))) =
    Z.min (Z.of_nat (length (fst (candidates params future))))
          (slotsForHours int_of_unrepresentable (MaxChargeHours params) resolution) /\
  Z.of_nat (length (elems_of (DischargeSlots sched))) =
    Z.min (Z.of_nat (length (snd (candidates params future))))
          (slotsForHours int_of_unrepresentable (MaxDischargeHours params) resolution).
Proof.
  intros Hf HB future resolution.
  destruct (Build_returned _ _ prices params now sched Hf HB)
    as (cc & dc & Ec & Ed & _ & Hc & Hd & _).
  fold future resolution in Ec, Ed. unfold selectCharge in Ec. unfold selectDischarge in Ed.
  destruct (select_ranked _ _ _ _ Ec) as (_ & _ & _ & Lc).
  destruct (select_ranked _ _ _ _ Ed) as (_ & _ & _ & Ld).
  rewrite Hc, Hd. simpl. now rewrite !length_map.
Qed.

(** Grouping a chronological list: its intervals summarize its maximal
    runs. *)
Lemma group_runs slots resolutionMinutes :
  chronological slots ->
  exists runs,
    maximal_runs (resolution_step resolutionMinutes) slots runs /\
    Forall2 (summarizes formatRFC3339 (resolution_step resolutionMinutes))
      (elems_of (fst (group slots resolutionMinutes))) runs.
Proof.
  intros Hc. set (step := resolution_step resolutionMinutes).
  destruct slots as [|first rest].
  { exists []. split; constructor. }
  unfold groupConsecutiveSlots.
  rewrite (Slice_ordered byTimestamp _ (chronological_ordered _ Hc)).
  fold step.
  destruct (group_loop_runs step (proj2 (resolution_step_range resolutionMinutes))
              rest first [] [first] Hc (run_single step first) eq_refl)
    as (G & final & HG & HM).
  rewrite HG. simpl app in *.
  exists (G ++ [final]). split; [exact HM|].
  pose proof (intervals_loop_summarizes formatRFC3339 step (G ++ [final])) as HF.
  assert (Forall (fun r => r <> []) (G ++ [final])) as Hne.
  { eapply Forall_impl; [apply (maximal_runs_Forall _ _ _ HM)|].
    intros r. apply run_nonempty. }
  specialize (HF Hne). cbn [fst].
  destruct (intervals_loop formatRFC3339 step (G ++ [final])); exact HF.
Qed.


End PlannerSchedule.

(** ** Resolution and budgets *)

Lemma minute_deltas_gaps prices : minute_deltas prices = List.map Minutes (gaps prices).
Proof.
  induction prices as [|prev rest IH]; trivial.
  destruct rest as [|cur rest]; trivial.
  change (minute_deltas (prev :: cur :: rest))
    with (Minutes (Sub (Timestamp cur) (Timestamp prev)) :: minute_deltas (cur :: rest)).
  now rewrite IH.
Qed.

Lemma filter_length_Permutation {A} (f : A -> bool) (l1 l2 : list A) :
  Permutation l1 l2 -> length (List.filter f l1) = length (List.filter f l2).
Proof.
  induction 1 as [|x l1 l2 H IH|x y l|l1 l2 l3 H1 IH1 H2 IH2]; simpl; trivial.
  - destruct (f x); simpl; now rewrite IH.
  - destruct (f x), (f y); trivial.
  - congruence.
Qed.

Lemma filter_length_map {A B} (g : A -> bool) (f : B -> bool) (h : A -> B) (l : list A) :
  (forall x, g x = true -> f (h x) = true) ->
  (length (List.filter g l) <= length (List.filter f (List.map h l)))%nat.
Proof.
  intros H. induction l as [|x l IH]; simpl; trivial.
  destruct (g x) eqn:E.
  - rewrite (H x E). simpl. lia.
  - destruct (f (h x)); simpl; lia.
Qed.

Lemma filter_length_le {A} (f : A -> bool) (l : list A) :
  (length (List.filter f l) <= length l)%nat.
Proof. induction l as [|x l IH]; simpl; trivial. destruct (f x); simpl; lia. Qed.

Lemma filter_none {A} (f : A -> bool) (l : list A) :
  (forall j x, l !! j = Some x -> f x = false) -> List.filter f l = [].
Proof.
  induction l as [|x l IH]; intros H; simpl; trivial.
  rewrite (H 0%nat x eq_refl). apply IH. intros j y Hy. apply (H (S j) y Hy).
Qed.

Lemma Sorted_lookup_le (l : list Q) i j x y :
  Sorted Qle l -> (i <= j)%nat -> l !! i = Some x -> l !! j = Some y -> (x <= y)%Q.
Proof.
  intros Hs. apply Sorted_StronglySorted in Hs; [|intros a b c; apply Qle_trans].
  revert i j. induction Hs as [|a l Hs IH Ha]; intros i j Hij Hx Hy; [discriminate|].
  destruct i as [|i], j as [|j]; simpl in *; try lia.
  - injection Hx as <-. injection Hy as <-. apply Qle_refl.
  - injection Hx as <-. rewrite Forall_forall in Ha. apply Ha.
    eapply list_elem_of_lookup_2; eauto.
  - apply (IH i j); trivial. lia.
Qed.

Lemma filter_length_split {A} (f : A -> bool) m (l : list A) :
  length (List.filter f l) =
  (length (List.filter f (take m l)) + length (List.filter f (drop m l)))%nat.
Proof. now rewrite <- length_app, <- List.filter_app, take_drop. Qed.

(** In an increasing list, a value that more than half of the elements
    have fills the middle. *)
Lemma sorted_majority_lookup (v : Q) (l : list Q) i x :
  Sorted Qle l ->
  (length l - length (List.filter (Qeq_bool v) l) <= i)%nat ->
  (i < length (List.filter (Qeq_bool v) l))%nat ->
  l !! i = Some x -> (x == v)%Q.
Proof.
  intros Hs H1 H2 Hx.
  pose proof (lookup_lt_Some _ _ _ Hx) as Hi.
  destruct (Qlt_le_dec x v) as [Hlt|Hge].
  - exfalso.
    rewrite (filter_length_split (Qeq_bool v) (S i) l) in H1, H2.
    assert (List.filter (Qeq_bool v) (take (S i) l) = []) as E0.
    { apply filter_none. intros j y Hy.
      pose proof (lookup_lt_Some _ _ _ Hy) as Lj. rewrite length_take in Lj.
      rewrite lookup_take_lt in Hy by lia.
      pose proof (Sorted_lookup_le l j i y x Hs ltac:(lia) Hy Hx) as Hle.
      destruct (Qeq_bool v y) eqn:E; trivial. apply Qeq_bool_iff in E.
      exfalso. rewrite <- E in Hle. apply (Qlt_not_le _ _ Hlt Hle). }
    rewrite E0 in H1, H2.
    pose proof (filter_length_le (Qeq_bool v) (drop (S i) l)) as Hl.
    rewrite length_drop in Hl. simpl in H1, H2. lia.
  - destruct (Qeq_dec x v) as [Heq|Hne]; trivial. exfalso.
    assert (v < x)%Q as Hlt.
    { apply Qnot_le_lt. intros Hle. apply Hne. now apply Qle_antisym. }
    rewrite (filter_length_split (Qeq_bool v) i l) in H2.
    rewrite (filter_none (Qeq_bool v) (drop i l)) in H2.
    + pose proof (filter_length_le (Qeq_bool v) (take i l)) as Hl.
      rewrite length_take in Hl. simpl in H2. lia.
    + intros j y Hy. rewrite lookup_drop in Hy.
      pose proof (Sorted_lookup_le l i (i + j) x y Hs ltac:(lia) Hx Hy) as Hle.
      destruct (Qeq_bool v y) eqn:E; trivial. apply Qeq_bool_iff in E.
      exfalso. rewrite <- E in Hle. apply (Qlt_not_le _ _ Hlt Hle).
Qed.

Lemma sorted_majority_median (v : Q) (l : list Q) :
  Sorted Qle l ->
  (length l < 2 * length (List.filter (Qeq_bool v) l))%nat ->
  (statistical_median l == v)%Q.
Proof.
  intros Hs Hm.
  pose proof (filter_length_le (Qeq_bool v) l) as Hle.
  set (n := length l) in *. set (c := length (List.filter (Qeq_bool v) l)) in *.
  pose proof (Nat.div_mod_eq n 2) as Hq.
  pose proof (Nat.mod_upper_bound n 2 ltac:(lia)) as Hr.
  assert (Hnth : forall i, (n - c <= i)%nat -> (i < c)%nat -> (nth i l 0 == v)%Q).
  { intros i H1 H2.
    destruct (lookup_lt_is_Some_2 l i ltac:(fold n; lia)) as [x Hx].
    rewrite (nth_lookup_Some _ _ _ _ Hx).
    apply (sorted_majority_lookup v l i x); trivial. }
  unfold statistical_median. fold n. rewrite even_mod2.
  destruct (n mod 2 =? 0)%nat eqn:E.
  - apply Nat.eqb_eq in E. rewrite !Hnth by lia. field.
  - apply Nat.eqb_neq in E. apply Hnth; lia.
Qed.

Section PlannerInference.

Variable formatRFC3339 : Time -> string.
Variable int_of_unrepresentable : float64 -> Z.

Local Abbreviation Build := (BuildBatterySchedule formatRFC3339 int_of_unrepresentable).
Local Abbreviation infer := (inferResolutionMinutes int_of_unrepresentable).
Local Abbreviation slots_for := (slotsForHours int_of_unrepresentable).

(** X5.  The inferred resolution is robust to irregular gaps: when more
    than half of the gaps between consecutive slots are exactly [k]
    minutes, the result is [k], whatever the other gaps are. *)
Theorem resolution_of_majority prices (k : Z) :
  (length (gaps prices) <
   2 * length (List.filter (fun d => (d =? k * Minute)%Z) (gaps prices)))%nat ->
  inferResolutionMinutes int_of_unrepresentable prices = k.
Proof.
  intros Hm.
  assert (2 <= length prices)%nat as Hl.
  { destruct prices as [|p [|q prices]]; simpl in *; lia. }
  enough (k <= infer prices <= k) by lia.
  apply (Round_bounds (statistical_median (Float64s (minute_deltas prices)))).
  2:{ now apply infer_Round. }
  assert (statistical_median (Float64s (minute_deltas prices)) == inject_Z k)%Q as ->.
  2:{ split; apply Qle_refl. }
  apply sorted_majority_median; [apply Float64s_Sorted|].
  rewrite Float64s_length.
  rewrite (filter_length_Permutation _ _ _ (Float64s_Permutation (minute_deltas prices))).
  rewrite minute_deltas_gaps, length_map.
  eapply Nat.lt_le_trans; [exact Hm|].
  apply Nat.mul_le_mono_l. apply filter_length_map.
  intros d Hd. apply Z.eqb_eq in Hd. subst d.
  apply Qeq_bool_iff. symmetry. apply Minutes_minute.
Qed.

(** X6.  The inferred resolution is never outside the gaps observed: when
    every gap between consecutive slots is between [a] and [b] minutes, so
    is the result. *)
Theorem resolution_within_gaps prices (a b : Z) :
  (2 <= length prices)%nat ->
  Forall (fun d => a * Minute <= d <= b * Minute) (gaps prices) ->
  a <= inferResolutionMinutes int_of_unrepresentable prices <= b.
Proof.
  intros Hl Hg.
  apply (Round_bounds (statistical_median (Float64s (minute_deltas prices)))).
  2:{ now apply infer_Round. }
  apply statistical_median_bounds; [now apply sorted_deltas_nonempty|].
  apply Float64s_Forall. rewrite minute_deltas_gaps.
  apply Forall_map. eapply Forall_impl; [exact Hg|].
  intros d [H1 H2]. simpl.
  rewrite <- (Minutes_minute a), <- (Minutes_minute b).
  split; now apply Minutes_le.
Qed.


End PlannerInference.

(** ** Edges of the builder *)

Section PlannerEdges.

Variable formatRFC3339 : Time -> string.
Variable int_of_unrepresentable : float64 -> Z.

Local Abbreviation Build := (BuildBatterySchedule formatRFC3339 int_of_unrepresentable).
Local Abbreviation infer := (inferResolutionMinutes int_of_unrepresentable).
Local Abbreviation slots_for := (slotsForHours int_of_unrepresentable).


(** X9.  Slots before [now] never influence the result: the builder gives
    the same outcome on the future slots alone, and on the input with any
    past slots put in front. *)
Theorem past_slots_ignored prices params now :
  BuildBatterySchedule formatRFC3339 int_of_unrepresentable
    (future_slots prices now) params now =
  BuildBatterySchedule formatRFC3339 int_of_unrepresentable prices params now /\
  forall past,
    (forall s, In s past -> Timestamp s < now) ->
    BuildBatterySchedule formatRFC3339 int_of_unrepresentable (past ++ prices) params now =
    BuildBatterySchedule formatRFC3339 int_of_unrepresentable prices params now.
Proof.
  split.
  - unfold BuildBatterySchedule. now rewrite future_slots_idempotent.
  - intros past Hp. unfold BuildBatterySchedule. now rewrite future_slots_past.
Qed.

(** X10.  The builder fails in one way only: it panics exactly when there
    is a future slot and the slot budget of one side is negative. *)
Theorem Build_panics_exactly prices params now :
  let future := future_slots prices now in
  let resolution := inferResolutionMinutes int_of_unrepresentable future in
  BuildBatterySchedule formatRFC3339 int_of_unrepresentable prices params now = Panicked <->
  future <> [] /\
  (slotsForHours int_of_unrepresentable (MaxChargeHours params) resolution < 0 \/
   slotsForHours int_of_unrepresentable (MaxDischargeHours params) resolution < 0).
Proof.
  intros future resolution.
  destruct (future_slots prices now) as [|p rest] eqn:E.
  - subst future. split; [|intros [H _]; congruence].
    unfold BuildBatterySchedule. rewrite E. discriminate.
  - assert (future_slots prices now <> []) as Hf by congruence.
    rewrite (Build_panics_iff _ _ prices params now Hf).
    subst future resolution. cbv zeta. rewrite E.
    split; [intros H; split; [discriminate|exact H]|intros [_ H]; exact H].
Qed.

(** X11.  Slots handed over newest first make the builder panic: when the
    future slots are two or more, each [k] minutes before the one in front
    of it, the inferred resolution is [-k], and an hour budget of at
    least [k] minutes becomes a negative slot budget. *)
Theorem descending_input_panics prices params now (k : Z) :
  let future := future_slots prices now in
  (2 <= length future)%nat ->
  0 < k ->
  spaced (- k) future ->
  (inject_Z k <= MaxChargeHours params * 60)%Q ->
  in_int64 (Qceiling (MaxChargeHours params * 60 / inject_Z (- k))) = true ->
  inferResolutionMinutes int_of_unrepresentable future = - k /\
  slotsForHours int_of_unrepresentable (MaxChargeHours params) (- k) <= -1 /\
  BuildBatterySchedule formatRFC3339 int_of_unrepresentable prices params now = Panicked.
Proof.
  intros future Hl Hk Hs Hh Hi.
  assert (infer future = - k) as Hr.
  { enough (- k <= infer future <= - k) by lia.
    apply infer_bounds; trivial.
    intros i prev cur Hp Hc. rewrite (Hs i prev cur Hp Hc), Minutes_minute. lra. }
  assert (slots_for (MaxChargeHours params) (- k) <= -1) as Hb.
  { rewrite slotsForHours_ceiling by (trivial; lia).
    change (-1) with (Qceiling (inject_Z (-1))).
    apply Qceiling_resp_le.
    assert (0 < inject_Z k)%Q as Hpos.
    { change 0%Q with (inject_Z 0). now rewrite <- Zlt_Qlt. }
    rewrite inject_Z_opp.
    assert (MaxChargeHours params * 60 / - inject_Z k ==
            - (MaxChargeHours params * 60 / inject_Z k))%Q as ->.
    { field. intros E. rewrite E in Hpos. now apply Qlt_irrefl in Hpos. }
    change (inject_Z (-1)) with (- (1))%Q. apply Qopp_le_compat.
    apply Qle_shift_div_l; trivial. lra. }
  split; [trivial|]. split; [trivial|].
  apply Build_panics_iff.
  - intros E. fold future in E. rewrite E in Hl. simpl in Hl. lia.
  - fold future. rewrite Hr. left. lia.
Qed.

End PlannerEdges.

Section PlannerTotal.

Variable formatRFC3339 : Time -> string.
Variable int_of_unrepresentable : float64 -> Z.

Local Abbreviation Build := (BuildBatterySchedule formatRFC3339 int_of_unrepresentable).
Local Abbreviation infer := (inferResolutionMinutes int_of_unrepresentable).
Local Abbreviation slots_for := (slotsForHours int_of_unrepresentable).

Lemma slot_budget_in_range maxHours resolution :
  (0 <= maxHours <= 1000000000000000)%Q -> 1 <= resolution ->
  0 <= slotsForHours int_of_unrepresentable maxHours resolution.
Proof.
  intros [H0 H1] Hr.
  pose proof (ceiling_budget_nonneg maxHours resolution H0 ltac:(lia)) as Hn.
  rewrite slotsForHours_ceiling; trivial; [lia|].
  assert (0 < inject_Z resolution)%Q as Hpos.
  { change 0%Q with (inject_Z 0). rewrite <- Zlt_Qlt. lia. }
  assert (1 <= inject_Z resolution)%Q as Hone.
  { change 1%Q with (inject_Z 1). now rewrite <- Zle_Qle. }
  assert (Qceiling (maxHours * 60 / inject_Z resolution) <= 60000000000000000) as Hc.
  { change 60000000000000000 with (Qceiling (inject_Z 60000000000000000)).
    apply Qceiling_resp_le. apply Qle_shift_div_r; trivial.
    change (inject_Z 60000000000000000) with (60000000000000000 # 1)%Q. nra. }
  unfold in_int64, minInt64, maxInt64.
  apply andb_true_intro. split; apply Z.leb_le; lia.
Qed.

(** X12.  The builder returns a schedule on every input whose future slots
    are in order and at least half a minute apart, for hour budgets from 0
    to 10^15: on such input the inferred resolution is positive and no slot
    budget is negative. *)
Theorem Build_returns_on_spaced prices params now :
  (forall i prev cur,
      future_slots prices now !! i = Some prev ->
      future_slots prices now !! S i = Some cur ->
      30 * Second <= Sub (Timestamp cur) (Timestamp prev)) ->
  (0 <= MaxChargeHours params <= 1000000000000000)%Q ->
  (0 <= MaxDischargeHours params <= 1000000000000000)%Q ->
  exists sched,
    BuildBatterySchedule formatRFC3339 int_of_unrepresentable prices params now =
      Returned sched.
Proof.
  intros Hgap Hc Hd.
  destruct (future_slots prices now) as [|p rest] eqn:E.
  { unfold BuildBatterySchedule. rewrite E. simpl. eauto. }
  assert (future_slots prices now <> []) as Hf by congruence.
  rewrite <- E in Hgap.
  pose proof (infer_positive int_of_unrepresentable _ Hgap) as Hr.
  apply Build_returns; trivial; apply slot_budget_in_range; trivial.
Qed.

End PlannerTotal.

(** ** The calendar *)

Lemma cycle_range_ok_all k : forall lo doe,
  cycle_range_ok k lo = true ->
  lo <= doe < lo + 2 ^ Z.of_nat k -> doe < 146097 -> cycle_day_ok doe = true.
Proof.
  induction k as [|k IH]; intros lo doe H Hr Hd.
  - simpl in H, Hr. assert (doe = lo) as -> by lia.
    apply orb_prop in H. destruct H as [H|H]; trivial. apply Z.leb_le in H. lia.
  - cbn [cycle_range_ok] in H. apply andb_prop in H. destruct H as [H1 H2].
    rewrite Nat2Z.inj_succ, Z.pow_succ_r in Hr by lia.
    destruct (Z_lt_le_dec doe (lo + 2 ^ Z.of_nat k)).
    + apply (IH lo); trivial. lia.
    + apply (IH (lo + 2 ^ Z.of_nat k)); trivial. lia.
Qed.

Lemma cycle_days_ok : cycle_range_ok 18 0 = true.
Proof. vm_cast_no_check (eq_refl true). Qed.

Lemma cycle_day_ok_all doe : 0 <= doe < 146097 -> cycle_day_ok doe = true.
Proof.
  intros H. apply (cycle_range_ok_all 18 0 doe cycle_days_ok); [|lia].
  change (2 ^ Z.of_nat 18) with 262144. lia.
Qed.

Lemma days_from_civil_from_days z :
  let '(y, m, d) := civil_from_days z in
  days_from_civil y m d = z /\ 1 <= m <= 12 /\ 1 <= d <= 31.
Proof.
  unfold civil_from_days.
  set (z' := z + 719468).
  set (era := z' / 146097).
  set (doe := z' - era * 146097).
  assert (0 <= doe < 146097) as Hdoe.
  { unfold doe, era. pose proof (Z.mod_pos_bound z' 146097 ltac:(lia)).
    rewrite Z.mod_eq in H by lia. lia. }
  pose proof (cycle_day_ok_all doe Hdoe) as Hok. unfold cycle_day_ok in Hok.
  set (yoe := (doe - doe / 1460 + doe / 36524 - doe / 146096) / 365) in *.
  set (doy := doe - (365 * yoe + yoe / 4 - yoe / 100)) in *.
  set (mp := (5 * doy + 2) / 153) in *.
  set (d := doy - (153 * mp + 2) / 5 + 1) in *.
  set (m := if mp <? 10 then mp + 3 else mp - 9) in *.
  cbv zeta in Hok.
  repeat (apply andb_prop in Hok; destruct Hok as [Hok ?]).
  repeat match goal with H : (_ <=? _) = true |- _ => apply Z.leb_le in H end.
  match goal with H : (_ =? _) = true |- _ => apply Z.eqb_eq in H; rename H into Hdoe' end.
  apply Z.leb_le in Hok.
  split; [|lia].
  unfold days_from_civil.
  assert ((if m <=? 2 then yoe + era * 400 + (if m <=? 2 then 1 else 0) - 1
           else yoe + era * 400 + (if m <=? 2 then 1 else 0)) = yoe + era * 400) as ->.
  { destruct (m <=? 2); lia. }
  assert ((yoe + era * 400) / 400 = era) as ->.
  { rewrite Z.div_add by lia. rewrite Z.div_small by lia. lia. }
  replace (yoe + era * 400 - era * 400) with yoe by lia.
  cbv zeta. rewrite Hdoe'. unfold doe, z'. lia.
Qed.

(** X13.  [getTodayAndTomorrowUTC] gives the UTC midnight at or before
    the clock reading and the one after it: [today <= now < tomorrow], both
    are whole days since the epoch, 24 hours apart. *)
Theorem today_and_tomorrow :
  forall now,
    let '(today, tomorrow) := getTodayAndTomorrowUTC now in
    today <= now < tomorrow /\
    tomorrow = today + 24 * Hour /\
    today = now / (24 * Hour) * (24 * Hour).
Proof.
  intros now. unfold getTodayAndTomorrowUTC, Date, Year, Month, Day, Add.
  pose proof (days_from_civil_from_days (now / (24 * Hour))) as H.
  destruct (civil_from_days (now / (24 * Hour))) as [[y m] d]. simpl fst. simpl snd.
  destruct H as [-> _].
  pose proof (Z.mod_pos_bound now (24 * Hour) ltac:(unfold Hour, Minute, Second; lia)) as Hm.
  rewrite Z.mod_eq in Hm by (unfold Hour, Minute, Second; lia).
  unfold Hour, Minute, Second in *. lia.
Qed.

(** ** Fetching *)

Section FetchFacts.

Variable parseRFC3339 : string -> option Time.
Variable exchange_for : Time -> exchange.
Variable area : string.

Local Abbreviation Fetch := (FetchNordpoolPricesWithBase parseRFC3339 exchange_for area).
Local Abbreviation slots_of := (omap (slot_of_entry parseRFC3339 area)).

Lemma append_entries_omap allSlots entries :
  append_entries parseRFC3339 area allSlots entries = allSlots ++ slots_of entries.
Proof.
  unfold append_entries. revert allSlots.
  induction entries as [|e entries IH]; intros allSlots; simpl.
  - now rewrite app_nil_r.
  - rewrite IH. unfold slot_of_entry.
    destruct (parseRFC3339 (DeliveryStart e)) as [ts|]; trivial.
    destruct (EntryPerArea e area) as [p|]; trivial.
    now rewrite <- app_assoc.
Qed.

Lemma fetch_dates_cons d dates allSlots :
  fetch_dates parseRFC3339 exchange_for area (d :: dates) allSlots =
  match entries_of (exchange_for d) with
  | Some entries =>
      fetch_dates parseRFC3339 exchange_for area dates (allSlots ++ slots_of entries)
  | None =>
      inl match exchange_for d with
          | NoRequest => NewRequestError
          | NoResponse => RequestFailed d
          | Response status body =>
              if 300 <=? status then BadStatus d status else DecodeFailed d
          end
  end.
Proof.
  simpl. destruct (exchange_for d) as [| |status body]; trivial. simpl.
  rewrite Z.leb_antisym. destruct (status <? 300); simpl; trivial.
  destruct body; trivial.
  - now rewrite app_nil_r.
  - now rewrite append_entries_omap.
Qed.

Lemma Fetch_success now slots :
  Fetch now = inr slots <->
  exists today tomorrow e1 e2,
    getTodayAndTomorrowUTC now = (today, tomorrow) /\
    entries_of (exchange_for today) = Some e1 /\
    entries_of (exchange_for tomorrow) = Some e2 /\
    slots = GoSort.Slice byTimestamp (slots_of (e1 ++ e2)).
Proof.
  unfold FetchNordpoolPricesWithBase.
  destruct (getTodayAndTomorrowUTC now) as [today tomorrow].
  rewrite fetch_dates_cons.
  destruct (entries_of (exchange_for today)) as [e1|] eqn:E1.
  2:{ cbv beta iota. split; [discriminate|].
      intros (t1 & t2 & e1 & e2 & [= <- <-] & H & _). congruence. }
  rewrite fetch_dates_cons.
  destruct (entries_of (exchange_for tomorrow)) as [e2|] eqn:E2.
  2:{ cbv beta iota. split; [discriminate|].
      intros (t1 & t2 & e1' & e2 & [= <- <-] & _ & H & _). congruence. }
  cbn [fetch_dates app]. split.
  - intros [= <-]. exists today, tomorrow, e1, e2. now rewrite omap_app.
  - intros (t1 & t2 & e1' & e2' & [= <- <-] & F1 & F2 & ->).
    rewrite E1 in F1. rewrite E2 in F2. injection F1 as <-. injection F2 as <-.
    now rewrite omap_app.
Qed.

(** X14.  A fetch is all or nothing: it returns slots exactly when each of
    the two days has a response with a status below 300 whose body is empty
    or decodes; an empty body counts as a day without entries.  The result
    is then the chronological sort of the slots of today's entries followed
    by those of tomorrow's. *)
Theorem fetch_all_or_nothing :
  forall now slots,
    let '(today, tomorrow) := getTodayAndTomorrowUTC now in
    FetchNordpoolPricesWithBase parseRFC3339 exchange_for area now = inr slots <->
    exists entriesToday entriesTomorrow,
      entries_of (exchange_for today) = Some entriesToday /\
      entries_of (exchange_for tomorrow) = Some entriesTomorrow /\
      slots = GoSort.Slice byTimestamp
                (omap (slot_of_entry parseRFC3339 area) (entriesToday ++ entriesTomorrow)).
Proof.
  intros now slots.
  destruct (getTodayAndTomorrowUTC now) as [today tomorrow] eqn:E.
  rewrite Fetch_success, E. split.
  - intros (t1 & t2 & e1 & e2 & [= <- <-] & H). eauto.
  - intros (e1 & e2 & H). exists today, tomorrow, e1, e2. auto.
Qed.

Lemma entries_of_Some e entries entry :
  entries_of e = Some entries -> In entry entries ->
  exists status, status < 300 /\ e = Response status (Document entries).
Proof.
  destruct e as [| |status body]; simpl; try discriminate.
  destruct (status <? 300) eqn:E; [|discriminate]. apply Z.ltb_lt in E.
  destruct body; try discriminate.
  - intros [= <-] [].
  - intros [= <-] _. eauto.
Qed.

(** X15.  Fetched slots are in chronological order, and each of them stands
    for an entry of one of the two responses: its timestamp is the parsed
    [deliveryStart] of the entry and its price, in cents per kWh, a tenth of
    the entry's price for the area in EUR per MWh.  Entries without a price
    for the area or with a [deliveryStart] that does not parse leave no
    slot. *)
Theorem fetched_slots :
  forall now slots,
    FetchNordpoolPricesWithBase parseRFC3339 exchange_for area now = inr slots ->
    chronological slots /\
    forall slot, In slot slots ->
      exists date status entries entry price,
        (date = fst (getTodayAndTomorrowUTC now) \/
         date = snd (getTodayAndTomorrowUTC now)) /\
        exchange_for date = Response status (Document entries) /\
        status < 300 /\
        In entry entries /\
        parseRFC3339 (DeliveryStart entry) = Some (Timestamp slot) /\
        EntryPerArea entry area = Some price /\
        Price slot = (price / 10)%Q.
Proof.
  intros now slots H. apply Fetch_success in H.
  destruct H as (today & tomorrow & e1 & e2 & Hd & H1 & H2 & ->).
  split; [apply Slice_chronological|].
  intros slot Hs. rewrite Hd. simpl.
  eapply Permutation_in in Hs; [|apply Slice_Permutation].
  apply list_elem_of_In, list_elem_of_omap in Hs. destruct Hs as (entry & He & Hslot).
  unfold slot_of_entry in Hslot.
  destruct (parseRFC3339 (DeliveryStart entry)) as [ts|] eqn:Ep; [|discriminate].
  destruct (EntryPerArea entry area) as [price|] eqn:Ea; [|discriminate].
  injection Hslot as <-. simpl.
  apply list_elem_of_In, in_app_or in He. destruct He as [He|He].
  - destruct (entries_of_Some _ _ _ H1 He) as (status & Hst & Hr).
    exists today, status, e1, entry, price. auto 10.
  - destruct (entries_of_Some _ _ _ H2 He) as (status & Hst & Hr).
    exists tomorrow, status, e2, entry, price. auto 10.
Qed.

End FetchFacts.

(** ** Color tags *)

Lemma string_app_assoc (a b c : string) : ((a ++ b) ++ c = a ++ b ++ c)%string.
Proof. induction a as [|x a IH]; simpl; congruence. Qed.

Lemma string_app_nil_r (a : string) : (a ++ EmptyString)%string = a.
Proof. induction a as [|x a IH]; simpl; congruence. Qed.

Lemma stripTags_loop_inside_plain s :
  occurs "]" s = false -> stripTags_loop true s = EmptyString.
Proof.
  induction s as [|c s IH]; simpl; trivial.
  intros H. apply orb_false_elim in H. destruct H as [Hc Hs].
  rewrite Hc. simpl. destruct (Ascii.eqb c "["); auto.
Qed.

Lemma stripTags_loop_plain s :
  occurs "[" s = false -> stripTags_loop false s = s.
Proof.
  induction s as [|c s IH]; simpl; trivial.
  intros H. apply orb_false_elim in H. destruct H as [Hc Hs].
  rewrite Hc. now rewrite IH.
Qed.

Lemma stripTags_loop_no_open inside s :
  occurs "[" (stripTags_loop inside s) = false.
Proof.
  revert inside. induction s as [|c s IH]; intros inside; simpl; trivial.
  destruct (Ascii.eqb c "[") eqn:E; trivial.
  destruct inside; simpl.
  - destruct (Ascii.eqb c "]"); trivial.
  - now rewrite E, IH.
Qed.

Lemma stripTags_loop_app_plain a s :
  occurs "[" a = false ->
  stripTags_loop false (a ++ s) = (a ++ stripTags_loop false s)%string.
Proof.
  induction a as [|c a IH]; simpl; trivial.
  intros H. apply orb_false_elim in H. destruct H as [Hc Ha].
  rewrite Hc. now rewrite IH.
Qed.

Lemma stripTags_loop_tag inside name s :
  occurs "]" name = false ->
  stripTags_loop inside ("[" ++ name ++ "]" ++ s) = stripTags_loop false s.
Proof.
  intros H. change ("[" ++ name ++ "]" ++ s)%string with (String "[" (name ++ String "]" s)).
  cbn [stripTags_loop]. change (Ascii.eqb "[" "[") with true. cbv iota.
  clear inside. induction name as [|c name IH]; simpl.
  - trivial.
  - simpl in H. apply orb_false_elim in H. destruct H as [Hc Hn].
    rewrite Hc. destruct (Ascii.eqb c "["); auto.
Qed.

(** X16.  Plain output has no tag left: the result of [stripTags] holds no
    opening bracket, a string without an opening bracket is returned as it
    is, and stripping twice is stripping once. *)
Theorem stripTags_plain :
  forall s,
    occurs "[" (stripTags s) = false /\
    (occurs "[" s = false -> stripTags s = s) /\
    stripTags (stripTags s) = stripTags s.
Proof.
  intros s. split; [apply stripTags_loop_no_open|].
  split; [apply stripTags_loop_plain|].
  apply stripTags_loop_plain, stripTags_loop_no_open.
Qed.

(** X17.  A tag goes and the text around it stays: for text [a] without
    an opening bracket and a tag name without a closing bracket,
    [stripTags (a ++ "[" ++ name ++ "]" ++ s)] is [a] followed by what
    [stripTags] makes of [s].  So the plain rendering of a piece is what
    stripping its colored rendering gives. *)
Theorem stripTags_removes_tags :
  forall a name s,
    occurs "[" a = false -> occurs "]" name = false ->
    stripTags (a ++ "[" ++ name ++ "]" ++ s) = (a ++ stripTags s)%string /\
    (forall text,
        occurs "[" text = false ->
        colorize (wrap text ("[" ++ name ++ "]") true) false =
        wrap text ("[" ++ name ++ "]") false).
Proof.
  intros a name s Ha Hn. split.
  - unfold stripTags. rewrite stripTags_loop_app_plain by trivial.
    now rewrite stripTags_loop_tag.
  - intros text Ht. unfold colorize, wrap.
    assert (String.eqb ("[" ++ name ++ "]") EmptyString = false) as -> by reflexivity.
    cbn [andb negb]. rewrite !string_app_assoc.
    unfold stripTags. rewrite stripTags_loop_tag by trivial.
    rewrite stripTags_loop_app_plain by trivial.
    assert (stripTags_loop false "[-:-:-]" = EmptyString) as -> by reflexivity.
    apply string_app_nil_r.
Qed.

(** X18.  An opening bracket that is never closed swallows the rest of the
    string. *)
Theorem stripTags_unclosed :
  forall a s,
    occurs "[" a = false -> occurs "]" s = false ->
    stripTags (a ++ "[" ++ s) = a.
Proof.
  intros a s Ha Hs. unfold stripTags. rewrite stripTags_loop_app_plain by trivial.
  change ("[" ++ s)%string with (String "[" s).
  cbn [stripTags_loop]. change (Ascii.eqb "[" "[") with true. cbv iota.
  rewrite stripTags_loop_inside_plain by trivial.
  apply string_app_nil_r.
Qed.

(** ** [singleSlashJoin] *)

Lemma substring_all s : substring 0 (String.length s) s = s.
Proof. induction s as [|c s IH]; simpl; congruence. Qed.

Lemma substring_tail c b :
  substring 1 (String.length (String c b) - 1) (String c b) = b.
Proof. simpl. rewrite Nat.sub_0_r. apply substring_all. Qed.

Lemma length_string_app (a b : string) :
  String.length (a ++ b) = (String.length a + String.length b)%nat.
Proof. induction a as [|c a IH]; simpl; congruence. Qed.

Lemma HasPrefix_slash b :
  HasPrefix b "/" = true <-> exists b', b = String "/" b'.
Proof.
  unfold HasPrefix. destruct b as [|c b]; simpl.
  - split; [discriminate|]. intros [b' H]. discriminate.
  - destruct (Ascii.eqb_spec c "/") as [->|Hne].
    + split; [eauto|intros _; destruct b; reflexivity].
    + split; [discriminate|]. intros [b' H]. injection H as H _. contradiction.
Qed.

Lemma substring_last_app a c :
  substring (String.length a) 1 (a ++ String c EmptyString) = String c EmptyString.
Proof. induction a as [|x a IH]; simpl; trivial. Qed.

Lemma string_snoc_cases a :
  a = EmptyString \/ exists a' c, a = (a' ++ String c EmptyString)%string.
Proof.
  induction a as [|x a IH]; [now left|]. right.
  destruct IH as [->|(a' & c & ->)].
  - exists EmptyString, x. reflexivity.
  - exists (String x a'), c. reflexivity.
Qed.

Lemma HasSuffix_slash a :
  HasSuffix a "/" = true <-> exists a', a = (a' ++ "/")%string.
Proof.
  unfold HasSuffix.
  destruct (string_snoc_cases a) as [->|(a' & c & ->)].
  - simpl. split; [discriminate|]. intros [a' H]. destruct a'; discriminate.
  - rewrite length_string_app. simpl String.length.
    replace (String.length a' + 1 - 1)%nat with (String.length a') by lia.
    rewrite substring_last_app.
    assert ((1 <=? String.length a' + 1)%nat = true) as -> by (apply Nat.leb_le; lia).
    cbn [andb]. split.
    + intros H. apply String.eqb_eq in H. injection H as ->. eauto.
    + intros [a'' H].
      assert (c = "/"%char) as ->; [|reflexivity].
      clear -H. revert a'' H. induction a' as [|x a' IH]; intros a'' H.
      * destruct a'' as [|y a'']; simpl in H; [now injection H|].
        injection H as _ H. destruct a''; discriminate.
      * destruct a'' as [|y a'']; simpl in H.
        -- injection H as _ H. destruct a'; discriminate.
        -- injection H as _ H. eauto.
Qed.

(** X19.  [singleSlashJoin] puts one slash at the joint after dropping at
    most one slash from either side of it: the result is [a] without a
    trailing slash, a slash, and [b] without a leading slash.  When the
    base is empty a path that begins with a slash comes out unchanged; a
    base that ends with two slashes keeps one of them before the slash of
    the joint. *)
Theorem singleSlashJoin_joint :
  forall a b,
    (exists a' b',
        (a = (a' ++ "/")%string \/ (a = a' /\ HasSuffix a "/" = false)) /\
        (b = String "/" b' \/ (b = b' /\ HasPrefix b "/" = false)) /\
        singleSlashJoin a b = (a' ++ "/" ++ b')%string) /\
    singleSlashJoin EmptyString (String "/" b) = String "/" b /\
    singleSlashJoin (a ++ "//") (String "/" b) = (a ++ "//" ++ b)%string.
Proof.
  intros a b. split; [|split].
  - unfold singleSlashJoin.
    destruct (HasSuffix a "/") eqn:Ea, (HasPrefix b "/") eqn:Eb; cbn [andb negb].
    + apply HasSuffix_slash in Ea. destruct Ea as [a' ->].
      apply HasPrefix_slash in Eb. destruct Eb as [b' ->].
      exists a', b'. split; [now left|]. split; [now left|].
      now rewrite substring_tail, string_app_assoc.
    + apply HasSuffix_slash in Ea. destruct Ea as [a' ->].
      exists a', b. split; [now left|]. split; [now right|].
      now rewrite string_app_assoc.
    + apply HasPrefix_slash in Eb. destruct Eb as [b' ->].
      exists a, b'. split; [now right|]. split; [now left|]. reflexivity.
    + exists a, b. split; [now right|]. split; [now right|]. reflexivity.
  - unfold singleSlashJoin.
    assert (HasPrefix (String "/" b) "/" = true) as -> by (apply HasPrefix_slash; eauto).
    reflexivity.
  - unfold singleSlashJoin.
    assert (HasSuffix (a ++ "//") "/" = true) as ->.
    { apply HasSuffix_slash. exists (a ++ "/")%string. now rewrite string_app_assoc. }
    assert (HasPrefix (String "/" b) "/" = true) as -> by (apply HasPrefix_slash; eauto).
    cbn [andb]. now rewrite substring_tail, string_app_assoc.
Qed.

(** ** Parameters of the web front end *)

Section WebParamsFacts.

Variable jsString : jsValue -> string.
Variable in_Get : string -> jsValue.

Lemma toFloat_cases key def :
  match in_Get key with
  | JSUndefined | JSNull => toFloat in_Get key def = Returned def
  | JSNumber f =>
      toFloat in_Get key def = Returned (if Qeq_bool f 0 then def else f)
  | _ => toFloat in_Get key def = Panicked
  end.
Proof.
  unfold toFloat. destruct (in_Get key); simpl; trivial. now destruct (Qeq_bool f 0).
Qed.

Lemma toFloat_nonzero key def f :
  ~ (def == 0)%Q -> toFloat in_Get key def = Returned f -> ~ (f == 0)%Q.
Proof.
  intros Hd. pose proof (toFloat_cases key def) as H.
  destruct (in_Get key); rewrite H; try discriminate; try (now intros [= <-]).
  destruct (Qeq_bool f0 0) eqn:E; intros [= <-]; trivial.
  intros E'. apply Qeq_bool_iff in E'. congruence.
Qed.

Lemma toFloat_returns key def :
  (exists f, toFloat in_Get key def = Returned f) <-> absent_or_number (in_Get key).
Proof.
  pose proof (toFloat_cases key def) as H. unfold absent_or_number.
  destruct (in_Get key); rewrite H; split; eauto; try tauto; intros [f' Hf]; discriminate.
Qed.

Lemma toString_nonempty key def :
  def <> EmptyString -> toString jsString in_Get key def <> EmptyString.
Proof.
  intros Hd. unfold toString.
  destruct (in_Get key); trivial; simpl; try discriminate.
  destruct (String.eqb_spec s EmptyString); trivial.
Qed.

(** X20.  The parameters of the web front end fall back on defaults: a
    numeric field that is missing, null or zero takes its default
    (3, 3, 15, 2), and a string field that is missing, null or empty takes
    its own (LV, DayAhead, EUR).  So no numeric field of the parameters is
    ever zero - an hour budget of zero cannot be asked for - and no string
    field is empty, while any other number, a negative one included, is
    passed on as it is. *)
Theorem web_params_defaults :
  forall params baseURL,
    planPromise_params jsString in_Get = Returned (params, baseURL) ->
    (~ (MaxChargeHours params == 0)%Q /\ ~ (MaxDischargeHours params == 0)%Q /\
     ~ (LastPriceCharged params == 0)%Q /\ ~ (Epsilon params == 0)%Q) /\
    (Area params <> EmptyString /\ Market params <> EmptyString /\
     Currency params <> EmptyString /\ baseURL <> EmptyString) /\
    (forall f, in_Get "maxChargeHours"%string = JSNumber f -> ~ (f == 0)%Q ->
               MaxChargeHours params = f) /\
    (in_Get "maxChargeHours"%string = JSNumber 0 \/
     in_Get "maxChargeHours"%string = JSUndefined \/
     in_Get "maxChargeHours"%string = JSNull ->
     MaxChargeHours params = 3%Q).
Proof.
  intros params baseURL. unfold planPromise_params.
  destruct (toFloat in_Get "maxChargeHours" 3) as [c|] eqn:Ec; [|discriminate].
  destruct (toFloat in_Get "maxDischargeHours" 3) as [d|] eqn:Ed; [|discriminate].
  destruct (toFloat in_Get "lastPriceCharged" 15) as [l|] eqn:El; [|discriminate].
  destruct (toFloat in_Get "epsilon" 2) as [e|] eqn:Ee; [|discriminate].
  simpl. intros [= <- <-]. simpl.
  split; [|split; [|split]].
  - repeat split; eapply toFloat_nonzero; eauto; discriminate.
  - repeat split; apply toString_nonempty; discriminate.
  - intros f Hf Hnz. pose proof (toFloat_cases "maxChargeHours" 3) as H.
    rewrite Hf, Ec in H. injection H as ->.
    destruct (Qeq_bool f 0) eqn:E; trivial. apply Qeq_bool_iff in E. contradiction.
  - intros H0. pose proof (toFloat_cases "maxChargeHours" 3) as H.
    destruct H0 as [H0|[H0|H0]]; rewrite H0, Ec in H; now injection H as ->.
Qed.


End WebParamsFacts.

(** ** The service worker *)

Lemma days_from_civil_day y m d : days_from_civil y m 1 + (d - 1) = days_from_civil y m d.
Proof. unfold days_from_civil. lia. Qed.

Lemma days_from_civil_early y m d :
  y <= 99 -> 1 <= m <= 12 -> 1 <= d <= 31 -> days_from_civil y m d < 0.
Proof.
  intros Hy Hm Hd. unfold days_from_civil.
  set (y' := if m <=? 2 then y - 1 else y).
  assert (y' <= 99) by (unfold y'; destruct (m <=? 2); lia).
  set (mp := if 2 <? m then m - 3 else m + 9).
  assert (0 <= mp <= 11) by (unfold mp; destruct (2 <? m) eqn:E;
    [apply Z.ltb_lt in E|apply Z.ltb_ge in E]; lia).
  clearbody y' mp. cbv zeta.
  Z.to_euclidean_division_equations. lia.
Qed.

Lemma Date_UTC_of_day now date hours minutes :
  0 <= now ->
  Date_UTC (getUTCFullYear now) (getUTCMonth now) (getUTCDate now + date) hours minutes 0 0 =
  TimeClip ((now / msPerDay + date) * msPerDay + hours * 3600000 + minutes * 60000).
Proof.
  intros Hnow. unfold Date_UTC, getUTCFullYear, getUTCMonth, getUTCDate.
  pose proof (days_from_civil_from_days (now / msPerDay)) as H.
  destruct (civil_from_days (now / msPerDay)) as [[y m] d]. simpl fst. simpl snd.
  destruct H as (H & Hm & Hd).
  assert (0 <= now / msPerDay) as Hday by (apply Z.div_pos; unfold msPerDay; lia).
  assert (99 < y) as Hy.
  { destruct (Z_lt_le_dec 99 y); trivial.
    pose proof (days_from_civil_early y m d ltac:(lia) Hm Hd). lia. }
  assert ((0 <=? y) && (y <=? 99) = false) as ->.
  { apply andb_false_intro2. apply Z.leb_gt. lia. }
  replace (m - 1 + 1) with m by lia.
  rewrite days_from_civil_day, <- (days_from_civil_day y m (d + date)).
  rewrite <- H at 1. rewrite <- (days_from_civil_day y m d). f_equal. lia.
Qed.

Lemma TimeClip_in_range t : 0 <= t <= 8640000000000000 -> TimeClip t = Some t.
Proof.
  intros H. unfold TimeClip.
  destruct (Z.abs t <=? 8640000000000000) eqn:E; trivial.
  apply Z.leb_gt in E. lia.
Qed.


(** ** The further theorems at concrete inputs *)

Lemma chronological_output_witness :
  exists sched charge discharge,
    BuildBatterySchedule utcRFC3339 indefinite_int example_day example_params 0 =
      Returned sched /\
    ChargeSlots sched = toSlotJSON utcRFC3339 charge /\
    DischargeSlots sched = toSlotJSON utcRFC3339 discharge /\
    chronological charge /\ chronological discharge.
Proof.
  assert (exists sched,
             BuildBatterySchedule utcRFC3339 indefinite_int example_day example_params 0 =
             Returned sched) as [sched HB] by returns_by_evaluation.
  destruct (chronological_output utcRFC3339 indefinite_int example_day example_params 0 sched
              ltac:(by_evaluation) HB)
    as (charge & discharge & sc & sd & _ & _ & _ & _ & H1 & H2 & H3 & H4).
  exists sched, charge, discharge. auto.
Defined.


Lemma selected_slot_count_witness :
  exists sched,
    BuildBatterySchedule utcRFC3339 indefinite_int example_day example_params 0 =
      Returned sched /\
    Z.of_nat (length (elems_of (ChargeSlots sched))) = 3 /\
    Z.of_nat (length (elems_of (DischargeSlots sched))) = 3.
Proof.
  assert (exists sched,
             BuildBatterySchedule utcRFC3339 indefinite_int example_day example_params 0 =
             Returned sched) as [sched HB] by returns_by_evaluation.
  exists sched. split; [exact HB|].
  exact (selected_slot_count utcRFC3339 indefinite_int example_day example_params 0 sched
           ltac:(by_evaluation) HB).
Defined.


Lemma resolution_of_majority_witness :
  inferResolutionMinutes indefinite_int example_day = 60.
Proof.
  apply (resolution_of_majority indefinite_int example_day 60). vm_compute. lia.
Defined.

Lemma resolution_within_gaps_witness :
  60 <= inferResolutionMinutes indefinite_int example_day <= 180.
Proof.
  apply (resolution_within_gaps indefinite_int example_day 60 180).
  - vm_compute. lia.
  - repeat constructor; vm_compute; discriminate.
Defined.



Lemma descending_day_spaced : spaced (-60) (future_slots descending_day 0).
Proof.
  intros i prev cur Hp Hc. apply Z.eqb_eq.
  exact (consecutive_all_lookup
           (fun prev cur => Sub (Timestamp cur) (Timestamp prev) =? -60 * Minute)
           (future_slots descending_day 0) eq_refl i prev cur Hp Hc).
Qed.

Lemma descending_input_panics_witness :
  inferResolutionMinutes indefinite_int (future_slots descending_day 0) = -60 /\
  BuildBatterySchedule utcRFC3339 indefinite_int descending_day example_params 0 = Panicked.
Proof.
  destruct (descending_input_panics utcRFC3339 indefinite_int descending_day example_params 0 60
              ltac:(vm_compute; lia) ltac:(lia) descending_day_spaced
              ltac:(by_evaluation) ltac:(by_evaluation)) as (H1 & _ & H3).
  split; [exact H1|exact H3].
Defined.

Lemma example_day_half_minute i prev cur :
  future_slots example_day 0 !! i = Some prev ->
  future_slots example_day 0 !! S i = Some cur ->
  30 * Second <= Sub (Timestamp cur) (Timestamp prev).
Proof.
  intros Hp Hc. apply Z.leb_le.
  exact (consecutive_all_lookup
           (fun prev cur => 30 * Second <=? Sub (Timestamp cur) (Timestamp prev))
           (future_slots example_day 0) eq_refl i prev cur Hp Hc).
Qed.

Lemma Build_returns_on_spaced_witness :
  exists sched,
    BuildBatterySchedule utcRFC3339 indefinite_int example_day example_params 0 =
      Returned sched.
Proof.
  apply (Build_returns_on_spaced utcRFC3339 indefinite_int example_day example_params 0
           example_day_half_minute); split; by_evaluation.
Defined.

Lemma stripTags_removes_tags_witness :
  stripTags "Legend: [lime]C[-:-:-]=charge" = "Legend: C=charge"%string.
Proof.
  exact (proj1 (stripTags_removes_tags "Legend: " "lime" "C[-:-:-]=charge" eq_refl eq_refl)).
Defined.

Lemma stripTags_unclosed_witness :
  stripTags "area L[V (c/kWh)" = "area L"%string.
Proof.
  exact (stripTags_unclosed "area L" "V (c/kWh)" eq_refl eq_refl).
Defined.

Lemma fetched_slots_witness :
  exists slots,
    FetchNordpoolPricesWithBase example_parse example_exchange "LV" 0 = inr slots /\
    chronological slots /\ length slots = 2%nat.
Proof.
  assert (exists slots,
             FetchNordpoolPricesWithBase example_parse example_exchange "LV" 0 = inr slots)
    as [slots H] by (eexists; vm_compute; reflexivity).
  exists slots. split; [exact H|].
  split; [exact (proj1 (fetched_slots example_parse example_exchange "LV" 0 slots H))|].
  revert H. vm_compute. intros [= <-]. reflexivity.
Defined.

Lemma web_params_defaults_witness :
  exists params baseURL,
    planPromise_params (fun _ => EmptyString) no_properties = Returned (params, baseURL) /\
    MaxChargeHours params = 3%Q /\ ~ (Epsilon params == 0)%Q.
Proof.
  assert (exists params baseURL,
             planPromise_params (fun _ => EmptyString) no_properties =
             Returned (params, baseURL)) as (params & baseURL & H)
    by (do 2 eexists; vm_compute; reflexivity).
  exists params, baseURL. split; [exact H|].
  destruct (web_params_defaults (fun _ => EmptyString) no_properties params baseURL H)
    as ((_ & _ & _ & He) & _ & _ & Hd).
  split; [|exact He]. apply Hd. right. now left.
Defined.

